(** * openRouter_UI: the streaming decoder, the response handlers, stream
      sessions and the regeneration store

    A shallow embedding of the chat pipeline of the OpenRouter playground.

    - [Utf8], [TextDecoder] : the platform's [TextDecoder('utf-8')];
    - [SSE]     : the event-stream branch of [APIService.readSSE]
                  (js/api-service.js 80-117);
    - [Wire]    : the response payload as the handlers read it, with
                  [extractTextFromMessage] and [extractImagesFromMessage];
    - [Chat]    : [ChatManager], its message log and rendered messages;
    - [Session] : [beginStream], [abortActive], [cleanupStreamState] of
                  [APIService] and the timers they leave behind;
    - [Regen]   : [RegenerationManager] (js/regeneration-manager.js);
    - [App]     : the handlers of [OpenRouterApp] (js/app.js 331-659);
    - [Legacy]  : the stream state and the chunk callback of [runChat] in
                  the original single-file script;
    - [Frame], [Run], [View] : the lines of a frame, the page while a
                  stream is read, and how the rendered messages follow
                  the log;
    - [Edit]    : the edit mode of [ChatManager] ([startEditMode],
                  [saveEdit], [cancelEdit], js/api-service.js 1107-1274);
    - [Original] : [extractImagesFromMessage] of the original script;
    - [Upload]  : [ImageHandler] (js/image-handler.js);
    - [Request] : [buildMultimodalContent] and [buildMessagesFromHistory]
                  of [APIService], and the content [ImageHandler] makes.

    JavaScript strings are lists of code points.  The searches modelled
    here ([indexOf], [split], [trim], [startsWith]) look for characters
    of the Basic Multilingual Plane only, and the cuts made at the
    positions they find select the same text in the code-point view as
    in JavaScript's UTF-16 view.  The one cut at a fixed position,
    [text.slice(0, 1000)], counts code units ([slice_units]).  A thrown
    value is carried with its [message] and with what [String] makes of
    it ([Thrown]).

    [JSON.parse] is a parameter of the development.  Left out: time
    stamps, the buttons and counters of the regeneration controls, the
    alerts, and the delay of timers (a pending timer may come due at any
    later point).  The page is taken to be set up: the message container
    exists and the callbacks of [setupRegenerationListeners] are
    installed. *)

From Stdlib Require Import NArith ZArith Strings.Byte.
From stdpp Require Import base tactics option list strings pretty.

Local Open Scope N_scope.

(* ===================================================================== *)
(** * JavaScript strings as lists of code points                           *)
(* ===================================================================== *)

Definition jstring := list N.

Definition js (s : string) : jstring :=
  Byte.to_N <$> Stdlib.Strings.String.list_byte_of_string s.

Definition LF : N := 10.

(** ["\n\n"], the frame separator searched for by [readSSE]. *)
Definition frame_sep : jstring := [LF; LF].

(** ["data:"] and ["[DONE]"]. *)
Definition data_prefix : jstring := Eval cbv in js "data:".
Definition done_marker : jstring := Eval cbv in js "[DONE]".

(** [s.startsWith(p)], the test behind [s.indexOf(p) === 0]. *)
Fixpoint is_prefix (p s : jstring) : bool :=
  match p, s with
  | [], _ => true
  | _ :: _, [] => false
  | a :: p', b :: s' => (a =? b) && is_prefix p' s'
  end.

(** [s.indexOf(p)]: the least index at which [p] occurs; [None] stands for
    JavaScript's [-1]. *)
Fixpoint indexOf (p s : jstring) : option nat :=
  if is_prefix p s then Some 0%nat
  else match s with
       | [] => None
       | _ :: s' => S <$> indexOf p s'
       end.

(** [s.split("\n")]: never empty, one more piece than there are separators. *)
Fixpoint split_on (c : N) (s : jstring) : list jstring :=
  match s with
  | [] => [[]]
  | x :: s' =>
      if x =? c then [] :: split_on c s'
      else match split_on c s' with
           | h :: t => (x :: h) :: t
           | [] => [[x]]
           end
  end.

(** ECMAScript [WhiteSpace] and [LineTerminator] code points, the set
    removed by [String.prototype.trim]. *)
Definition is_js_space (c : N) : bool :=
  ((9 <=? c) && (c <=? 13)) || (c =? 32) || (c =? 160) || (c =? 5760)
  || ((8192 <=? c) && (c <=? 8202)) || (c =? 8232) || (c =? 8233)
  || (c =? 8239) || (c =? 8287) || (c =? 12288) || (c =? 65279).

Fixpoint trim_start (s : jstring) : jstring :=
  match s with
  | c :: s' => if is_js_space c then trim_start s' else s
  | [] => []
  end.

Definition trim_end (s : jstring) : jstring := reverse (trim_start (reverse s)).

Definition trim (s : jstring) : jstring := trim_end (trim_start s).

(** [s.slice(0, n)].  [slice] counts UTF-16 code units: a character
    outside the Basic Multilingual Plane takes two, and a cut between
    them keeps its high surrogate alone. *)
Fixpoint slice_units (n : nat) (s : jstring) {struct s} : jstring :=
  match n, s with
  | O, _ => []
  | _, [] => []
  | S n', c :: s' =>
      if c <? 65536 then c :: slice_units n' s'
      else match n' with
           | O => [55296 + (c - 65536) / 1024]
           | S n'' => c :: slice_units n'' s'
           end
  end.

(* ===================================================================== *)
(** * The streaming UTF-8 decoder behind [TextDecoder]                    *)
(* ===================================================================== *)

Module Utf8.

(** State of the UTF-8 decoder of the Encoding standard. *)
Record state := {
  code_point : N;
  bytes_seen : N;
  bytes_needed : N;
  lower_boundary : N;
  upper_boundary : N
}.

Definition init : state :=
  {| code_point := 0; bytes_seen := 0; bytes_needed := 0;
     lower_boundary := 0x80; upper_boundary := 0xBF |}.

Definition REPLACEMENT : N := 0xFFFD.

(** A byte read while no sequence is open. *)
Definition lead (b : N) : state * jstring :=
  if b <=? 0x7F then (init, [b])
  else if (0xC2 <=? b) && (b <=? 0xDF) then
    ({| code_point := N.land b 0x1F; bytes_seen := 0; bytes_needed := 1;
        lower_boundary := 0x80; upper_boundary := 0xBF |}, [])
  else if (0xE0 <=? b) && (b <=? 0xEF) then
    ({| code_point := N.land b 0xF; bytes_seen := 0; bytes_needed := 2;
        lower_boundary := if b =? 0xE0 then 0xA0 else 0x80;
        upper_boundary := if b =? 0xED then 0x9F else 0xBF |}, [])
  else if (0xF0 <=? b) && (b <=? 0xF4) then
    ({| code_point := N.land b 0x7; bytes_seen := 0; bytes_needed := 3;
        lower_boundary := if b =? 0xF0 then 0x90 else 0x80;
        upper_boundary := if b =? 0xF4 then 0x8F else 0xBF |}, [])
  else (init, [REPLACEMENT]).

(** One byte.  A byte that cannot continue the open sequence closes it
    with U+FFFD and is then read again as a lead byte. *)
Definition step (st : state) (b : N) : state * jstring :=
  if bytes_needed st =? 0 then lead b
  else if (b <? lower_boundary st) || (upper_boundary st <? b) then
    let '(st', out) := lead b in (st', REPLACEMENT :: out)
  else
    let cp := N.lor (N.shiftl (code_point st) 6) (N.land b 0x3F) in
    if bytes_seen st + 1 =? bytes_needed st then (init, [cp])
    else ({| code_point := cp; bytes_seen := bytes_seen st + 1;
             bytes_needed := bytes_needed st;
             lower_boundary := 0x80; upper_boundary := 0xBF |}, []).

Fixpoint run (st : state) (bs : list byte) : state * jstring :=
  match bs with
  | [] => (st, [])
  | b :: bs' =>
      let '(st1, out1) := step st (Byte.to_N b) in
      let '(st2, out2) := run st1 bs' in
      (st2, out1 ++ out2)
  end.

(** End of input (only reached by a non-streaming decode): an open
    sequence becomes U+FFFD. *)
Definition flush (st : state) : jstring :=
  if bytes_needed st =? 0 then [] else [REPLACEMENT].

End Utf8.

Module TextDecoder.

(** [new TextDecoder('utf-8')]: the byte decoder and the BOM-seen flag
    ([ignoreBOM] is left at its default, so one leading U+FEFF is
    dropped). *)
Record t := { utf8 : Utf8.state; bom_seen : bool }.

Definition new : t := {| utf8 := Utf8.init; bom_seen := false |}.

Definition BOM : N := 0xFEFF.

Definition strip_bom (seen : bool) (out : jstring) : bool * jstring :=
  if seen then (true, out)
  else match out with
       | [] => (false, [])
       | c :: rest => (true, if c =? BOM then rest else out)
       end.

(** [decoder.decode(value, { stream: true })]. *)
Definition decode_stream (d : t) (value : list byte) : t * jstring :=
  let '(u, out) := Utf8.run (utf8 d) value in
  let '(seen, out') := strip_bom (bom_seen d) out in
  ({| utf8 := u; bom_seen := seen |}, out').

(** A one-shot decode of a whole body, as [response.text()] does. *)
Definition decode_all (body : list byte) : jstring :=
  let '(u, out) := Utf8.run Utf8.init body in
  (strip_bom false (out ++ Utf8.flush u)).2.

End TextDecoder.

(* ===================================================================== *)
(** * Thrown values                                                       *)
(* ===================================================================== *)

Module Thrown.

(** A value that is thrown, or that a promise rejects with, as the page
    reads it: its [message], empty when the value has none (a string, or
    [undefined]), and what [String(error)] makes of it. *)
Record t := {
  message : jstring;
  to_string : jstring
}.

(** An error object of the given [name]: [String(error)] goes through
    [Error.prototype.toString]. *)
Definition error_object (name msg : jstring) : t :=
  {| message := msg;
     to_string := match name, msg with
                  | [], _ => msg
                  | _, [] => name
                  | _, _ => name ++ js ": " ++ msg
                  end |}.

(** [new Error(msg)]. *)
Definition Error (msg : jstring) : t := error_object (js "Error") msg.

(** The [TypeError] the platform raises, with its message. *)
Definition TypeError (msg : jstring) : t := error_object (js "TypeError") msg.

End Thrown.

(* ===================================================================== *)
(** * [APIService.readSSE]: the event-stream branch                       *)
(* ===================================================================== *)

Module SSE.

(** What [reader.read()] settles to.  A list of steps that ends without
    [ReadDone] or [ReadError] is a body whose next read is still pending. *)
Inductive read_step :=
| ReadChunk (value : list byte)
| ReadDone
| ReadError (err : Thrown.t).

(** The calls [readSSE] makes on its two callbacks, in order. *)
Inductive callback (J : Type) :=
| OnChunk (obj : J)
| OnDone (err : option Thrown.t).
Arguments OnChunk {J} obj.
Arguments OnDone {J} err.

Section Decoder.
Context {J : Type}.
(** [JSON.parse]; [None] when it throws. *)
Variable parse : jstring -> option J.

(** The [for] loop over the lines of one frame.  The result lists the
    objects handed to [onChunk] and tells whether ["[DONE]"] was met,
    in which case the rest of the frame is not looked at. *)
Fixpoint lines_loop (lines : list jstring) : list J * bool :=
  match lines with
  | [] => ([], false)
  | l :: rest =>
      let line := trim l in
      if negb (bool_decide (indexOf data_prefix line = Some 0%nat))
      then lines_loop rest
      else
        let data := trim (drop 5 line) in
        if bool_decide (data = done_marker) then ([], true)
        else match parse data with
             | Some obj =>
                 let '(objs, done) := lines_loop rest in (obj :: objs, done)
             | None => lines_loop rest
             end
  end.

(** The [while ((idx = buffer.indexOf('\n\n')) !== -1)] loop: objects
    delivered, remaining buffer, and whether ["[DONE]"] ended it. *)
Fixpoint drain_fuel (fuel : nat) (buffer : jstring) : list J * jstring * bool :=
  match fuel with
  | O => ([], buffer, false)
  | S fuel' =>
      match indexOf frame_sep buffer with
      | None => ([], buffer, false)
      | Some idx =>
          let chunk := take idx buffer in
          let buffer' := drop (idx + 2) buffer in
          let '(objs, done) := lines_loop (split_on LF chunk) in
          if done then (objs, buffer', true)
          else
            let '(objs', rest, done') := drain_fuel fuel' buffer' in
            (objs ++ objs', rest, done')
      end
  end.

(** Every turn of the loop removes at least the two separator
    characters, so the length of the buffer bounds the turns. *)
Definition drain (buffer : jstring) : list J * jstring * bool :=
  drain_fuel (length buffer) buffer.

(** The closure state of [pump]. *)
Record pump_state := { decoder : TextDecoder.t; buffer : jstring }.

Definition pump_init : pump_state :=
  {| decoder := TextDecoder.new; buffer := [] |}.

Fixpoint pump (st : pump_state) (reads : list read_step) : list (callback J) :=
  match reads with
  | [] => []
  | ReadDone :: _ => [OnDone None]
  | ReadError err :: _ => [OnDone (Some err)]
  | ReadChunk value :: reads' =>
      let '(dec, txt) := TextDecoder.decode_stream (decoder st) value in
      let '(objs, rest, done) := drain (buffer st ++ txt) in
      if done then (OnChunk <$> objs) ++ [OnDone None]
      else (OnChunk <$> objs) ++ pump {| decoder := dec; buffer := rest |} reads'
  end.

(** [readSSE] on an ok response declared as [text/event-stream]. *)
Definition readSSE_stream (reads : list read_step) : list (callback J) :=
  pump pump_init reads.

End Decoder.

End SSE.

(* ===================================================================== *)
(** * The wire payload, as the handlers read it                           *)
(* ===================================================================== *)

(** Each field is given the JSON type the handlers test for.  An absent
    string field and an absent array are [None] and [[]]; a [null] array
    entry is [None]. *)
Module Wire.

(** An entry of a [content] array; [part_image_url] is
    [part.image_url?.url]. *)
Record part := {
  part_type : option jstring;
  part_text : option jstring;
  part_image_url : option jstring
}.

(** An entry of an [images] array; [image_url] is [img.image_url?.url]. *)
Record image := {
  image_type : option jstring;
  image_url : option jstring
}.

Inductive content :=
| NoContent
| Text (s : jstring)
| Parts (ps : list (option part)).

(** The shape shared by [choice.delta] and [choice.message]. *)
Record message := {
  content_of : content;
  images : list (option image)
}.

Record choice := {
  delta : option message;
  message_of : option message;
  finish_reason : option jstring
}.

(** What [JSON.parse] returned: [null], another falsy value, or a value
    whose [choices] are as listed (none for a value without that
    array). *)
Inductive payload :=
| Null
| Falsy
| Doc (choices : list (option choice)).

(** Truthiness of an optional string: present and not empty. *)
Definition truthy (s : option jstring) : bool :=
  match s with Some (_ :: _) => true | _ => false end.

Definition is_lit (lit : string) (s : option jstring) : bool :=
  bool_decide (s = Some (js lit)).

(** [json.choices?.[0]?.message] on a truthy document. *)
Definition first_message (choices : list (option choice)) : option message :=
  match choices with
  | Some c :: _ => message_of c
  | _ => None
  end.

(** [APIService.extractTextFromMessage]. *)
Definition extractTextFromMessage (m : option message) : jstring :=
  match m with
  | None => []
  | Some m =>
      match content_of m with
      | Text s => s
      | Parts ps =>
          concat (omap (λ p, match p with
                             | Some p =>
                                 if is_lit "output_text" (part_type p) && truthy (part_text p)
                                 then part_text p else None
                             | None => None
                             end) ps)
      | NoContent => []
      end
  end.

(** [APIService.extractImagesFromMessage]. *)
Definition extractImagesFromMessage (m : option message) : list jstring :=
  match m with
  | None => []
  | Some m =>
      (match content_of m with
       | Parts ps =>
           omap (λ p, match p with
                      | Some p =>
                          if is_lit "output_image" (part_type p) && truthy (part_image_url p)
                          then part_image_url p else None
                      | None => None
                      end) ps
       | _ => []
       end)
      ++ omap (λ i, match i with
                    | Some i =>
                        if is_lit "image_url" (image_type i) && truthy (image_url i)
                        then image_url i else None
                    | None => None
                    end) (images m)
  end.

End Wire.

(* ===================================================================== *)
(** * [ChatManager]: the conversation log and the rendered messages       *)
(* ===================================================================== *)

Section ListUpdate.
Context {A : Type}.

Fixpoint update_first (P : A → bool) (f : A → A) (l : list A) : list A :=
  match l with
  | [] => []
  | x :: l' => if P x then f x :: l' else x :: update_first P f l'
  end.

Fixpoint remove_first (P : A → bool) (l : list A) : list A :=
  match l with
  | [] => []
  | x :: l' => if P x then l' else x :: remove_first P l'
  end.

(** The last entry that satisfies [P], where a loop running from the end
    or [nodes[nodes.length - 1]] of a [querySelectorAll] finds it. *)
Definition update_last (P : A → bool) (f : A → A) (l : list A) : list A :=
  reverse (update_first P f (reverse l)).

Definition remove_last (P : A → bool) (l : list A) : list A :=
  reverse (remove_first P (reverse l)).
End ListUpdate.

Module Chat.

Inductive role := User | Assistant.

#[global] Instance role_eq_dec : EqDecision role.
Proof. solve_decision. Defined.

(** An entry of [messageHistory] (its timestamp left out). *)
Record message := {
  role_of : role;
  content : jstring;
  images : list jstring
}.

(** A child of the [chatMessages] container: a [.message] element with
    its role class, its [.message-content] text and the sources of its
    [.message-images]; the typing indicator is such an element too, of
    class [message assistant typing-indicator]. *)
Record element := {
  el_role : role;
  typing_indicator : bool;
  textContent : jstring;
  el_images : list jstring
}.

Record t := {
  messageHistory : list message;
  chatMessages : list element;
  isStreaming : bool
}.

Definition init : t :=
  {| messageHistory := []; chatMessages := []; isStreaming := false |}.

Definition with_history (h : list message) (c : t) : t :=
  {| messageHistory := h; chatMessages := chatMessages c; isStreaming := isStreaming c |}.

Definition with_elements (e : list element) (c : t) : t :=
  {| messageHistory := messageHistory c; chatMessages := e; isStreaming := isStreaming c |}.

(** [addMessageToChat(role, content, images)]: one element appended to
    the container and one entry pushed on the log.  The element it
    returns is never [null] once the container is in place. *)
Definition addMessageToChat (r : role) (text : jstring) (imgs : list jstring) (c : t) : t :=
  {| messageHistory :=
       messageHistory c ++ [{| role_of := r; content := text; images := imgs |}];
     chatMessages :=
       chatMessages c ++ [{| el_role := r; typing_indicator := false;
                             textContent := text; el_images := imgs |}];
     isStreaming := isStreaming c |}.

(** The selector [.message.assistant]. *)
Definition is_assistant_element (e : element) : bool :=
  bool_decide (el_role e = Assistant).

(** [updateMessageContent]. *)
Definition updateMessageContent (text : jstring) (imgs : list jstring) (e : element) : element :=
  {| el_role := el_role e; typing_indicator := typing_indicator e;
     textContent := text; el_images := imgs |}.

(** [updateLastAssistantMessage(content, images = [])]. *)
Definition updateLastAssistantMessage (text : jstring) (imgs : list jstring) (c : t) : t :=
  with_elements
    (update_last is_assistant_element (updateMessageContent text imgs) (chatMessages c)) c.

Definition hideTypingIndicator (c : t) : t :=
  with_elements (filter (λ e, typing_indicator e = false) (chatMessages c)) c.

Definition showTypingIndicator (c : t) : t :=
  let c := hideTypingIndicator c in
  with_elements
    (chatMessages c ++ [{| el_role := Assistant; typing_indicator := true;
                           textContent := js "Assistant is typing...";
                           el_images := [] |}]) c.

Definition setStreamingState (b : bool) (c : t) : t :=
  {| messageHistory := messageHistory c; chatMessages := chatMessages c; isStreaming := b |}.

Definition is_assistant (m : message) : bool := bool_decide (role_of m = Assistant).

End Chat.

(* ===================================================================== *)
(** * Stream sessions of [APIService]                                     *)
(* ===================================================================== *)

Module Session.

(** Calls made on the platform, oldest first.  Abort controllers are
    numbered in order of construction. *)
Inductive event :=
| New (c : nat)                      (* new AbortController() *)
| Abort (c : nat)                    (* controller.abort() *)
| Fetch (signal : option nat).       (* fetch(CHAT_ENDPOINT, { signal }) *)

#[global] Instance event_eq_dec : EqDecision event.
Proof. solve_decision. Defined.

Record t := {
  currentController : option nat;
  streamingActive : bool;
  (** the platform's side *)
  trace : list event;
  created : nat;
  (** callbacks handed to [setTimeout] that have not run yet, each named
      after the controller made by the [beginStream] that scheduled it;
      nothing ever cancels them *)
  timers : list nat
}.

Definition init : t :=
  {| currentController := None; streamingActive := false;
     trace := []; created := 0; timers := [] |}.

Definition record (e : event) (s : t) : t :=
  {| currentController := currentController s; streamingActive := streamingActive s;
     trace := trace s ++ [e]; created := created s; timers := timers s |}.

(** [abortActive(reason, throwError = false)].  The second component
    tells whether it ends by throwing [Error(`Stream closed: ${reason}`)]. *)
Definition abortActive (reason : option jstring) (throwError : bool) (s : t) : t * bool :=
  let s :=
    match currentController s with
    | Some c => record (Abort c) s
    | None => s
    end in
  ({| currentController := None; streamingActive := false;
      trace := trace s; created := created s; timers := timers s |},
   Wire.truthy reason && throwError).

(** [beginStream(timeoutSeconds = 30)]. *)
Definition beginStream (s : t) : t :=
  let s := (abortActive None false s).1 in
  let c := created s in
  {| currentController := Some c; streamingActive := true;
     trace := trace s ++ [New c]; created := S c;
     timers := timers s ++ [c] |}.

(** [cleanupStreamState()]. *)
Definition cleanupStreamState (s : t) : t :=
  {| currentController := None; streamingActive := false;
     trace := trace s; created := created s; timers := timers s |}.

(** The [i]-th pending timeout comes due: its callback runs
    [this.abortActive('Timed out', true)]; what that throws reaches no
    handler. *)
Definition fire_timer (i : nat) (s : t) : t :=
  match timers s !! i with
  | None => s
  | Some _ =>
      (abortActive (Some (js "Timed out")) true
         {| currentController := currentController s;
            streamingActive := streamingActive s;
            trace := trace s; created := created s;
            timers := delete i (timers s) |}).1
  end.

(** What can happen to the service between two points of a run. *)
Inductive op :=
| BeginStream
| AbortActive (reason : option jstring) (throwError : bool)
| CleanupStreamState
| SendChatCompletion (stream : bool)
| TimerFires (i : nat).

(** [sendChatCompletion]'s call of [fetch]: the signal of the current
    controller is attached to streaming requests. *)
Definition fetch (stream : bool) (s : t) : t :=
  record (Fetch (if stream then currentController s else None)) s.

Definition run_op (o : op) (s : t) : t :=
  match o with
  | BeginStream => beginStream s
  | AbortActive reason throwError => (abortActive reason throwError s).1
  | CleanupStreamState => cleanupStreamState s
  | SendChatCompletion stream => fetch stream s
  | TimerFires i => fire_timer i s
  end.

Definition run_ops (ops : list op) (s : t) : t := foldl (λ s o, run_op o s) s ops.

(** The calls [abortActive] adds to the trace. *)
Definition abort_calls (s : t) : list event :=
  match currentController s with
  | Some c => [Abort c]
  | None => []
  end.

(** How often [abort()] was called on controller [c]. *)
Definition abort_count (c : nat) (s : t) : nat :=
  length (filter (λ e, e = Abort c) (trace s)).

(** What holds of every state the operations lead to: the current
    controller exists and has not been aborted, and controllers not yet
    constructed occur in no call. *)
Definition consistent (s : t) : Prop :=
  (∀ c, currentController s = Some c → (c < created s)%nat ∧ (Abort c ∉ trace s))
  ∧ (∀ c, (created s ≤ c)%nat → (Abort c ∉ trace s) ∧ (Fetch (Some c) ∉ trace s)).

End Session.

(* ===================================================================== *)
(** * [RegenerationManager]                                               *)
(* ===================================================================== *)

Module Regen.

(** An entry of [regenerationHistory] (its timestamp left out). *)
Record response := {
  content : jstring;
  images : list jstring
}.

Record user_message := {
  user_content : jstring;
  user_images : list jstring
}.

Record t := {
  regenerationHistory : list response;
  currentResponseIndex : Z;
  lastUserMessage : option user_message
}.

Definition init : t :=
  {| regenerationHistory := []; currentResponseIndex := -1; lastUserMessage := None |}.

Definition storeLastUserMessage (m : user_message) (r : t) : t :=
  {| regenerationHistory := []; currentResponseIndex := -1;
     lastUserMessage :=
       Some {| user_content := user_content m; user_images := user_images m |} |}.

Definition addResponseToHistory (text : jstring) (imgs : list jstring) (r : t) : t :=
  let history := regenerationHistory r ++ [{| content := text; images := imgs |}] in
  {| regenerationHistory := history;
     currentResponseIndex := Z.of_nat (length history) - 1;
     lastUserMessage := lastUserMessage r |}.

Definition clearRegenerationHistory (r : t) : t :=
  {| regenerationHistory := []; currentResponseIndex := -1; lastUserMessage := None |}.

Definition clearRegenerationHistoryOnly (r : t) : t :=
  {| regenerationHistory := []; currentResponseIndex := -1;
     lastUserMessage := lastUserMessage r |}.

Definition with_index (i : Z) (r : t) : t :=
  {| regenerationHistory := regenerationHistory r; currentResponseIndex := i;
     lastUserMessage := lastUserMessage r |}.

(** The guard
    [currentResponseIndex >= 0 && currentResponseIndex < regenerationHistory.length]
    and the entry it protects. *)
Definition getCurrentResponse (r : t) : option response :=
  if ((0 <=? currentResponseIndex r) &&
      (currentResponseIndex r <? Z.of_nat (length (regenerationHistory r))))%Z
  then regenerationHistory r !! Z.to_nat (currentResponseIndex r)
  else None.

Definition canGoToPrevious (r : t) : bool := (0 <? currentResponseIndex r)%Z.

Definition canGoToNext (r : t) : bool :=
  (currentResponseIndex r <? Z.of_nat (length (regenerationHistory r)) - 1)%Z.

(** The cursor of a slot: [-1] while there is no version, an index into
    the versions otherwise. *)
Definition cursor_ok (r : t) : Prop :=
  match regenerationHistory r with
  | [] => currentResponseIndex r = (-1)%Z
  | _ => (0 ≤ currentResponseIndex r < Z.of_nat (length (regenerationHistory r)))%Z
  end.

End Regen.

(* ===================================================================== *)
(** * The page: the singletons and the controls the handlers read         *)
(* ===================================================================== *)

(** Values of the form controls at the time a handler reads them. *)
Record settings := {
  apiKey : jstring;
  mode : jstring;
  stream : bool;
  selectedModel : option jstring
}.

Record world := {
  chat : Chat.t;
  regen : Regen.t;
  api : Session.t;
  ui : settings
}.

Definition with_chat (f : Chat.t → Chat.t) (w : world) : world :=
  {| chat := f (chat w); regen := regen w; api := api w; ui := ui w |}.

Definition with_regen (f : Regen.t → Regen.t) (w : world) : world :=
  {| chat := chat w; regen := f (regen w); api := api w; ui := ui w |}.

Definition with_api (f : Session.t → Session.t) (w : world) : world :=
  {| chat := chat w; regen := regen w; api := f (api w); ui := ui w |}.

Definition with_ui (u : settings) (w : world) : world :=
  {| chat := chat w; regen := regen w; api := api w; ui := u |}.

Definition world_init (u : settings) : world :=
  {| chat := Chat.init; regen := Regen.init; api := Session.init; ui := u |}.

(** ** Navigation, with the callbacks [setupRegenerationListeners] installs *)

(** [updateChatHistoryWithCurrentResponse]: the last assistant entry of
    the log takes the content of the version under the cursor. *)
Definition updateChatHistoryWithCurrentResponse (w : world) : world :=
  match Regen.getCurrentResponse (regen w) with
  | Some response =>
      with_chat (λ c,
        Chat.with_history
          (update_last Chat.is_assistant
             (λ m, {| Chat.role_of := Chat.role_of m;
                      Chat.content := Regen.content response;
                      Chat.images := Regen.images response |})
             (Chat.messageHistory c)) c) w
  | None => w
  end.

(** [displayCurrentResponse]; [onResponseChanged] is
    [ChatManager.updateLastAssistantMessage(response.content, response.images)]. *)
Definition displayCurrentResponse (w : world) : world :=
  match Regen.getCurrentResponse (regen w) with
  | Some response =>
      updateChatHistoryWithCurrentResponse
        (with_chat (Chat.updateLastAssistantMessage
                      (Regen.content response) (Regen.images response)) w)
  | None => w
  end.

Definition showPreviousResponse (w : world) : world :=
  if Regen.canGoToPrevious (regen w) then
    displayCurrentResponse
      (with_regen (Regen.with_index (Regen.currentResponseIndex (regen w) - 1)) w)
  else w.

Definition showNextResponse (w : world) : world :=
  if Regen.canGoToNext (regen w) then
    displayCurrentResponse
      (with_regen (Regen.with_index (Regen.currentResponseIndex (regen w) + 1)) w)
  else w.

(* ===================================================================== *)
(** * The network, as one exchange sees it                                *)
(* ===================================================================== *)

Module Net.

Inductive body_end := EndOfBody | BodyFails (err : Thrown.t).

Record response := {
  ok : bool;
  status : jstring;              (* the status code in decimal *)
  content_type : jstring;        (* getHeader(response, 'content-type') *)
  chunks : list (list byte);
  ending : body_end              (* a read rejects once the request is aborted *)
}.

(** What [fetch] settles to. *)
Inductive exchange :=
| Rejects (err : Thrown.t)
| Resolves (r : response).

Inductive result (A : Type) :=
| Ok (a : A)
| Throw (err : Thrown.t).
Arguments Ok {A} a.
Arguments Throw {A} err.

Definition reads (r : response) : list SSE.read_step :=
  (SSE.ReadChunk <$> chunks r)
  ++ [match ending r with
      | EndOfBody => SSE.ReadDone
      | BodyFails err => SSE.ReadError err
      end].

(** [response.text()]. *)
Definition text (r : response) : result jstring :=
  match ending r with
  | EndOfBody => Ok (TextDecoder.decode_all (concat (chunks r)))
  | BodyFails err => Throw err
  end.

End Net.

(* ===================================================================== *)
(** * [OpenRouterApp]: the response handlers                              *)
(* ===================================================================== *)

Module App.

Import Wire.

(** What a handler's chunk callback is called with: the
    [{ json, fallback: true }] wrapper of the non-stream branch of
    [readSSE], or the object parsed from a frame. *)
Inductive chunk :=
| Fallback (json : payload)
| Data (obj : payload).

(** The variables a streaming handler's two callbacks close over;
    [assistantMessageDiv] is only ever tested for [null]. *)
Record acc := {
  assistantMessageDiv : bool;
  assistantContent : jstring;
  assistantImages : list jstring
}.

Definition acc_init : acc :=
  {| assistantMessageDiv := false; assistantContent := []; assistantImages := [] |}.

Definition state : Type := world * acc.

Definition empty_response : jstring := js "[Empty response]".

(** [`Generated ${n} image(s):`]. *)
Definition generated (n : nat) : jstring :=
  js "Generated " ++ js (pretty n) ++ js " image(s):".

(** The message of the [TypeError] a property read on [null] raises. *)
Definition null_read (property : string) : jstring :=
  js "Cannot read properties of null (reading '" ++ js property ++ js "')".

(** [x || y] on strings. *)
Definition or_else (x y : jstring) : jstring :=
  match x with [] => y | _ => x end.

(** [if (!assistantMessageDiv) assistantMessageDiv = ChatManager.addMessageToChat('assistant', '')]. *)
Definition ensure_div (s : state) : state :=
  if assistantMessageDiv s.2 then s
  else (with_chat (Chat.addMessageToChat Chat.Assistant [] []) s.1,
        {| assistantMessageDiv := true;
           assistantContent := assistantContent s.2;
           assistantImages := assistantImages s.2 |}).

(** [assistantContent += fragment], the placeholder made on first use,
    then [ChatManager.updateLastAssistantMessage(assistantContent)]. *)
Definition append_text (fragment : jstring) (s : state) : state :=
  let s := (s.1, {| assistantMessageDiv := assistantMessageDiv s.2;
                    assistantContent := assistantContent s.2 ++ fragment;
                    assistantImages := assistantImages s.2 |}) in
  let s := ensure_div s in
  (with_chat (Chat.updateLastAssistantMessage (assistantContent s.2) []) s.1, s.2).

(** [assistantImages.push(url)]. *)
Definition push_image (url : jstring) (s : state) : state :=
  (s.1, {| assistantMessageDiv := assistantMessageDiv s.2;
           assistantContent := assistantContent s.2;
           assistantImages := assistantImages s.2 ++ [url] |}).

(** The body of [for (const part of delta.content)], the same in both
    streaming handlers. *)
Definition content_part (s : state) (p : option part) : state :=
  match p with
  | None => s
  | Some p =>
      let s :=
        if is_lit "output_text" (part_type p) && truthy (part_text p)
        then append_text (default [] (part_text p)) s else s in
      if is_lit "output_image" (part_type p) && truthy (part_image_url p)
      then push_image (default [] (part_image_url p)) s else s
  end.

(** [if (delta?.content?.length) for (const part of delta.content) ...].
    Iterating a string content visits its characters, none of which has
    a [type]. *)
Definition content_parts (d : option message) (s : state) : state :=
  match d with
  | Some d =>
      match content_of d with
      | Parts ps => foldl content_part s ps
      | _ => s
      end
  | None => s
  end.

(** What one entry of a [content] array, one entry of an [images]
    array and one whole choice hold for the streaming handlers: the
    text of an [output_text] part, the address of an [output_image] part
    or of an [image_url] entry. *)
Definition text_of_part (p : option part) : jstring :=
  match p with
  | Some p =>
      if is_lit "output_text" (part_type p) && truthy (part_text p)
      then default [] (part_text p) else []
  | None => []
  end.

Definition images_of_part (p : option part) : list jstring :=
  match p with
  | Some p =>
      if is_lit "output_image" (part_type p) && truthy (part_image_url p)
      then [default [] (part_image_url p)] else []
  | None => []
  end.

Definition images_of_entry (i : option image) : list jstring :=
  match i with
  | Some i =>
      if is_lit "image_url" (image_type i) && truthy (image_url i)
      then [default [] (image_url i)] else []
  | None => []
  end.

Definition parts_of (d : option message) : list (option part) :=
  match d with
  | Some d => match content_of d with Parts ps => ps | _ => [] end
  | None => []
  end.

Definition choice_text (c : choice) : jstring :=
  concat (text_of_part <$> parts_of (delta c)).

Definition choice_images (c : choice) : list jstring :=
  concat (images_of_entry <$> from_option images [] (delta c))
  ++ concat (images_of_part <$> parts_of (delta c)).

(** What the chunk callbacks leave alone: the regeneration store, the
    stream state and the controls. *)
Definition rest_of (s : state) : Regen.t * Session.t * settings :=
  (regen s.1, api s.1, ui s.1).

(** A version was pushed on the store, and nothing else about it
    changed. *)
Definition pushed (before after : Regen.t) : Prop :=
  ∃ text imgs, after = Regen.addResponseToHistory text imgs before.

(** The callbacks only ever add to the running text and to the running
    list of images. *)
Definition gains (s s' : state) (t : jstring) (imgs : list jstring) : Prop :=
  assistantContent s'.2 = assistantContent s.2 ++ t
  ∧ assistantImages s'.2 = assistantImages s.2 ++ imgs.

(** ** [handleStreamingResponse] *)

Module Text.

(** The chunk callback, js/app.js 438-470.  The second component is
    what the call throws, if anything. *)
Definition onChunk (c : chunk) (s : state) : state * option Thrown.t :=
  match c with
  | Fallback (Doc choices) =>
      let content := extractTextFromMessage (first_message choices) in
      let images := extractImagesFromMessage (first_message choices) in
      ((with_chat (Chat.addMessageToChat Chat.Assistant
                     (or_else content empty_response) images) s.1, s.2), None)
  | Fallback _ => (s, None)
  | Data Null => (s, Some (Thrown.TypeError (null_read "choices")))
  | Data Falsy => (s, None)
  | Data (Doc choices) =>
      let delta := match choices with
                   | Some choice :: _ => delta choice
                   | _ => None
                   end in
      let s :=
        match delta with
        | Some d =>
            match content_of d with
            | Text fragment => append_text fragment s
            | _ => s
            end
        | None => s
        end in
      (content_parts delta s, None)
  end.

(** The completion callback, js/app.js 471-486; its argument is not
    looked at. *)
Definition onDone (err : option Thrown.t) (s : state) : state :=
  let '(w, a) := s in
  let w :=
    if bool_decide (assistantImages a ≠ []) && assistantMessageDiv a
    then with_chat (Chat.updateLastAssistantMessage
                      (assistantContent a) (assistantImages a)) w
    else w in
  let w :=
    with_chat (λ c,
      match reverse (Chat.messageHistory c) with
      | last :: before =>
          Chat.with_history
            (reverse before ++
             [{| Chat.role_of := Chat.role_of last;
                 Chat.content := assistantContent a;
                 Chat.images := assistantImages a |}]) c
      | [] => c
      end) w in
  (with_regen (Regen.addResponseToHistory (assistantContent a) (assistantImages a)) w, a).

End Text.

(** ** [handleStreamingImageResponse] *)

Module Image.

(** [for (const img of delta.images)]. *)
Definition delta_image (s : state) (i : option image) : state :=
  match i with
  | Some i =>
      if is_lit "image_url" (image_type i) && truthy (image_url i)
      then ensure_div (push_image (default [] (image_url i)) s)
      else s
  | None => s
  end.

(** One turn of [for (const choice of chunk.choices)]. *)
Definition choice_step (c : choice) (s : state) : state :=
  let s := match delta c with
           | Some d => foldl delta_image s (images d)
           | None => s
           end in
  content_parts (delta c) s.

(** The loop; [choice.delta] throws on a [null] entry and the rest of
    the array is not visited. *)
Fixpoint choices_loop (cs : list (option choice)) (s : state) : state * option Thrown.t :=
  match cs with
  | [] => (s, None)
  | None :: _ => (s, Some (Thrown.TypeError (null_read "delta")))
  | Some c :: cs' => choices_loop cs' (choice_step c s)
  end.

(** The loop of the fallback branch, over [choice.message]. *)
Fixpoint total_images (cs : list (option choice)) (total : list jstring)
  : Net.result (list jstring) :=
  match cs with
  | [] => Net.Ok total
  | None :: _ => Net.Throw (Thrown.TypeError (null_read "message"))
  | Some c :: cs' => total_images cs' (total ++ extractImagesFromMessage (message_of c))
  end.

Definition summary (totalImages : list jstring) : jstring :=
  match totalImages with
  | [] => js "No images found in response."
  | _ => generated (length totalImages)
  end.

(** The chunk callback, js/app.js 512-557. *)
Definition onChunk (c : chunk) (s : state) : state * option Thrown.t :=
  match c with
  | Fallback (Doc choices) =>
      match total_images choices [] with
      | Net.Ok totalImages =>
          ((with_chat (Chat.addMessageToChat Chat.Assistant
                         (summary totalImages) totalImages) s.1, s.2), None)
      | Net.Throw err => (s, Some err)
      end
  | Fallback _ => (s, None)
  | Data (Doc choices) => choices_loop choices s
  | Data _ => (s, None)
  end.

(** The completion callback, js/app.js 558-564. *)
Definition onDone (err : option Thrown.t) (s : state) : state :=
  let '(w, a) := s in
  let text := or_else (assistantContent a) (generated (length (assistantImages a))) in
  let w :=
    if bool_decide (assistantImages a ≠ []) && assistantMessageDiv a
    then with_chat (Chat.updateLastAssistantMessage text (assistantImages a)) w
    else w in
  (with_regen (Regen.addResponseToHistory text (assistantImages a)) w, a).

End Image.

Section Pipeline.

(** [JSON.parse], followed by the reading of its result as a
    [payload]; [None] when it throws. *)
Variable parse : jstring → option payload.

(** [`...${text.slice(0, 1000)}`]. *)
Definition body_excerpt (text : jstring) : jstring := slice_units 1000 text.

(** [APIService.parseJsonOrThrow]. *)
Definition parseJsonOrThrow (r : Net.response) : Net.result payload :=
  match Net.text r with
  | Net.Throw err => Net.Throw err
  | Net.Ok text =>
      if bool_decide (indexOf (js "application/json") (Net.content_type r) = None)
      then Net.Throw (Thrown.Error
                        (js "Expected JSON but got " ++ [34] ++ Net.content_type r ++ [34]
                         ++ js ". Status " ++ Net.status r ++ js ". Body:" ++ [LF]
                         ++ body_excerpt text))
      else match parse text with
           | Some json => Net.Ok json
           | None => Net.Throw (Thrown.Error
                                  (js "Failed to parse JSON. Status " ++ Net.status r
                                   ++ js ". Body (truncated):" ++ [LF] ++ body_excerpt text))
           end
  end.

(** [APIService.readSSE(response, onChunk, onDone)], run to the point
    where the promise it returns settles; the second component is the
    error it rejects with.  In the event-stream branch whatever
    [onChunk] throws is caught on the spot. *)
Definition readSSE (r : Net.response)
    (onChunk : chunk → state → state * option Thrown.t)
    (onDone : option Thrown.t → state → state)
    (s : state) : state * option Thrown.t :=
  if negb (Net.ok r) then
    match Net.text r with
    | Net.Ok text =>
        (s, Some (Thrown.Error (js "HTTP " ++ Net.status r ++ [32; 8211; 32] ++ text)))
    | Net.Throw err => (s, Some err)
    end
  else if bool_decide (indexOf (js "text/event-stream") (Net.content_type r) = None) then
    match parseJsonOrThrow r with
    | Net.Throw err => (s, Some err)
    | Net.Ok json =>
        match onChunk (Fallback json) s with
        | (s, Some err) => (s, Some err)
        | (s, None) => (onDone None s, None)
        end
    end
  else
    (foldl (λ s cb, match cb with
                    | SSE.OnChunk obj => (onChunk (Data obj) s).1
                    | SSE.OnDone err => onDone err s
                    end)
           s (SSE.readSSE_stream parse (Net.reads r)),
     None).

(** [sendChatCompletion(..., stream = true)] and the handling of its
    response, shared by the two streaming handlers. *)
Definition streaming (onChunk : chunk → state → state * option Thrown.t)
    (onDone : option Thrown.t → state → state)
    (w : world) (net : Net.exchange) : world * option Thrown.t :=
  let w := with_api Session.beginStream w in
  let w := with_api (Session.fetch true) w in
  match net with
  | Net.Rejects err => (w, Some err)
  | Net.Resolves r =>
      let '(s, thrown) := readSSE r onChunk onDone (w, acc_init) in (s.1, thrown)
  end.

Definition handleStreamingResponse := streaming Text.onChunk Text.onDone.

Definition handleStreamingImageResponse := streaming Image.onChunk Image.onDone.

(** [sendChatCompletion(..., stream = false)]. *)
Definition fetch_json (w : world) (net : Net.exchange) : world * Net.result payload :=
  let w := with_api (Session.fetch false) w in
  match net with
  | Net.Rejects err => (w, Net.Throw err)
  | Net.Resolves r => (w, parseJsonOrThrow r)
  end.

(** js/app.js 492-499. *)
Definition handleNonStreamingResponse (w : world) (net : Net.exchange)
  : world * option Thrown.t :=
  match fetch_json w net with
  | (w, Net.Throw err) => (w, Some err)
  | (w, Net.Ok Null) => (w, Some (Thrown.TypeError (null_read "choices")))
  | (w, Net.Ok json) =>
      let message := match json with Doc choices => first_message choices | _ => None end in
      let content := extractTextFromMessage message in
      let images := extractImagesFromMessage message in
      let shown := or_else content empty_response in
      (with_regen (Regen.addResponseToHistory shown images)
         (with_chat (Chat.addMessageToChat Chat.Assistant shown images) w), None)
  end.

(** js/app.js 570-584. *)
Definition handleNonStreamingImageResponse (w : world) (net : Net.exchange)
  : world * option Thrown.t :=
  match fetch_json w net with
  | (w, Net.Throw err) => (w, Some err)
  | (w, Net.Ok Null) => (w, Some (Thrown.TypeError (null_read "choices")))
  | (w, Net.Ok json) =>
      match Image.total_images (match json with Doc choices => choices | _ => [] end) [] with
      | Net.Throw err => (w, Some err)
      | Net.Ok totalImages =>
          let content := Image.summary totalImages in
          (with_regen (Regen.addResponseToHistory content totalImages)
             (with_chat (Chat.addMessageToChat Chat.Assistant content totalImages) w), None)
      end
  end.

(** [try { ... } finally { setStreamingState(false); hideTypingIndicator() }]. *)
Definition finally (r : world * option Thrown.t) : world * option Thrown.t :=
  (with_chat (λ c, Chat.hideTypingIndicator (Chat.setStreamingState false c)) r.1, r.2).

Definition runTextChat (w : world) (net : Net.exchange) : world * option Thrown.t :=
  let stream := stream (ui w) in
  let w := with_chat (Chat.setStreamingState true) w in
  finally (if stream then handleStreamingResponse w net
           else handleNonStreamingResponse w net).

Definition runImageChat (w : world) (net : Net.exchange) : world * option Thrown.t :=
  let stream := stream (ui w) in
  let w := with_chat (Chat.setStreamingState true) w in
  finally (if stream then handleStreamingImageResponse w net
           else handleNonStreamingImageResponse w net).

(** [(error && error.message) ? error.message : String(error)]. *)
Definition error_text (error : Thrown.t) : jstring :=
  match Thrown.message error with
  | [] => Thrown.to_string error
  | message => message
  end.

(** [handleError(error)]. *)
Definition handleError (error : Thrown.t) (w : world) : world :=
  let message := error_text error in
  let w := with_chat Chat.hideTypingIndicator w in
  let w := with_chat (Chat.addMessageToChat Chat.Assistant (js "Error: " ++ message) []) w in
  let w := with_regen (Regen.addResponseToHistory (js "Error: " ++ message) []) w in
  with_api Session.cleanupStreamState w.

(** The [try { run...Chat } catch (error) { this.handleError(error) }]
    that ends [handleSendMessage] and [handleRegenerateResponse]. *)
Definition run_chat (w : world) (net : Net.exchange) : world :=
  let '(w, thrown) :=
    if bool_decide (mode (ui w) = js "text") then runTextChat w net
    else runImageChat w net in
  match thrown with
  | Some err => handleError err w
  | None => w
  end.

(** js/app.js 620-659. *)
Definition handleRegenerateResponse (w : world) (net : Net.exchange) : world :=
  match Regen.lastUserMessage (regen w) with
  | None => w
  | Some lastUserMessage =>
      if bool_decide (trim (apiKey (ui w)) = []) || bool_decide (selectedModel (ui w) = None)
      then w
      else
        let w :=
          match reverse (Chat.messageHistory (chat w)) with
          | last :: before =>
              if Chat.is_assistant last then
                with_chat (λ c,
                  Chat.with_elements
                    (remove_last Chat.is_assistant_element (Chat.chatMessages c))
                    (Chat.with_history (reverse before) c)) w
              else w
          | [] => w
          end in
        run_chat (with_chat Chat.showTypingIndicator w) net
  end.

(** [RegenerationManager.regenerateLastResponse], js/regeneration-manager.js
    97-108; [onRegenerateRequested] is [handleRegenerateResponse]. *)
Definition regenerateLastResponse (w : world) (net : Net.exchange) : world :=
  match Regen.lastUserMessage (regen w) with
  | None => w
  | Some lastUserMessage => handleRegenerateResponse w net
  end.

(** js/app.js 331-380, on the prompt and the uploaded images read from
    the page. *)
Definition handleSendMessage (prompt : jstring) (uploaded : list jstring)
    (w : world) (net : Net.exchange) : world :=
  let promptText := trim prompt in
  if bool_decide (trim (apiKey (ui w)) = []) then w
  else if bool_decide (promptText = []) && bool_decide (uploaded = []) then w
  else if bool_decide (selectedModel (ui w) = None) then w
  else
    let w := with_regen (Regen.storeLastUserMessage
               {| Regen.user_content := promptText; Regen.user_images := uploaded |}) w in
    let w := with_chat (Chat.addMessageToChat Chat.User promptText uploaded) w in
    run_chat (with_chat Chat.showTypingIndicator w) net.

(** The stop button. *)
Definition handleStopGeneration (w : world) : world :=
  let w := with_api (λ s, (Session.abortActive (Some (js "Stopped by user")) false s).1) w in
  with_chat (λ c, Chat.hideTypingIndicator (Chat.setStreamingState false c)) w.

(** [ChatManager.clearChat], whose [onChatCleared] is [handleClearChat]. *)
Definition clearChat (w : world) : world :=
  let w := with_chat (λ c,
             Chat.hideTypingIndicator
               (Chat.with_history [] (Chat.with_elements [] c))) w in
  with_regen Regen.clearRegenerationHistory w.

(** The pages a visit can lead to: whatever the controls are set to,
    whatever the network answers, and whenever a timeout comes due. *)
Inductive reachable : world → Prop :=
| reach_init u : reachable (world_init u)
| reach_settings u w : reachable w → reachable (with_ui u w)
| reach_send prompt uploaded net w :
    reachable w → reachable (handleSendMessage prompt uploaded w net)
| reach_regenerate net w : reachable w → reachable (regenerateLastResponse w net)
| reach_previous w : reachable w → reachable (showPreviousResponse w)
| reach_next w : reachable w → reachable (showNextResponse w)
| reach_stop w : reachable w → reachable (handleStopGeneration w)
| reach_clear w : reachable w → reachable (clearChat w)
| reach_timer i w : reachable w → reachable (with_api (Session.fire_timer i) w).

End Pipeline.

End App.

(* ===================================================================== *)
(** * The original single-file script                                     *)
(* ===================================================================== *)

Module Legacy.

Import Wire.

(** ** Stream state: [currentController], [streamingActive], [timeoutHandle] *)

Record session := {
  currentController : option nat;
  streamingActive : bool;
  timeoutHandle : option nat;
  (** the platform's side: calls made, controllers and timers handed
      out so far, timers still due *)
  trace : list Session.event;
  created : nat;
  scheduled : nat;
  pending : list nat
}.

Record page := {
  chat : Chat.t;
  stream_state : session
}.

Definition session_init : session :=
  {| currentController := None; streamingActive := false; timeoutHandle := None;
     trace := []; created := 0; scheduled := 0; pending := [] |}.

(** [clearTimeout(handle)]. *)
Definition clearTimeout (handle : option nat) (due : list nat) : list nat :=
  match handle with
  | Some h => filter (λ t, t ≠ h) due
  | None => due
  end.

(** [cleanupStreamState()] (the buttons it resets left out). *)
Definition cleanupStreamState (s : session) : session :=
  {| currentController := currentController s; streamingActive := false;
     timeoutHandle := None;
     trace := trace s; created := created s; scheduled := scheduled s;
     pending := clearTimeout (timeoutHandle s) (pending s) |}.

(** [abortActive(reason)]. *)
Definition abortActive (reason : option jstring) (p : page) : page :=
  let s := stream_state p in
  let s :=
    {| currentController := None; streamingActive := streamingActive s;
       timeoutHandle := timeoutHandle s;
       trace := match currentController s with
                | Some c => trace s ++ [Session.Abort c]
                | None => trace s
                end;
       created := created s; scheduled := scheduled s; pending := pending s |} in
  let c :=
    if truthy reason then
      Chat.addMessageToChat Chat.Assistant
        (js "[Stream closed: " ++ default [] reason ++ js "]") []
        (Chat.hideTypingIndicator (chat p))
    else chat p in
  {| chat := c; stream_state := cleanupStreamState s |}.

(** [beginStream()]. *)
Definition beginStream (p : page) : page :=
  let p := abortActive None p in
  let s := stream_state p in
  {| chat := chat p;
     stream_state :=
       {| currentController := Some (created s); streamingActive := true;
          timeoutHandle := Some (scheduled s);
          trace := trace s ++ [Session.New (created s)];
          created := S (created s); scheduled := S (scheduled s);
          pending := clearTimeout (timeoutHandle s) (pending s) ++ [scheduled s] |} |}.

(** Timer [h] comes due: nothing happens unless it is still pending;
    otherwise its callback runs [abortActive("Timed out")]. *)
Definition fire_timer (h : nat) (p : page) : page :=
  if bool_decide (h ∈ pending (stream_state p)) then
    let s := stream_state p in
    abortActive (Some (js "Timed out"))
      {| chat := chat p;
         stream_state :=
           {| currentController := currentController s;
              streamingActive := streamingActive s;
              timeoutHandle := timeoutHandle s;
              trace := trace s; created := created s; scheduled := scheduled s;
              pending := filter (λ t, t ≠ h) (pending s) |} |}
  else p.

(** The only timer that can be due is the one [timeoutHandle] names. *)
Definition tidy (s : session) : Prop :=
  ∀ t, t ∈ pending s → timeoutHandle s = Some t.

Definition ended (p : page) : page :=
  {| chat := chat p; stream_state := cleanupStreamState (stream_state p) |}.

(** ** The chunk callback of [runChat] *)

(** [assistantMessageDiv] is the position of the element in the
    container. *)
Record acc := {
  assistantMessageDiv : option nat;
  assistantContent : jstring;
  assistantImages : list jstring
}.

Definition acc_init : acc :=
  {| assistantMessageDiv := None; assistantContent := []; assistantImages := [] |}.

Definition state : Type := Chat.t * acc.

Definition blocked : jstring := js "[Blocked by content filter]".

(** [if (!assistantMessageDiv) assistantMessageDiv = addMessageToChat('assistant', text)]. *)
Definition ensure_div (text : jstring) (s : state) : state :=
  match assistantMessageDiv s.2 with
  | Some _ => s
  | None =>
      (Chat.addMessageToChat Chat.Assistant text [] s.1,
       {| assistantMessageDiv := Some (length (Chat.chatMessages s.1));
          assistantContent := assistantContent s.2;
          assistantImages := assistantImages s.2 |})
  end.

(** [assistantContent += fragment] and the write of the whole text into
    the element's [.message-content]. *)
Definition append_text (fragment : jstring) (s : state) : state :=
  let s := (s.1, {| assistantMessageDiv := assistantMessageDiv s.2;
                    assistantContent := assistantContent s.2 ++ fragment;
                    assistantImages := assistantImages s.2 |}) in
  let s := ensure_div [] s in
  match assistantMessageDiv s.2 with
  | Some i =>
      (Chat.with_elements
         (alter (λ e, {| Chat.el_role := Chat.el_role e;
                         Chat.typing_indicator := Chat.typing_indicator e;
                         Chat.textContent := assistantContent s.2;
                         Chat.el_images := Chat.el_images e |})
                i (Chat.chatMessages s.1)) s.1, s.2)
  | None => s
  end.

Definition content_part (s : state) (p : option part) : state :=
  match p with
  | None => s
  | Some p =>
      let s :=
        if is_lit "output_text" (part_type p) && truthy (part_text p)
        then append_text (default [] (part_text p)) s else s in
      if is_lit "output_image" (part_type p) && truthy (part_image_url p)
      then (s.1, {| assistantMessageDiv := assistantMessageDiv s.2;
                    assistantContent := assistantContent s.2;
                    assistantImages := assistantImages s.2
                                       ++ [default [] (part_image_url p)] |})
      else s
  end.

(** The callback handed to [readSSE] by [runChat]; the second component
    is what the call throws. *)
Definition onChunk (c : App.chunk) (s : state) : state * option Thrown.t :=
  match c with
  | App.Fallback (Doc choices) =>
      let content := extractTextFromMessage (first_message choices) in
      ((Chat.addMessageToChat Chat.Assistant
          (App.or_else content App.empty_response) [] s.1, s.2), None)
  | App.Fallback _ => (s, None)
  | App.Data Null => (s, Some (Thrown.TypeError (App.null_read "choices")))
  | App.Data Falsy => (s, None)
  | App.Data (Doc choices) =>
      let choice := match choices with
                    | Some choice :: _ => Some choice
                    | _ => None
                    end in
      let fin := choice ≫= finish_reason in
      let s := if is_lit "content_filter" fin then ensure_div blocked s else s in
      let delta := choice ≫= delta in
      let s :=
        match delta with
        | Some d =>
            match content_of d with
            | Text fragment => append_text fragment s
            | _ => s
            end
        | None => s
        end in
      (match delta with
       | Some d =>
           match content_of d with
           | Parts ps => foldl content_part s ps
           | _ => s
           end
       | None => s
       end, None)
  end.

End Legacy.

(* ===================================================================== *)
(** * Sample pages, answers and frames                                    *)
(* ===================================================================== *)

Module Sample.

Import Wire.

Definition bytes (s : string) : list byte := Stdlib.Strings.String.list_byte_of_string s.

(** A stand-in for [JSON.parse] on sample bodies and frames: a text that
    starts with ['!'] does not parse, an empty one neither, and any
    other text parses to a document whose only choice carries that text
    as the content of both its [delta] and its [message]. *)
Definition answer (t : jstring) : payload :=
  Doc [Some {| delta := Some {| content_of := Text t; images := [] |};
               message_of := Some {| content_of := Text t; images := [] |};
               finish_reason := None |}].

Definition echo (t : jstring) : option payload :=
  match t with
  | [] => None
  | 33 :: _ => None
  | _ => Some (answer t)
  end.

Definition page (streaming : bool) : world :=
  world_init {| apiKey := js "sk-or-sample"; mode := js "text"; stream := streaming;
                selectedModel := Some (js "openrouter/auto") |}.

(** A buffered answer with the given body. *)
Definition json_reply (body : string) : Net.exchange :=
  Net.Resolves {| Net.ok := true; Net.status := js "200";
                  Net.content_type := js "application/json";
                  Net.chunks := [bytes body]; Net.ending := Net.EndOfBody |}.

(** An event stream that ends without a single frame. *)
Definition empty_stream : Net.response :=
  {| Net.ok := true; Net.status := js "200";
     Net.content_type := js "text/event-stream";
     Net.chunks := []; Net.ending := Net.EndOfBody |}.

(** [{"choices":[{"delta":{},"finish_reason":"content_filter"}]}]. *)
Definition filtered_frame : payload :=
  Doc [Some {| delta := Some {| content_of := NoContent; images := [] |};
               message_of := None;
               finish_reason := Some (js "content_filter") |}].

(** A choice whose [delta] is the plain string [t]. *)
Definition says (t : string) : choice :=
  {| delta := Some {| content_of := Text (js t); images := [] |};
     message_of := None; finish_reason := None |}.

(** A choice that lists one image, at [url], under [delta.images]. *)
Definition pictures (url : jstring) : choice :=
  {| delta := Some {| content_of := NoContent;
                      images := [Some {| image_type := Some (js "image_url");
                                         image_url := Some url |}] |};
     message_of := None; finish_reason := None |}.

(** A second stand-in, for image frames: every text parses to a document
    whose only choice lists that text as the address of one image. *)
Definition as_image (t : jstring) : option payload := Some (Doc [Some (pictures t)]).

Definition nl : string := String (Ascii.ascii_of_nat 10) "".

(** The bytes of the frame [data: payload], blank line included. *)
Definition frame (payload : string) : list byte :=
  bytes ("data: " +:+ payload +:+ nl +:+ nl).

(** An event stream made of the given reads, ended by the server. *)
Definition event_stream (chunks : list (list byte)) : Net.exchange :=
  Net.Resolves {| Net.ok := true; Net.status := js "200";
                  Net.content_type := js "text/event-stream";
                  Net.chunks := chunks; Net.ending := Net.EndOfBody |}.

Definition image_page : world :=
  world_init {| apiKey := js "sk-or-sample"; mode := js "image"; stream := true;
                selectedModel := Some (js "google/gemini-2.5-flash-image-preview") |}.

(** A visit: a question answered by ["A"], a second answer ["B"] asked
    for, and a step back to ["A"]. *)
Definition two_versions_first_shown : world :=
  showPreviousResponse
    (App.regenerateLastResponse echo
       (App.handleSendMessage echo (js "hi") [] (page false) (json_reply "A"))
       (json_reply "B")).

End Sample.

(* ===================================================================== *)
(** * Frames and their lines                                              *)
(* ===================================================================== *)

Module Frame.

(** What [readSSE] hands to [JSON.parse] for one line of a frame
    (js/api-service.js 97-99): nothing unless the trimmed line starts
    with ["data:"], and otherwise what follows the prefix, trimmed. *)
Definition payload_of (l : jstring) : option jstring :=
  let line := trim l in
  if bool_decide (indexOf data_prefix line = Some 0%nat)
  then Some (trim (drop 5 line)) else None.

(** The lines of a frame joined by line feeds, the inverse of
    [chunk.split('\n')]. *)
Fixpoint join (lines : list jstring) : jstring :=
  match lines with
  | [] => []
  | [l] => l
  | l :: rest => l ++ LF :: join rest
  end.

(** A line as a frame can hold it: not empty and without a line feed. *)
Definition is_line (l : jstring) : Prop := l ≠ [] ∧ LF ∉ l.

End Frame.

(* ===================================================================== *)
(** * The page in the course of a streaming run                           *)
(* ===================================================================== *)

Module Run.

Import App.

(** What [ChatManager.addMessageToChat('assistant', '')] pushes on the
    log, and the element a handler's message has become once it shows
    [text] and [imgs]. *)
Definition placeholder : Chat.message :=
  {| Chat.role_of := Chat.Assistant; Chat.content := []; Chat.images := [] |}.

Definition shown (text : jstring) (imgs : list jstring) : Chat.element :=
  {| Chat.el_role := Chat.Assistant; Chat.typing_indicator := false;
     Chat.textContent := text; Chat.el_images := imgs |}.

(** A run that found the log [log] and the elements [els] on the page
    and is now in state [s]: nothing is added until the handler makes
    its message, which happens with the first text at the latest; from
    then on the log ends with the placeholder and the container with the
    element, which shows the text received so far. *)
Definition in_progress (log : list Chat.message) (els : list Chat.element)
    (s : state) : Prop :=
  Chat.messageHistory (chat s.1) =
    log ++ (if assistantMessageDiv s.2 then [placeholder] else [])
  ∧ Chat.chatMessages (chat s.1) =
      els ++ (if assistantMessageDiv s.2 then [shown (assistantContent s.2) []] else [])
  ∧ (assistantMessageDiv s.2 = false → assistantContent s.2 = []).

(** [history[history.length - 1].content = text] and
    [history[history.length - 1].images = imgs], when there is a last
    entry (js/app.js 477-483). *)
Definition overwrite_last (text : jstring) (imgs : list jstring)
    (log : list Chat.message) : list Chat.message :=
  match reverse log with
  | last :: before =>
      reverse before ++ [{| Chat.role_of := Chat.role_of last;
                            Chat.content := text; Chat.images := imgs |}]
  | [] => log
  end.

(** [chunk.choices?.[0]?.delta], which is all the text handler reads of
    an object parsed from a frame (js/app.js 446-447). *)
Definition first_delta (obj : Wire.payload) : option Wire.message :=
  match obj with
  | Wire.Doc (Some choice :: _) => Wire.delta choice
  | _ => None
  end.

(** Whether the loop over [delta.content] meets a part it takes a text
    from, and the loop over [delta.images] an entry it takes an address
    from. *)
Definition has_text_part (d : option Wire.message) : bool :=
  existsb (λ p, match p with
                | Some p => Wire.is_lit "output_text" (Wire.part_type p)
                            && Wire.truthy (Wire.part_text p)
                | None => false
                end) (parts_of d).

Definition has_image_entry (d : option Wire.message) : bool :=
  existsb (λ i, match i with
                | Some i => Wire.is_lit "image_url" (Wire.image_type i)
                            && Wire.truthy (Wire.image_url i)
                | None => false
                end) (from_option Wire.images [] d).

(** Whether the text handler gets to its
    [if (!assistantMessageDiv) assistantMessageDiv = ...] on [obj]: on
    a string content, empty or not, and on a text part (js/app.js 449,
    458). *)
Definition brings_text (obj : Wire.payload) : bool :=
  match first_delta obj with
  | Some d =>
      match Wire.content_of d with
      | Wire.Text _ => true
      | _ => has_text_part (Some d)
      end
  | None => false
  end.

(** The choices the loop of the image handler gets to: it throws on
    the first [null] entry (js/app.js 527-528). *)
Fixpoint visited (cs : list (option Wire.choice)) : list Wire.choice :=
  match cs with
  | Some c :: cs' => c :: visited cs'
  | _ => []
  end.

Definition visited_choices (obj : Wire.payload) : list Wire.choice :=
  match obj with
  | Wire.Doc cs => visited cs
  | _ => []
  end.

(** Whether the image handler gets to its
    [if (!assistantMessageDiv) assistantMessageDiv = ...] on choice [c]
    (js/app.js 534, 545). *)
Definition makes_message (c : Wire.choice) : bool :=
  has_image_entry (Wire.delta c) || has_text_part (Wire.delta c).

(** The same run on a page whose stream state went through [g]. *)
Definition elsewhere (g : Session.t → Session.t) (s : state) : state :=
  (with_api g s.1, s.2).

(** The page while [handleSendMessage], past its guards, awaits the
    answer to its request (js/app.js 354-376, then 385-392 or 407-414,
    then the [await] of [sendChatCompletion]): the prompt is in the
    log, the indicator is shown, the controls are locked, and [fetch]
    has been called, for a streamed request after [beginStream]. *)
Definition awaiting (prompt : jstring) (uploaded : list jstring) (w : world) : world :=
  let promptText := trim prompt in
  let w := with_regen (Regen.storeLastUserMessage
             {| Regen.user_content := promptText; Regen.user_images := uploaded |}) w in
  let w := with_chat (Chat.addMessageToChat Chat.User promptText uploaded) w in
  let w := with_chat Chat.showTypingIndicator w in
  let w := with_chat (Chat.setStreamingState true) w in
  if stream (ui w)
  then with_api (Session.fetch true) (with_api Session.beginStream w)
  else with_api (Session.fetch false) w.

End Run.

(* ===================================================================== *)
(** * The rendered messages against the log                               *)
(* ===================================================================== *)

Module View.

(** The last assistant message on the page, if there is one, shows the
    version [v], and the last assistant entry of the log, if there is
    one, holds it. *)
Definition displays (c : Chat.t) (v : Regen.response) : Prop :=
  (∀ e, last (filter (λ e, Chat.el_role e = Chat.Assistant) (Chat.chatMessages c)) = Some e →
        Chat.textContent e = Regen.content v ∧ Chat.el_images e = Regen.images v)
  ∧ (∀ m, last (filter (λ m, Chat.role_of m = Chat.Assistant) (Chat.messageHistory c)) = Some m →
          Chat.content m = Regen.content v ∧ Chat.images m = Regen.images v).

(** The messages on the page, the typing indicator apart, and the
    entries of the log are as many, and have the same roles in the same
    order. *)
Definition aligned (c : Chat.t) : Prop :=
  Chat.el_role <$> filter (λ e, Chat.typing_indicator e = false) (Chat.chatMessages c)
  = Chat.role_of <$> Chat.messageHistory c.

(** No typing indicator is on the page. *)
Definition settled (c : Chat.t) : Prop :=
  Forall (λ e, Chat.typing_indicator e = false) (Chat.chatMessages c).

End View.

(* ===================================================================== *)
(** * [ChatManager]: editing a message                                    *)
(* ===================================================================== *)

(** A message element is referred to by its position among the
    [.message] children of the container; a position past the last one
    stands for an element that is not, or no longer, in the container. *)
Module Edit.

(** [findMessageIndex(messageElement)]: the index of the element in
    [chatMessages.querySelectorAll('.message')]; [None] stands for [-1]. *)
Definition findMessageIndex (el : nat) (c : Chat.t) : option nat :=
  if decide (el < length (Chat.chatMessages c))%nat then Some el else None.

(** [updateMessageInHistory(messageElement, newContent)]; the write
    [this.messageHistory[messageIndex].content = newContent] throws when
    the log has no entry at that index. *)
Definition updateMessageInHistory (el : nat) (newContent : jstring) (c : Chat.t)
  : Net.result Chat.t :=
  match findMessageIndex el c with
  | None => Net.Ok c
  | Some messageIndex =>
      match Chat.messageHistory c !! messageIndex with
      | Some m =>
          Net.Ok (Chat.with_history
                    (<[messageIndex := {| Chat.role_of := Chat.role_of m;
                                          Chat.content := newContent;
                                          Chat.images := Chat.images m |}]>
                       (Chat.messageHistory c)) c)
      | None => Net.Throw (Thrown.TypeError
                             (js "Cannot set properties of undefined (setting 'content')"))
      end
  end.

(** What the user types into the [contentEditable] text of a message. *)
Definition type_into (el : nat) (text : jstring) (c : Chat.t) : Chat.t :=
  Chat.with_elements
    (alter (λ e, {| Chat.el_role := Chat.el_role e;
                    Chat.typing_indicator := Chat.typing_indicator e;
                    Chat.textContent := text;
                    Chat.el_images := Chat.el_images e |}) el (Chat.chatMessages c)) c.

(** [startEditMode(messageElement)]: refused unless the element is a
    user message; otherwise the text to restore on cancel is taken
    down. *)
Definition startEditMode (el : nat) (c : Chat.t) : option jstring :=
  match Chat.chatMessages c !! el with
  | Some e => if bool_decide (Chat.el_role e = Chat.User) then Some (Chat.textContent e)
              else None
  | None => None
  end.

(** [saveEdit(messageElement, contentDiv)]: the trimmed text of the
    element goes to the log, unless it is empty; no [onMessageEdited]
    callback is installed by the application. *)
Definition saveEdit (el : nat) (c : Chat.t) : Net.result Chat.t :=
  match Chat.chatMessages c !! el with
  | Some e =>
      let newContent := trim (Chat.textContent e) in
      if bool_decide (newContent = []) then Net.Ok c
      else updateMessageInHistory el newContent c
  | None => Net.Ok c
  end.

(** [cancelEdit(messageElement, originalContent)]. *)
Definition cancelEdit (el : nat) (originalContent : jstring) (c : Chat.t) : Chat.t :=
  type_into el originalContent c.

End Edit.

(* ===================================================================== *)
(** * The extraction functions of the original script                     *)
(* ===================================================================== *)

Module Original.

Import Wire.

(** [extractImagesFromMessage] of the original script (unnamed/part_000
    1597-1617): an entry of [message.images] counts whatever its
    [type]. *)
Definition extractImagesFromMessage (m : option message) : list jstring :=
  match m with
  | None => []
  | Some m =>
      (match content_of m with
       | Parts ps =>
           omap (λ p, match p with
                      | Some p =>
                          if is_lit "output_image" (part_type p) && truthy (part_image_url p)
                          then part_image_url p else None
                      | None => None
                      end) ps
       | _ => []
       end)
      ++ omap (λ i, match i with
                    | Some i => if truthy (image_url i) then image_url i else None
                    | None => None
                    end) (images m)
  end.

End Original.

(* ===================================================================== *)
(** * [ImageHandler]: the images waiting to be sent                       *)
(* ===================================================================== *)

Module Upload.

(** What the handler reads of a [File]. *)
Record file := {
  name : jstring;
  type : jstring;
  size : N
}.

(** An entry of [uploadedImages]. *)
Record image := {
  data : jstring;
  file_of : file
}.

Record t := {
  uploadedImages : list image;
  (** the data URL of each [.image-preview-item] of the preview
      container, in order *)
  previews : list jstring;
  (** the files handed to a [FileReader] whose [onload] has not run yet *)
  reading : list file;
  maxFileSize : N;
  allowedTypes : list jstring
}.

Definition init : t :=
  {| uploadedImages := []; previews := []; reading := [];
     maxFileSize := 10 * 1024 * 1024;
     allowedTypes := [js "image/jpeg"; js "image/jpg"; js "image/png";
                      js "image/gif"; js "image/webp"] |}.

(** [validateFile(file)] (its alerts left out). *)
Definition validateFile (f : file) (h : t) : bool :=
  if negb (bool_decide (type f ∈ allowedTypes h)) then false
  else if maxFileSize h <? size f then false
  else true.

(** The files [validateFile] lets through under the limits of the
    constructor. *)
Definition accepted (f : file) : Prop :=
  type f ∈ [js "image/jpeg"; js "image/jpg"; js "image/png"; js "image/gif"; js "image/webp"]
  ∧ (size f ≤ 10485760)%N.

(** [handleFileSelection(files)]: each file that passes is handed to a
    [FileReader] by [addImagePreview]. *)
Definition handleFileSelection (files : list file) (h : t) : t :=
  {| uploadedImages := uploadedImages h; previews := previews h;
     reading := reading h ++ List.filter (λ f, validateFile f h) files;
     maxFileSize := maxFileSize h; allowedTypes := allowedTypes h |}.

(** The [onload] callback of the [i]-th pending reader, with the data
    URL the reader made. *)
Definition onload (i : nat) (result : jstring) (h : t) : t :=
  match reading h !! i with
  | Some f =>
      {| uploadedImages := uploadedImages h ++ [{| data := result; file_of := f |}];
         previews := previews h ++ [result];
         reading := delete i (reading h);
         maxFileSize := maxFileSize h; allowedTypes := allowedTypes h |}
  | None => h
  end.

(** [removeImagePreview(previewItem, imageData)], called by the button
    of the [k]-th preview with the data URL that preview was made
    from. *)
Definition removeImagePreview (k : nat) (h : t) : t :=
  match previews h !! k with
  | Some imageData =>
      {| uploadedImages := filter (λ img, data img ≠ imageData) (uploadedImages h);
         previews := delete k (previews h);
         reading := reading h;
         maxFileSize := maxFileSize h; allowedTypes := allowedTypes h |}
  | None => h
  end.

(** [clearImagePreview()]. *)
Definition clearImagePreview (h : t) : t :=
  {| uploadedImages := []; previews := []; reading := reading h;
     maxFileSize := maxFileSize h; allowedTypes := allowedTypes h |}.

Definition hasImages (h : t) : bool := (0 <? length (uploadedImages h))%nat.

(** What the page does to the handler. *)
Inductive op :=
| Select (files : list file)
| Loaded (i : nat) (result : jstring)
| Remove (k : nat)
| Clear.

Definition run_op (o : op) (h : t) : t :=
  match o with
  | Select files => handleFileSelection files h
  | Loaded i result => onload i result h
  | Remove k => removeImagePreview k h
  | Clear => clearImagePreview h
  end.

Definition run_ops (ops : list op) (h : t) : t := foldl (λ h o, run_op o h) h ops.

End Upload.

(* ===================================================================== *)
(** * The request: [buildMultimodalContent], [buildMessagesFromHistory]   *)
(* ===================================================================== *)

Module Request.

(** An entry of a [content] array of the request. *)
Inductive part :=
| TextPart (text : jstring)              (* { type: 'text', text } *)
| ImageUrl (url : jstring).              (* { type: 'image_url', image_url: { url } } *)

(** The [content] of a message of the request: a string or an array. *)
Inductive content :=
| Plain (text : jstring)
| Parts (ps : list part).

Record message := {
  role : Chat.role;
  content_of : content
}.

(** An image as [buildMultimodalContent] is handed it: a string, or an
    entry of the upload list. *)
Inductive image_data :=
| Address (src : jstring)
| Uploaded (img : Upload.image).

(** [typeof imgData === 'string' ? imgData : imgData.data]. *)
Definition url_of (i : image_data) : jstring :=
  match i with
  | Address src => src
  | Uploaded img => Upload.data img
  end.

(** [APIService.buildMultimodalContent(text, images)]. *)
Definition buildMultimodalContent (text : jstring) (images : list image_data) : content :=
  match images with
  | [] => Plain text
  | _ =>
      Parts ((if bool_decide (text ≠ []) && bool_decide (trim text ≠ [])
              then [TextPart text] else [])
             ++ ((λ imgData, ImageUrl (url_of imgData)) <$> images))
  end.

(** [APIService.buildMessagesFromHistory(messageHistory)].  The log of
    [Chat] keeps of each image the string that is read from it. *)
Definition buildMessagesFromHistory (messageHistory : list Chat.message) : list message :=
  (λ msg,
     match Chat.images msg with
     | _ :: _ =>
         {| role := Chat.role_of msg;
            content_of := buildMultimodalContent (Chat.content msg)
                            (Address <$> Chat.images msg) |}
     | [] => {| role := Chat.role_of msg; content_of := Plain (Chat.content msg) |}
     end) <$> messageHistory.

(** [ImageHandler.createImageDataForAPI()]. *)
Definition createImageDataForAPI (h : Upload.t) : list part :=
  (λ img, ImageUrl (Upload.data img)) <$> Upload.uploadedImages h.

(** [ImageHandler.createMultimodalContent(text)]. *)
Definition createMultimodalContent (text : jstring) (h : Upload.t) : content :=
  if negb (Upload.hasImages h) then Plain text
  else
    Parts ((if bool_decide (text ≠ []) && bool_decide (trim text ≠ [])
            then [TextPart text] else [])
           ++ createImageDataForAPI h).

(** What a content says and shows, read back from it. *)
Definition text_of (c : content) : jstring :=
  match c with
  | Plain text => text
  | Parts ps => concat (omap (λ p, match p with TextPart t => Some t | _ => None end) ps)
  end.

Definition images_of (c : content) : list jstring :=
  match c with
  | Plain _ => []
  | Parts ps => omap (λ p, match p with ImageUrl u => Some u | _ => None end) ps
  end.

(** The [messages] that [runTextChat] and [runImageChat] build on page
    [w] (js/app.js 386, 408). *)
Definition messages_of (w : world) : list message :=
  buildMessagesFromHistory (Chat.messageHistory (chat w)).

(** The [messages] of the request [handleSendMessage] makes, if it gets
    to make one: those built once the prompt is in the log. *)
Definition sent_messages (prompt : jstring) (uploaded : list jstring) (w : world)
  : option (list message) :=
  let promptText := trim prompt in
  if bool_decide (trim (apiKey (ui w)) = []) then None
  else if bool_decide (promptText = []) && bool_decide (uploaded = []) then None
  else if bool_decide (selectedModel (ui w) = None) then None
  else
    let w := with_regen (Regen.storeLastUserMessage
               {| Regen.user_content := promptText; Regen.user_images := uploaded |}) w in
    let w := with_chat (Chat.addMessageToChat Chat.User promptText uploaded) w in
    Some (messages_of (with_chat Chat.showTypingIndicator w)).

End Request.



(* ===================================================================== *)
(** * Properties of the decoder                                           *)
(* ===================================================================== *)

Section TextFacts.

Lemma is_prefix_app p a b : is_prefix p a = true → is_prefix p (a ++ b) = true.
Proof.
  revert a; induction p as [|x p IH]; intros [|y a]; simpl; try done.
  intros [-> H]%andb_true_iff. by rewrite IH.
Qed.

Lemma is_prefix_length p a : is_prefix p a = true → (length p ≤ length a)%nat.
Proof.
  revert a; induction p as [|x p IH]; intros [|y a]; simpl; try done; try lia.
  intros [_ H]%andb_true_iff. apply IH in H. lia.
Qed.

(** A match that needs characters of [b] starts less than [length p]
    before the end of [a]. *)
Lemma is_prefix_app_late p a b :
  is_prefix p a = false → is_prefix p (a ++ b) = true → (length a < length p)%nat.
Proof.
  revert a; induction p as [|x p IH]; intros [|y a]; simpl; try done; try lia.
  intros Hf [Hxy H]%andb_true_iff. rewrite Hxy in Hf. simpl in Hf.
  specialize (IH _ Hf H). lia.
Qed.

Lemma indexOf_bound p s i : indexOf p s = Some i → (i + length p ≤ length s)%nat.
Proof.
  revert i; induction s as [|c s IH]; intros i; simpl.
  - destruct (is_prefix p []) eqn:E; [|done].
    intros [= <-]. apply is_prefix_length in E. simpl in *. lia.
  - destruct (is_prefix p (c :: s)) eqn:E.
    + intros [= <-]. apply is_prefix_length in E. simpl in *. lia.
    + destruct (indexOf p s) as [j|]; [|done]. simpl. intros [= <-].
      specialize (IH j eq_refl). lia.
Qed.

(** The leftmost occurrence is not disturbed by text arriving later. *)
Lemma indexOf_app p a b i : indexOf p a = Some i → indexOf p (a ++ b) = Some i.
Proof.
  revert i; induction a as [|c a IH]; intros i; simpl.
  - destruct (is_prefix p []) eqn:E; [|done]. intros [= <-].
    destruct p; [|done]. by destruct b.
  - destruct (is_prefix p (c :: a)) eqn:E.
    + intros [= <-]. pose proof (is_prefix_app p (c :: a) b E) as E'.
      simpl in E'. by rewrite E'.
    + destruct (indexOf p a) as [j|] eqn:Ej; [|done]. simpl. intros [= <-].
      destruct (is_prefix p (c :: a ++ b)) eqn:E'.
      * pose proof (is_prefix_app_late p (c :: a) b E E') as Hl.
        apply indexOf_bound in Ej. simpl in Hl. lia.
      * by rewrite (IH j eq_refl).
Qed.

End TextFacts.

Section DecoderFacts.

Import Utf8 TextDecoder.

Lemma utf8_run_app st a b :
  Utf8.run st (a ++ b) =
    let '(s1, o1) := Utf8.run st a in
    let '(s2, o2) := Utf8.run s1 b in (s2, o1 ++ o2).
Proof.
  revert st; induction a as [|x a IH]; intros st; simpl.
  - by destruct (Utf8.run st b).
  - destruct (Utf8.step st (to_N x)) as [s1 o1]. rewrite IH.
    destruct (Utf8.run s1 a) as [s2 o2]. destruct (Utf8.run s2 b) as [s3 o3].
    by rewrite app_assoc.
Qed.

Lemma strip_bom_app seen o1 o2 :
  strip_bom seen (o1 ++ o2) =
    let '(s1, o1') := strip_bom seen o1 in
    let '(s2, o2') := strip_bom s1 o2 in (s2, o1' ++ o2').
Proof.
  destruct seen; simpl; [done|].
  destruct o1 as [|c o1]; simpl.
  - by destruct o2.
  - by destruct (c =? BOM).
Qed.

(** The decoder carries an unfinished character and the BOM flag from
    one call to the next: decoding two chunks in turn yields the text of
    their concatenation. *)
Lemma decode_stream_app d a b :
  decode_stream d (a ++ b) =
    let '(d1, t1) := decode_stream d a in
    let '(d2, t2) := decode_stream d1 b in (d2, t1 ++ t2).
Proof.
  unfold decode_stream. rewrite utf8_run_app.
  destruct (Utf8.run (utf8 d) a) as [s1 o1].
  destruct (Utf8.run s1 b) as [s2 o2] eqn:E2.
  rewrite strip_bom_app.
  destruct (strip_bom (bom_seen d) o1) as [b1 o1']. simpl. rewrite E2.
  by destruct (strip_bom b1 o2).
Qed.

End DecoderFacts.

Section SSEFacts.

Import SSE.
Context {J : Type} (parse : jstring → option J).

Lemma drain_fuel_S n (b : jstring) :
  drain_fuel parse (S n) b =
    match indexOf frame_sep b with
    | None => ([], b, false)
    | Some idx =>
        let '(objs, done) := lines_loop parse (split_on LF (take idx b)) in
        if done then (objs, drop (idx + 2) b, true)
        else let '(objs', rest, done') := drain_fuel parse n (drop (idx + 2) b) in
             (objs ++ objs', rest, done')
    end.
Proof. reflexivity. Qed.

Lemma drain_fuel_enough n m (b : jstring) :
  (length b ≤ n)%nat → (length b ≤ m)%nat →
  drain_fuel parse n b = drain_fuel parse m b.
Proof.
  revert m b; induction n as [|n IH]; intros m b Hn Hm.
  - destruct b; [|simpl in Hn; lia]. by destruct m.
  - destruct m as [|m].
    + destruct b; [|simpl in Hm; lia]. done.
    + rewrite !drain_fuel_S.
      destruct (indexOf frame_sep b) as [idx|] eqn:E; [|done].
      apply indexOf_bound in E. cbn [length frame_sep] in E.
      rewrite (IH m (drop (idx + 2) b)); [done| |]; rewrite length_drop; lia.
Qed.

(** The loop, one turn unfolded. *)
Lemma drain_unfold (b : jstring) :
  drain parse b =
    match indexOf frame_sep b with
    | None => ([], b, false)
    | Some idx =>
        let '(objs, done) := lines_loop parse (split_on LF (take idx b)) in
        if done then (objs, drop (idx + 2) b, true)
        else let '(objs', rest, done') := drain parse (drop (idx + 2) b) in
             (objs ++ objs', rest, done')
    end.
Proof.
  unfold drain. destruct b as [|c b]; [done|].
  change (length (c :: b)) with (S (length b)). rewrite drain_fuel_S.
  destruct (indexOf frame_sep (c :: b)) as [idx|] eqn:E; [|done].
  apply indexOf_bound in E. cbn [length frame_sep] in E.
  rewrite (drain_fuel_enough (length b) (length (drop (idx + 2) (c :: b)))); [done| |lia].
  rewrite length_drop. cbn [length]. lia.
Qed.

(** Frames found in [x] are found again, with the same content, when
    more text [y] follows; scanning then goes on in what [x] left over. *)
Lemma drain_app (x y : jstring) :
  drain parse (x ++ y) =
    let '(o1, r1, d1) := drain parse x in
    if d1 then (o1, r1 ++ y, true)
    else let '(o2, r2, d2) := drain parse (r1 ++ y) in (o1 ++ o2, r2, d2).
Proof.
  remember (length x) as n eqn:Hn. revert x Hn.
  induction (lt_wf n) as [n _ IH]; intros x ->.
  rewrite (drain_unfold x).
  destruct (indexOf frame_sep x) as [idx|] eqn:E.
  - rewrite (drain_unfold (x ++ y)), (indexOf_app _ _ y _ E).
    pose proof (indexOf_bound _ _ _ E) as Hb. simpl in Hb.
    rewrite take_app_le by lia. rewrite drop_app_le by lia.
    destruct (lines_loop parse (split_on LF (take idx x))) as [objs [|]]; [done|].
    rewrite (IH (length (drop (idx + 2) x))); [|rewrite length_drop; lia|done].
    destruct (drain parse (drop (idx + 2) x)) as [[o1 r1] [|]]; [done|].
    destruct (drain parse (r1 ++ y)) as [[o2 r2] d2]. by rewrite app_assoc.
  - simpl. by destruct (drain parse (x ++ y)) as [[o2 r2] d2].
Qed.

(** Two reads deliver what one read of the joined bytes delivers. *)
Lemma pump_merge st a b rest :
  pump parse st (ReadChunk a :: ReadChunk b :: rest) =
  pump parse st (ReadChunk (a ++ b) :: rest).
Proof.
  simpl. rewrite decode_stream_app.
  destruct (TextDecoder.decode_stream (decoder st) a) as [d1 t1].
  destruct (TextDecoder.decode_stream d1 b) as [d2 t2].
  rewrite (app_assoc (buffer st) t1 t2), (drain_app (buffer st ++ t1) t2).
  destruct (drain parse (buffer st ++ t1)) as [[o1 r1] [|]]; [done|].
  simpl. destruct (drain parse (r1 ++ t2)) as [[o2 r2] [|]];
    by rewrite fmap_app, <- app_assoc.
Qed.

Lemma pump_chunks st c cs rest :
  pump parse st ((ReadChunk <$> (c :: cs)) ++ rest) =
  pump parse st (ReadChunk (concat (c :: cs)) :: rest).
Proof.
  revert c; induction cs as [|c' cs IH]; intros c.
  - simpl concat. by rewrite app_nil_r.
  - change ((ReadChunk <$> c :: c' :: cs) ++ rest)
      with (ReadChunk c :: ReadChunk c' :: ((ReadChunk <$> cs) ++ rest)).
    rewrite pump_merge.
    change (ReadChunk (c ++ c') :: (ReadChunk <$> cs) ++ rest)
      with ((ReadChunk <$> (c ++ c') :: cs) ++ rest).
    rewrite IH. simpl concat. by rewrite app_assoc.
Qed.

(** C2. However the bytes of a response body are cut into chunks
    (between frames, inside the blank-line separator, or inside a
    multi-byte character), [readSSE] makes the same calls to [onChunk],
    in the same order and followed by the same completion, as when the
    joined bytes arrive in one chunk. *)
Theorem readSSE_chunking_invariant (chunks : list (list byte)) (rest : list read_step) :
  readSSE_stream parse ((ReadChunk <$> chunks) ++ rest) =
  readSSE_stream parse (ReadChunk (concat chunks) :: rest).
Proof.
  unfold readSSE_stream. destruct chunks as [|c cs].
  - done.
  - apply pump_chunks.
Qed.

End SSEFacts.

(* ===================================================================== *)
(** * Stream sessions                                                     *)
(* ===================================================================== *)

Section SessionFacts.

Import Session.

Lemma abortActive_state reason throwError s :
  (abortActive reason throwError s).1 =
    {| currentController := None; streamingActive := false;
       trace := trace s ++ abort_calls s; created := created s; timers := timers s |}.
Proof.
  unfold abortActive, abort_calls. destruct (currentController s); cbn.
  - done.
  - by rewrite app_nil_r.
Qed.

Lemma beginStream_state s :
  beginStream s =
    {| currentController := Some (created s); streamingActive := true;
       trace := trace s ++ abort_calls s ++ [New (created s)];
       created := S (created s); timers := timers s ++ [created s] |}.
Proof. unfold beginStream. rewrite abortActive_state. cbn. by rewrite <- app_assoc. Qed.

Lemma fire_timer_state i s :
  fire_timer i s =
    match timers s !! i with
    | Some _ =>
        {| currentController := None; streamingActive := false;
           trace := trace s ++ abort_calls s; created := created s;
           timers := delete i (timers s) |}
    | None => s
    end.
Proof. unfold fire_timer. destruct (timers s !! i); [|done]. by rewrite abortActive_state. Qed.

Lemma abort_count_app c s tl :
  length (filter (λ e, e = Abort c) (trace s ++ tl)) =
    (abort_count c s + length (filter (λ e, e = Abort c) tl))%nat.
Proof. unfold abort_count. by rewrite filter_app, length_app. Qed.

Lemma abort_count_zero c s : Abort c ∉ trace s ↔ abort_count c s = 0%nat.
Proof.
  unfold abort_count. split.
  - intros H. destruct (filter _ _) as [|e l] eqn:E; [done|].
    assert (e ∈ filter (λ e, e = Abort c) (trace s)) as Hin by (rewrite E; left).
    apply list_elem_of_filter in Hin as [-> Hin]. done.
  - intros H Hin. apply length_zero_iff_nil in H.
    assert (Abort c ∈ filter (λ e, e = Abort c) (trace s)) as Hin'
      by (by apply list_elem_of_filter).
    rewrite H in Hin'. by apply not_elem_of_nil in Hin'.
Qed.

Lemma consistent_init : consistent init.
Proof. split; intros c; simpl; [done|]. intros _. split; apply not_elem_of_nil. Qed.

(** [abortActive] only ever aborts the current controller. *)
Lemma abort_calls_spec s e :
  e ∈ abort_calls s → ∃ c, e = Abort c ∧ currentController s = Some c.
Proof.
  unfold abort_calls. destruct (currentController s) as [c|].
  - intros ->%list_elem_of_singleton. by exists c.
  - by intros ?%not_elem_of_nil.
Qed.

Lemma consistent_extend s s' tl :
  consistent s →
  trace s' = trace s ++ tl →
  created s' = created s →
  currentController s' = None ∨ currentController s' = currentController s →
  (∀ e, e ∈ tl → (∃ c, e = Abort c ∧ currentController s = Some c
                       ∧ currentController s' = None)
                 ∨ (∃ c, e = Fetch c ∧ (c = None ∨ c = currentController s))) →
  consistent s'.
Proof.
  intros [Hc Hf] Htr Hcr Hcur Htl. split.
  - intros c Hc'. destruct Hcur as [Hcur|Hcur]; [congruence|].
    rewrite Hcur in Hc'. destruct (Hc c Hc') as [Hlt Ha]. rewrite Hcr. split; [done|].
    rewrite Htr. intros [Hin|Hin]%elem_of_app; [done|].
    destruct (Htl _ Hin) as [(c0 & ? & _ & ?)|(c0 & ? & _)]; congruence.
  - intros c Hc'. rewrite Hcr in Hc'. destruct (Hf c Hc') as [Ha Hb].
    rewrite Htr. split; intros [Hin|Hin]%elem_of_app; try done.
    + destruct (Htl _ Hin) as [(c0 & [= <-] & Hs & _)|(c0 & ? & _)]; [|done].
      destruct (Hc c Hs). lia.
    + destruct (Htl _ Hin) as [(c0 & ? & _)|(c0 & [= <-] & [?|Hs])]; try done.
      symmetry in Hs. destruct (Hc c Hs). lia.
Qed.

Lemma consistent_abortActive reason throwError s :
  consistent s → consistent (abortActive reason throwError s).1.
Proof.
  intros H. rewrite abortActive_state.
  apply (consistent_extend s _ (abort_calls s) H); cbn; try done; [by left|].
  intros e (c & -> & Hc)%abort_calls_spec. left. by exists c.
Qed.

Lemma consistent_beginStream s : consistent s → consistent (beginStream s).
Proof.
  intros H. apply (consistent_abortActive None false) in H as [_ Hf].
  rewrite abortActive_state in Hf. cbn in Hf.
  rewrite beginStream_state. split; cbn.
  - intros c [= <-]. split; [lia|]. destruct (Hf (created s)) as [Ha _]; [lia|].
    rewrite app_assoc. intros [Hin|Hin%list_elem_of_singleton]%elem_of_app; done.
  - intros c Hc'. destruct (Hf c) as [Ha Hb]; [lia|]. rewrite app_assoc.
    split; intros [Hin|Hin%list_elem_of_singleton]%elem_of_app; done.
Qed.

Lemma consistent_run_op o s : consistent s → consistent (run_op o s).
Proof.
  intros H. destruct o as [|reason throwError| |streaming|i]; cbn [run_op].
  - by apply consistent_beginStream.
  - by apply consistent_abortActive.
  - apply (consistent_extend s _ [] H); cbn; try done.
    + by rewrite app_nil_r.
    + by left.
    + by intros e ?%not_elem_of_nil.
  - apply (consistent_extend s _ [Fetch (if streaming then currentController s else None)] H);
      cbn; try done; [by right|].
    intros e ->%list_elem_of_singleton. right. eexists. split; [done|].
    destruct streaming; [by right|by left].
  - rewrite fire_timer_state. destruct (timers s !! i); [|done].
    apply (consistent_extend s _ (abort_calls s) H); cbn; try done; [by left|].
    intros e (c & -> & Hc)%abort_calls_spec. left. by exists c.
Qed.

(** Every state the operations lead to from a consistent one (the
    initial one, say) is consistent. *)
Lemma consistent_run_ops ops s : consistent s → consistent (run_ops ops s).
Proof.
  revert s; induction ops as [|o ops IH]; intros s H; [done|].
  apply IH. by apply consistent_run_op.
Qed.

(** A controller that is no longer the current one is not aborted by
    anything that follows; the trace only grows. *)
Lemma run_op_dropped c o s :
  currentController s ≠ Some c → (c < created s)%nat →
  currentController (run_op o s) ≠ Some c
  ∧ (c < created (run_op o s))%nat
  ∧ abort_count c (run_op o s) = abort_count c s.
Proof.
  intros Hne Hlt.
  assert (length (filter (λ e, e = Abort c) (abort_calls s)) = 0%nat) as Hz.
  { unfold abort_calls. destruct (currentController s) as [c0|]; [|done].
    rewrite filter_cons, filter_nil.
    destruct (decide (Abort c0 = Abort c)) as [[= ->]|]; done. }
  destruct o as [|reason throwError| |streaming|i]; cbn [run_op].
  - rewrite beginStream_state. unfold abort_count. cbn.
    split; [intros [= ?]; lia|]. split; [lia|].
    rewrite abort_count_app, filter_app, length_app, Hz.
    rewrite filter_cons, filter_nil.
    destruct (decide (New (created s) = Abort c)); [done|].
    unfold abort_count. cbn. lia.
  - rewrite abortActive_state. unfold abort_count. cbn.
    split; [done|]. split; [done|]. rewrite abort_count_app, Hz.
    unfold abort_count. lia.
  - done.
  - unfold abort_count, fetch, record. cbn. split; [done|]. split; [done|].
    rewrite abort_count_app, filter_cons, filter_nil.
    destruct (decide (_ = Abort c)); [done|]. unfold abort_count. cbn. lia.
  - rewrite fire_timer_state. destruct (timers s !! i); [|done].
    unfold abort_count. cbn. split; [done|]. split; [done|].
    rewrite abort_count_app, Hz. unfold abort_count. lia.
Qed.

Lemma run_ops_dropped c ops s :
  currentController s ≠ Some c → (c < created s)%nat →
  abort_count c (run_ops ops s) = abort_count c s.
Proof.
  revert s; induction ops as [|o ops IH]; intros s Hne Hlt; [done|].
  destruct (run_op_dropped c o s Hne Hlt) as (H1 & H2 & H3).
  cbn [run_ops foldl]. unfold run_ops in IH. by rewrite IH.
Qed.

Lemma trace_run_op o s : ∃ tl, trace (run_op o s) = trace s ++ tl.
Proof.
  destruct o as [|reason throwError| |streaming|i]; cbn [run_op].
  - rewrite beginStream_state. by eexists.
  - rewrite abortActive_state. by eexists.
  - exists []. by rewrite app_nil_r.
  - by eexists.
  - rewrite fire_timer_state. destruct (timers s !! i); [by eexists|].
    exists []. by rewrite app_nil_r.
Qed.

Lemma trace_run_ops ops s : ∃ tl, trace (run_ops ops s) = trace s ++ tl.
Proof.
  revert s; induction ops as [|o ops IH]; intros s.
  - exists []. by rewrite app_nil_r.
  - destruct (trace_run_op o s) as [t1 H1].
    destruct (IH (run_op o s)) as [t2 H2].
    exists (t1 ++ t2). cbn [run_ops foldl]. unfold run_ops in H2.
    by rewrite H2, H1, app_assoc.
Qed.

(** C6. When [beginStream] is called while a controller is current,
    [abort()] is called on that controller, once, before the new
    controller is made; no later operation aborts it again; and every
    request that carries the new controller's signal (the only way a
    response of the new session comes to exist) is issued after that
    abort. *)
Theorem beginStream_aborts_the_old_session_once (s : Session.t) (old : nat) :
  consistent s →
  currentController s = Some old →
  ∃ new,
    new ≠ old
    ∧ currentController (beginStream s) = Some new
    ∧ trace (beginStream s) = trace s ++ [Abort old; New new]
    ∧ (∀ ops, abort_count old (run_ops ops (beginStream s)) = 1%nat)
    ∧ (∀ ops pre post,
         trace (run_ops ops (beginStream s)) = pre ++ Fetch (Some new) :: post →
         Abort old ∈ pre).
Proof.
  intros [Hc Hf] Hold. destruct (Hc old Hold) as [Hlt Hna].
  exists (created s). rewrite beginStream_state. unfold abort_calls. rewrite Hold.
  set (s' := Build_t _ _ _ _ _).
  split; [lia|]. split; [done|]. split; [done|]. split.
  - intros ops. rewrite run_ops_dropped.
    + unfold abort_count, s'. cbn [trace]. rewrite abort_count_app.
      apply abort_count_zero in Hna. rewrite Hna. cbn [app].
      rewrite !filter_cons, filter_nil.
      destruct (decide (Abort old = Abort old)); [|done].
      by destruct (decide (New (created s) = Abort old)).
    + cbn. intros [= ?]. lia.
    + cbn. lia.
  - intros ops pre post Heq.
    destruct (trace_run_ops ops s') as [tl Htl].
    rewrite Htl in Heq. cbn [s' trace app] in Heq. clear Htl.
    destruct (Hf (created s)) as [_ Hnf]; [lia|].
    set (t0 := trace s ++ [Abort old; New (created s)]) in *.
    assert (Fetch (Some (created s)) ∉ t0) as Hn0.
    { unfold t0. intros [Hin|Hin]%elem_of_app; [done|].
      apply elem_of_cons in Hin as [?|Hin]; [done|].
      by apply list_elem_of_singleton in Hin. }
    assert (length t0 ≤ length pre)%nat as Hlen.
    { destruct (decide (length t0 ≤ length pre)%nat) as [|Hgt]; [done|exfalso].
      apply Hn0. apply (list_elem_of_lookup_2 _ (length pre)).
      rewrite <- (lookup_app_l _ tl) by lia. rewrite Heq.
      by rewrite list_lookup_middle. }
    assert (take (length t0) pre = t0) as Htk.
    { apply (f_equal (take (length t0))) in Heq.
      rewrite take_app_length in Heq. by rewrite take_app_le in Heq. }
    rewrite <- (take_drop (length t0) pre), Htk.
    apply elem_of_app. left. apply elem_of_app. right. left.
Qed.

End SessionFacts.

Section LegacySessionFacts.

Import Legacy.

Lemma tidy_init : tidy session_init.
Proof. by intros t ?%not_elem_of_nil. Qed.

Lemma cleanup_pending s : tidy s → pending (cleanupStreamState s) = [].
Proof.
  intros H. unfold cleanupStreamState, clearTimeout. cbn.
  destruct (timeoutHandle s) as [h|] eqn:E.
  - apply elem_of_nil_inv. intros t [Hne Hin]%list_elem_of_filter.
    specialize (H t Hin). congruence.
  - apply elem_of_nil_inv. intros t Hin. specialize (H t Hin). congruence.
Qed.

Lemma tidy_cleanup s : tidy s → tidy (cleanupStreamState s).
Proof. intros H t. rewrite (cleanup_pending s H). by intros ?%not_elem_of_nil. Qed.

Lemma tidy_abortActive reason p :
  tidy (stream_state p) → tidy (stream_state (abortActive reason p)).
Proof. intros H. unfold abortActive. cbn [stream_state]. by apply tidy_cleanup. Qed.

Lemma tidy_beginStream p : tidy (stream_state p) → tidy (stream_state (beginStream p)).
Proof.
  intros H. pose proof (cleanup_pending _ H) as Hp.
  unfold beginStream, abortActive, tidy. cbn.
  unfold cleanupStreamState in Hp. cbn in Hp. rewrite Hp.
  intros t ->%list_elem_of_singleton. done.
Qed.

Lemma tidy_fire_timer h p : tidy (stream_state p) → tidy (stream_state (fire_timer h p)).
Proof.
  intros H. unfold fire_timer. case_bool_decide; [|done].
  apply tidy_abortActive. cbn. intros t [_ Hin]%list_elem_of_filter. by apply H.
Qed.

End LegacySessionFacts.

Section TimeoutFacts.

Import App.

(** What the completion callbacks store, whatever they are called
    with. *)
Lemma onDone_text_history err w a :
  Regen.regenerationHistory (regen (Text.onDone err (w, a)).1) =
    Regen.regenerationHistory (regen w)
    ++ [{| Regen.content := assistantContent a; Regen.images := assistantImages a |}].
Proof. unfold Text.onDone. cbn. by destruct (_ && _). Qed.

Lemma onDone_image_history err w a :
  Regen.regenerationHistory (regen (Image.onDone err (w, a)).1) =
    Regen.regenerationHistory (regen w)
    ++ [{| Regen.content :=
             or_else (assistantContent a) (generated (length (assistantImages a)));
           Regen.images := assistantImages a |}].
Proof. unfold Image.onDone. cbn. by destruct (_ && _). Qed.

End TimeoutFacts.

(* ===================================================================== *)
(** * The regeneration store                                              *)
(* ===================================================================== *)

Section NavigationFacts.

Lemma regen_updateChatHistory w :
  regen (updateChatHistoryWithCurrentResponse w) = regen w.
Proof. unfold updateChatHistoryWithCurrentResponse. by destruct (Regen.getCurrentResponse _). Qed.

Lemma regen_displayCurrentResponse w : regen (displayCurrentResponse w) = regen w.
Proof.
  unfold displayCurrentResponse. destruct (Regen.getCurrentResponse _); [|done].
  by rewrite regen_updateChatHistory.
Qed.

Lemma regen_showPreviousResponse w :
  regen (showPreviousResponse w) =
    if Regen.canGoToPrevious (regen w)
    then Regen.with_index (Regen.currentResponseIndex (regen w) - 1) (regen w)
    else regen w.
Proof.
  unfold showPreviousResponse. destruct (Regen.canGoToPrevious _); [|done].
  by rewrite regen_displayCurrentResponse.
Qed.

Lemma regen_showNextResponse w :
  regen (showNextResponse w) =
    if Regen.canGoToNext (regen w)
    then Regen.with_index (Regen.currentResponseIndex (regen w) + 1) (regen w)
    else regen w.
Proof.
  unfold showNextResponse. destruct (Regen.canGoToNext _); [|done].
  by rewrite regen_displayCurrentResponse.
Qed.

Lemma cursor_ok_nonempty r :
  Regen.regenerationHistory r ≠ [] → Regen.cursor_ok r →
  (0 ≤ Regen.currentResponseIndex r < Z.of_nat (length (Regen.regenerationHistory r)))%Z.
Proof. unfold Regen.cursor_ok. by destruct (Regen.regenerationHistory r). Qed.

Lemma cursor_ok_bounds r :
  (0 ≤ Regen.currentResponseIndex r < Z.of_nat (length (Regen.regenerationHistory r)))%Z →
  Regen.cursor_ok r.
Proof.
  unfold Regen.cursor_ok. destruct (Regen.regenerationHistory r); [|done].
  cbn. lia.
Qed.

Lemma cursor_ok_add text imgs r : Regen.cursor_ok (Regen.addResponseToHistory text imgs r).
Proof.
  apply cursor_ok_bounds. unfold Regen.addResponseToHistory. cbn.
  rewrite length_app. cbn. lia.
Qed.

Lemma cursor_ok_showPrevious w :
  Regen.cursor_ok (regen w) → Regen.cursor_ok (regen (showPreviousResponse w)).
Proof.
  intros H. rewrite regen_showPreviousResponse.
  destruct (Regen.canGoToPrevious (regen w)) eqn:E; [|done].
  unfold Regen.canGoToPrevious in E. apply Z.ltb_lt in E.
  destruct (Regen.regenerationHistory (regen w)) as [|v h] eqn:Eh.
  - unfold Regen.cursor_ok in H. rewrite Eh in H. lia.
  - pose proof (cursor_ok_nonempty (regen w)) as Hb. rewrite Eh in Hb.
    specialize (Hb ltac:(done) H).
    apply cursor_ok_bounds. cbn. rewrite Eh. lia.
Qed.

Lemma cursor_ok_showNext w :
  Regen.cursor_ok (regen w) → Regen.cursor_ok (regen (showNextResponse w)).
Proof.
  intros H. rewrite regen_showNextResponse.
  destruct (Regen.canGoToNext (regen w)) eqn:E; [|done].
  unfold Regen.canGoToNext in E. apply Z.ltb_lt in E.
  destruct (Regen.regenerationHistory (regen w)) as [|v h] eqn:Eh.
  - unfold Regen.cursor_ok in H. rewrite Eh in H. cbn in E. lia.
  - pose proof (cursor_ok_nonempty (regen w)) as Hb. rewrite Eh in Hb.
    specialize (Hb ltac:(done) H).
    apply cursor_ok_bounds. cbn. rewrite Eh. lia.
Qed.

(** C8. In a slot that holds [len] versions, with its cursor on one of
    them, [showPreviousResponse] and [showNextResponse] keep the cursor
    within [0, len-1] and never touch the list of versions; called at
    the first, respectively the last, version (so both of them in a
    slot with a single version) they change nothing at all: cursor,
    versions, conversation log and rendered messages stay as they
    are. *)
Theorem navigation_stays_in_bounds (w : world) :
  Regen.regenerationHistory (regen w) ≠ [] →
  Regen.cursor_ok (regen w) →
  let len := Z.of_nat (length (Regen.regenerationHistory (regen w))) in
  (∀ w', w' = showPreviousResponse w ∨ w' = showNextResponse w →
     (0 ≤ Regen.currentResponseIndex (regen w') < len)%Z
     ∧ Regen.regenerationHistory (regen w') = Regen.regenerationHistory (regen w))
  ∧ (Regen.currentResponseIndex (regen w) = 0%Z → showPreviousResponse w = w)
  ∧ (Regen.currentResponseIndex (regen w) = (len - 1)%Z → showNextResponse w = w)
  ∧ (len = 1%Z → showPreviousResponse w = w ∧ showNextResponse w = w).
Proof.
  intros Hne Hok len. pose proof (cursor_ok_nonempty _ Hne Hok) as Hb. fold len in Hb.
  assert (Regen.currentResponseIndex (regen w) = 0%Z → showPreviousResponse w = w) as Hp.
  { intros H0. unfold showPreviousResponse, Regen.canGoToPrevious. by rewrite H0. }
  assert (Regen.currentResponseIndex (regen w) = (len - 1)%Z → showNextResponse w = w) as Hn.
  { intros H0. unfold showNextResponse, Regen.canGoToNext. fold len. rewrite H0.
    by rewrite Z.ltb_irrefl. }
  split; [|split; [done|split; [done|]]].
  - intros w' [->| ->].
    + rewrite regen_showPreviousResponse.
      destruct (Regen.canGoToPrevious (regen w)) eqn:E; [|done].
      unfold Regen.canGoToPrevious in E. apply Z.ltb_lt in E. cbn. split; [lia|done].
    + rewrite regen_showNextResponse.
      destruct (Regen.canGoToNext (regen w)) eqn:E; [|done].
      unfold Regen.canGoToNext in E. apply Z.ltb_lt in E. fold len in E.
      cbn. split; [lia|done].
  - intros H1. split; [apply Hp|apply Hn]; lia.
Qed.

End NavigationFacts.

(* ===================================================================== *)
(** * One run of the pipeline stores one version                          *)
(* ===================================================================== *)

Section PipelineFacts.

Import App.
Variable parse : jstring → option Wire.payload.

Lemma foldl_preserves {A B C} (f : A → B → A) (g : A → C) :
  (∀ a b, g (f a b) = g a) → ∀ l a, g (foldl f a l) = g a.
Proof.
  intros H l. induction l as [|b l IH]; intros a; [done|].
  cbn. by rewrite IH, H.
Qed.

Lemma rest_ensure_div s : rest_of (ensure_div s) = rest_of s.
Proof. unfold ensure_div. by destruct (assistantMessageDiv s.2). Qed.

Lemma rest_append_text t s : rest_of (append_text t s) = rest_of s.
Proof. unfold append_text. cbn. unfold ensure_div. cbn. by destruct (assistantMessageDiv s.2). Qed.

Lemma rest_push_image u s : rest_of (push_image u s) = rest_of s.
Proof. done. Qed.

Lemma rest_content_part s p : rest_of (content_part s p) = rest_of s.
Proof.
  unfold content_part. destruct p as [p|]; [|done].
  destruct (_ && _); destruct (_ && _);
    by rewrite ?rest_push_image, ?rest_append_text.
Qed.

Lemma rest_content_parts d s : rest_of (content_parts d s) = rest_of s.
Proof.
  unfold content_parts. destruct d as [d|]; [|done].
  destruct (Wire.content_of d); try done.
  apply (foldl_preserves content_part rest_of). apply rest_content_part.
Qed.

Lemma rest_text_onChunk c s : rest_of (Text.onChunk c s).1 = rest_of s.
Proof.
  unfold Text.onChunk. destruct c as [[| |choices]|[| |choices]]; try done.
  cbn [fst]. rewrite rest_content_parts.
  destruct choices as [|[choice|] ?]; try done.
  destruct (Wire.delta choice) as [d|]; [|done].
  destruct (Wire.content_of d); try done. apply rest_append_text.
Qed.

Lemma rest_delta_image s i : rest_of (Image.delta_image s i) = rest_of s.
Proof.
  unfold Image.delta_image. destruct i as [i|]; [|done].
  destruct (_ && _); [|done]. by rewrite rest_ensure_div.
Qed.

Lemma rest_choice_step c s : rest_of (Image.choice_step c s) = rest_of s.
Proof.
  unfold Image.choice_step. rewrite rest_content_parts.
  destruct (Wire.delta c); [|done].
  apply (foldl_preserves Image.delta_image rest_of). apply rest_delta_image.
Qed.

Lemma rest_choices_loop cs s : rest_of (Image.choices_loop cs s).1 = rest_of s.
Proof.
  revert s; induction cs as [|[c|] cs IH]; intros s; try done.
  cbn. by rewrite IH, rest_choice_step.
Qed.

Lemma rest_image_onChunk c s : rest_of (Image.onChunk c s).1 = rest_of s.
Proof.
  unfold Image.onChunk. destruct c as [[| |choices]|[| |choices]]; try done.
  - by destruct (Image.total_images choices []).
  - apply rest_choices_loop.
Qed.

(** A body that ends (both kinds of end count) makes [readSSE] call
    [onChunk] some number of times and then [onDone] exactly once. *)
Lemma pump_shape st (chunks : list (list byte)) (ending : SSE.read_step) :
  (∀ v, ending ≠ SSE.ReadChunk v) →
  ∃ objs err,
    SSE.pump parse st ((SSE.ReadChunk <$> chunks) ++ [ending]) =
      (SSE.OnChunk <$> objs) ++ [SSE.OnDone err].
Proof.
  intros Hend. revert st; induction chunks as [|c cs IH]; intros st.
  - destruct ending as [v| |err]; [by destruct (Hend v)| |].
    + by exists [], None.
    + by exists [], (Some err).
  - cbn. destruct (TextDecoder.decode_stream _ c) as [dec txt].
    destruct (SSE.drain parse _) as [[objs rest] [|]].
    + by exists objs, None.
    + destruct (IH {| SSE.decoder := dec; SSE.buffer := rest |}) as (objs' & err & ->).
      exists (objs ++ objs'), err. by rewrite fmap_app, app_assoc.
Qed.

Lemma reads_shape st (r : Net.response) :
  ∃ objs err,
    SSE.pump parse st (Net.reads r) = (SSE.OnChunk <$> objs) ++ [SSE.OnDone err].
Proof.
  unfold Net.reads. apply pump_shape; by destruct (Net.ending r).
Qed.

Section Callbacks.
Variable onChunk : chunk → state → state * option Thrown.t.
Variable onDone : option Thrown.t → state → state.
Hypothesis chunk_rest : ∀ c s, rest_of (onChunk c s).1 = rest_of s.
Hypothesis done_pushed : ∀ err s, pushed (regen s.1) (regen (onDone err s).1).
Hypothesis done_api : ∀ err s, api (onDone err s).1 = api s.1.
Hypothesis done_ui : ∀ err s, ui (onDone err s).1 = ui s.1.

Lemma deliver_chunks objs s :
  rest_of (foldl (λ s cb, match cb with
                          | SSE.OnChunk obj => (onChunk (Data obj) s).1
                          | SSE.OnDone err => onDone err s
                          end) s (SSE.OnChunk <$> objs)) = rest_of s.
Proof.
  revert s; induction objs as [|o objs IH]; intros s; [done|].
  cbn. by rewrite IH, chunk_rest.
Qed.

(** [readSSE] either rejects, having stored nothing, or resolves,
    having stored one version; the stream state and the controls are
    as before either way. *)
Lemma readSSE_outcome r s :
  let '(s', thrown) := readSSE parse r onChunk onDone s in
  api s'.1 = api s.1 ∧ ui s'.1 = ui s.1
  ∧ match thrown with
    | Some _ => regen s'.1 = regen s.1
    | None => pushed (regen s.1) (regen s'.1)
    end.
Proof.
  unfold readSSE. destruct (Net.ok r); cbn [negb].
  2:{ by destruct (Net.text r). }
  case_bool_decide.
  - destruct (parseJsonOrThrow parse r) as [json|err]; [|done].
    pose proof (chunk_rest (Fallback json) s) as Hc.
    destruct (onChunk (Fallback json) s) as [s1 [err|]]; cbn [fst] in Hc.
    + unfold rest_of in Hc. by injection Hc as -> -> ->.
    + unfold rest_of in Hc. injection Hc as <- <- <-.
      by rewrite done_api, done_ui.
  - unfold SSE.readSSE_stream.
    destruct (reads_shape SSE.pump_init r) as (objs & err & ->).
    rewrite foldl_app. cbn [foldl].
    pose proof (deliver_chunks objs s) as Hc.
    set (s1 := foldl _ s (SSE.OnChunk <$> objs)) in *.
    unfold rest_of in Hc. injection Hc as <- <- <-.
    by rewrite done_api, done_ui.
Qed.

Lemma streaming_outcome w net :
  let '(w', thrown) := streaming parse onChunk onDone w net in
  api w' = Session.fetch true (Session.beginStream (api w)) ∧ ui w' = ui w
  ∧ match thrown with
    | Some _ => regen w' = regen w
    | None => pushed (regen w) (regen w')
    end.
Proof.
  unfold streaming. destruct net as [err|r]; [done|].
  pose proof (readSSE_outcome r
    (with_api (Session.fetch true) (with_api Session.beginStream w), acc_init)) as H.
  destruct (readSSE parse r onChunk onDone _) as [s' thrown]. done.
Qed.

End Callbacks.

Lemma text_done_pushed err s : pushed (regen s.1) (regen (Text.onDone err s).1).
Proof.
  destruct s as [w a]. exists (assistantContent a), (assistantImages a).
  unfold Text.onDone. cbn. by destruct (_ && _).
Qed.

Lemma image_done_pushed err s : pushed (regen s.1) (regen (Image.onDone err s).1).
Proof.
  destruct s as [w a]. eexists _, (assistantImages a).
  unfold Image.onDone. cbn. by destruct (_ && _).
Qed.

Lemma handleStreamingResponse_outcome w net :
  let '(w', thrown) := handleStreamingResponse parse w net in
  api w' = Session.fetch true (Session.beginStream (api w)) ∧ ui w' = ui w
  ∧ match thrown with
    | Some _ => regen w' = regen w
    | None => pushed (regen w) (regen w')
    end.
Proof.
  apply streaming_outcome.
  - apply rest_text_onChunk.
  - apply text_done_pushed.
  - intros err [w0 a]. unfold Text.onDone. cbn. by destruct (_ && _).
  - intros err [w0 a]. unfold Text.onDone. cbn. by destruct (_ && _).
Qed.

Lemma handleStreamingImageResponse_outcome w net :
  let '(w', thrown) := handleStreamingImageResponse parse w net in
  api w' = Session.fetch true (Session.beginStream (api w)) ∧ ui w' = ui w
  ∧ match thrown with
    | Some _ => regen w' = regen w
    | None => pushed (regen w) (regen w')
    end.
Proof.
  apply streaming_outcome.
  - apply rest_image_onChunk.
  - apply image_done_pushed.
  - intros err [w0 a]. unfold Image.onDone. cbn. by destruct (_ && _).
  - intros err [w0 a]. unfold Image.onDone. cbn. by destruct (_ && _).
Qed.

Lemma handleNonStreamingResponse_outcome w net :
  let '(w', thrown) := handleNonStreamingResponse parse w net in
  api w' = Session.fetch false (api w) ∧ ui w' = ui w
  ∧ match thrown with
    | Some _ => regen w' = regen w
    | None => pushed (regen w) (regen w')
    end.
Proof.
  unfold handleNonStreamingResponse, fetch_json.
  destruct net as [err|r]; [done|].
  destruct (parseJsonOrThrow parse r) as [[| |choices]|err]; try done.
  - split; [done|]. split; [done|]. by eexists _, _.
  - split; [done|]. split; [done|]. by eexists _, _.
Qed.

Lemma handleNonStreamingImageResponse_outcome w net :
  let '(w', thrown) := handleNonStreamingImageResponse parse w net in
  api w' = Session.fetch false (api w) ∧ ui w' = ui w
  ∧ match thrown with
    | Some _ => regen w' = regen w
    | None => pushed (regen w) (regen w')
    end.
Proof.
  unfold handleNonStreamingImageResponse, fetch_json.
  destruct net as [err|r]; [done|].
  destruct (parseJsonOrThrow parse r) as [[| |choices]|err]; try done.
  - split; [done|]. split; [done|]. by eexists _, _.
  - destruct (Image.total_images choices []); [|done].
    split; [done|]. split; [done|]. by eexists _, _.
Qed.

(** Each run of the pipeline, whatever the mode, the transport and the
    answer, stores exactly one version: the answer, or the error the
    run ended with. *)
Lemma run_chat_pushed w net :
  pushed (regen w) (regen (run_chat parse w net))
  ∧ ui (run_chat parse w net) = ui w
  ∧ ∃ ops, api (run_chat parse w net) = Session.run_ops ops (api w).
Proof.
  unfold run_chat, runTextChat, runImageChat, finally.
  set (w1 := with_chat (Chat.setStreamingState true) w).
  set (tidy := with_chat (λ c, Chat.hideTypingIndicator (Chat.setStreamingState false c))).
  assert (∀ (r : world * option Thrown.t) ops,
            api r.1 = Session.run_ops ops (api w) →
            ui r.1 = ui w →
            match r.2 with
            | Some _ => regen r.1 = regen w
            | None => pushed (regen w) (regen r.1)
            end →
            let w' := match r.2 with
                      | Some err => handleError err (tidy r.1)
                      | None => tidy r.1
                      end in
            pushed (regen w) (regen w') ∧ ui w' = ui w
            ∧ ∃ ops, api w' = Session.run_ops ops (api w)) as Hfin.
  { intros [w' [err|]] ops Ha Hu Hr; cbn in *.
    - split; [rewrite Hr; by eexists _, _|]. split; [done|].
      exists (ops ++ [Session.CleanupStreamState]).
      unfold Session.run_ops in *. by rewrite foldl_app, <- Ha.
    - split; [done|]. split; [done|]. by exists ops. }
  case_bool_decide; destruct (stream (ui w)).
  - pose proof (handleStreamingResponse_outcome w1 net) as Ho.
    destruct (handleStreamingResponse parse w1 net) as [w' thrown].
    destruct Ho as (Ha & Hu & Hr).
    by apply (Hfin (w', thrown) [Session.BeginStream; Session.SendChatCompletion true]).
  - pose proof (handleNonStreamingResponse_outcome w1 net) as Ho.
    destruct (handleNonStreamingResponse parse w1 net) as [w' thrown].
    destruct Ho as (Ha & Hu & Hr).
    by apply (Hfin (w', thrown) [Session.SendChatCompletion false]).
  - pose proof (handleStreamingImageResponse_outcome w1 net) as Ho.
    destruct (handleStreamingImageResponse parse w1 net) as [w' thrown].
    destruct Ho as (Ha & Hu & Hr).
    by apply (Hfin (w', thrown) [Session.BeginStream; Session.SendChatCompletion true]).
  - pose proof (handleNonStreamingImageResponse_outcome w1 net) as Ho.
    destruct (handleNonStreamingImageResponse parse w1 net) as [w' thrown].
    destruct Ho as (Ha & Hu & Hr).
    by apply (Hfin (w', thrown) [Session.SendChatCompletion false]).
Qed.

End PipelineFacts.

(* ===================================================================== *)
(** * Malformed frames                                                    *)
(* ===================================================================== *)

Section MalformedFrames.

Import SSE.
Context {J : Type} (parse : jstring → option J).

Lemma indexOf_end_of_line (line rest : jstring) :
  LF ∉ line → indexOf frame_sep (line ++ frame_sep ++ rest) = Some (length line).
Proof.
  induction line as [|c line IH]; intros Hnl; [done|].
  apply not_elem_of_cons in Hnl as [Hc Hnl].
  change (indexOf frame_sep ((c :: line) ++ frame_sep ++ rest))
    with (if is_prefix frame_sep (c :: line ++ frame_sep ++ rest) then Some 0%nat
          else S <$> indexOf frame_sep (line ++ frame_sep ++ rest)).
  assert (is_prefix frame_sep (c :: line ++ frame_sep ++ rest) = false) as ->.
  { change (is_prefix frame_sep (c :: line ++ frame_sep ++ rest))
      with ((LF =? c) && is_prefix [LF] (line ++ frame_sep ++ rest)).
    by destruct (N.eqb_spec LF c). }
  by rewrite (IH Hnl).
Qed.

Lemma split_on_one_line (line : jstring) : LF ∉ line → split_on LF line = [line].
Proof.
  induction line as [|c line IH]; intros Hnl; [done|].
  apply not_elem_of_cons in Hnl as [Hc Hnl]. cbn [split_on].
  destruct (N.eqb_spec c LF) as [->|]; [done|]. by rewrite (IH Hnl).
Qed.

(** C5. A frame made of one [data:] line whose payload is not the
    end marker and does not parse is dropped without a call to
    [onChunk] and without ending the loop: whatever the complete frames
    before it delivered is delivered, then whatever the text after it
    delivers, in that order. *)
Theorem malformed_frame_is_discarded
    (before frame after : jstring) (objs : list J) :
  drain parse before = (objs, [], false) →
  LF ∉ frame →
  indexOf data_prefix (trim frame) = Some 0%nat →
  trim (drop 5 (trim frame)) ≠ done_marker →
  parse (trim (drop 5 (trim frame))) = None →
  drain parse (before ++ frame ++ frame_sep ++ after) =
    let '(objs', rest, done) := drain parse after in (objs ++ objs', rest, done).
Proof.
  intros Hbefore Hnl Hdata Hmarker Hparse.
  rewrite drain_app, Hbefore. cbn [app].
  rewrite drain_unfold, (indexOf_end_of_line _ _ Hnl).
  rewrite take_app_length.
  replace (drop (length frame + 2) (frame ++ frame_sep ++ after)) with after.
  2:{ by rewrite <- drop_drop, drop_app_length. }
  rewrite (split_on_one_line _ Hnl). cbn [lines_loop].
  rewrite Hdata. rewrite bool_decide_eq_true_2 by done. cbn [negb].
  rewrite bool_decide_eq_false_2 by done. rewrite Hparse.
  by destruct (drain parse after) as [[objs' rest] done].
Qed.

End MalformedFrames.

(* ===================================================================== *)
(** * Regeneration                                                        *)
(* ===================================================================== *)

Section RegenerationFacts.

Import App.
Variable parse : jstring → option Wire.payload.

(** C10. With no user turn stored, [regenerateLastResponse] (and
    [handleRegenerateResponse], had it been called directly) returns at
    once: the page is left exactly as it was, which includes the
    versions, the cursor, the conversation log and the record of
    requests issued. *)
Theorem regenerate_without_user_turn (w : world) (net : Net.exchange) :
  Regen.lastUserMessage (regen w) = None →
  regenerateLastResponse parse w net = w
  ∧ handleRegenerateResponse parse w net = w.
Proof.
  intros H. unfold regenerateLastResponse, handleRegenerateResponse. by rewrite H.
Qed.

(** A regeneration that gets past its guards stores one version. *)
Lemma handleRegenerateResponse_pushed w net :
  Regen.lastUserMessage (regen w) ≠ None →
  trim (apiKey (ui w)) ≠ [] →
  selectedModel (ui w) ≠ None →
  pushed (regen w) (regen (handleRegenerateResponse parse w net)).
Proof.
  intros Hu Hk Hm. unfold handleRegenerateResponse.
  destruct (Regen.lastUserMessage (regen w)) as [um|]; [|done].
  rewrite (bool_decide_eq_false_2 _ Hk), (bool_decide_eq_false_2 _ Hm). cbn [orb].
  match goal with |- pushed _ (regen (run_chat _ ?w' _)) =>
    assert (regen w' = regen w) as <-
  end.
  { destruct (reverse _) as [|last before]; [done|]. by destruct (Chat.is_assistant last). }
  apply run_chat_pushed.
Qed.

Lemma handleRegenerateResponse_cursor_ok w net :
  Regen.cursor_ok (regen w) → Regen.cursor_ok (regen (handleRegenerateResponse parse w net)).
Proof.
  intros Hok. unfold handleRegenerateResponse.
  destruct (Regen.lastUserMessage (regen w)) as [um|]; [|done].
  destruct (_ || _); [done|].
  match goal with |- Regen.cursor_ok (regen (run_chat _ ?w' _)) =>
    destruct (run_chat_pushed parse w' net) as [(text & imgs & ->) _]
  end.
  apply cursor_ok_add.
Qed.

(** The cursor is sound on every page a visit can lead to. *)
Lemma reachable_cursor_ok w : reachable parse w → Regen.cursor_ok (regen w).
Proof.
  induction 1 as [u|u w _ IH|prompt uploaded net w _ IH|net w _ IH
                 |w _ IH|w _ IH|w _ IH|w _ IH|i w _ IH]; try done.
  - unfold handleSendMessage. repeat (case_bool_decide || destruct (_ && _)); try done.
    all: match goal with |- Regen.cursor_ok (regen (run_chat _ ?w' _)) =>
           destruct (run_chat_pushed parse w' net) as [(text & imgs & ->) _]
         end; apply cursor_ok_add.
  - unfold regenerateLastResponse.
    destruct (Regen.lastUserMessage (regen w)); [|done].
    by apply handleRegenerateResponse_cursor_ok.
  - by apply cursor_ok_showPrevious.
  - by apply cursor_ok_showNext.
Qed.

(** So is the stream state. *)
Lemma reachable_consistent w : reachable parse w → Session.consistent (api w).
Proof.
  induction 1 as [u|u w _ IH|prompt uploaded net w _ IH|net w _ IH
                 |w _ IH|w _ IH|w _ IH|w _ IH|i w _ IH].
  - apply consistent_init.
  - done.
  - unfold handleSendMessage. repeat (case_bool_decide || destruct (_ && _)); try done.
    all: match goal with |- Session.consistent (api (run_chat _ ?w' _)) =>
           destruct (run_chat_pushed parse w' net) as (_ & _ & ops & ->)
         end; by apply consistent_run_ops.
  - unfold regenerateLastResponse, handleRegenerateResponse.
    destruct (Regen.lastUserMessage (regen w)); [|done].
    destruct (_ || _); [done|].
    match goal with |- Session.consistent (api (run_chat _ ?w' _)) =>
      destruct (run_chat_pushed parse w' net) as (_ & _ & ops & ->)
    end.
    apply consistent_run_ops.
    destruct (reverse _) as [|last before]; [done|]. by destruct (Chat.is_assistant last).
  - unfold showPreviousResponse. destruct (Regen.canGoToPrevious _); [|done].
    unfold displayCurrentResponse. cbn.
    destruct (Regen.getCurrentResponse _); [|done].
    unfold updateChatHistoryWithCurrentResponse. by destruct (Regen.getCurrentResponse _).
  - unfold showNextResponse. destruct (Regen.canGoToNext _); [|done].
    unfold displayCurrentResponse. cbn.
    destruct (Regen.getCurrentResponse _); [|done].
    unfold updateChatHistoryWithCurrentResponse. by destruct (Regen.getCurrentResponse _).
  - by apply (consistent_abortActive (Some (js "Stopped by user")) false).
  - done.
  - by apply (consistent_run_op (Session.TimerFires i)).
Qed.

(** Stepping back [t] times from a cursor at least [t]. *)
Lemma showPrevious_iter t w :
  (Z.of_nat t ≤ Regen.currentResponseIndex (regen w))%Z →
  regen (Nat.iter t showPreviousResponse w) =
    Regen.with_index (Regen.currentResponseIndex (regen w) - Z.of_nat t) (regen w).
Proof.
  induction t as [|t IH]; intros Ht.
  - cbn. rewrite Z.sub_0_r. by destruct (regen w).
  - rewrite Nat.iter_succ, regen_showPreviousResponse, IH by lia.
    unfold Regen.canGoToPrevious. cbn.
    destruct (Z.ltb_spec 0 (Regen.currentResponseIndex (regen w) - Z.of_nat t)); [|lia].
    unfold Regen.with_index. cbn. f_equal. lia.
Qed.

Lemma getCurrentResponse_in_bounds r :
  (0 ≤ Regen.currentResponseIndex r < Z.of_nat (length (Regen.regenerationHistory r)))%Z →
  Regen.getCurrentResponse r
  = Regen.regenerationHistory r !! Z.to_nat (Regen.currentResponseIndex r).
Proof.
  intros H. unfold Regen.getCurrentResponse.
  destruct (Z.leb_spec 0 (Regen.currentResponseIndex r)); [|lia].
  destruct (Z.ltb_spec (Regen.currentResponseIndex r)
              (Z.of_nat (length (Regen.regenerationHistory r)))); [done|lia].
Qed.

(** C9, as the code has it.  A regeneration that gets past its guards
    (a stored user turn, a key, a selected model) appends exactly one
    version to the [n] the slot holds and puts the cursor on it, at
    index [n].  The version that was displayed before, at index [k], is
    stored where it was and comes back under the cursor after [n - k]
    calls of [showPreviousResponse]: after one call when it was the
    latest version. *)
Theorem regenerate_appends_one_version (w : world) (net : Net.exchange) :
  Regen.lastUserMessage (regen w) ≠ None →
  trim (apiKey (ui w)) ≠ [] →
  selectedModel (ui w) ≠ None →
  Regen.regenerationHistory (regen w) ≠ [] →
  Regen.cursor_ok (regen w) →
  let n := length (Regen.regenerationHistory (regen w)) in
  let k := Z.to_nat (Regen.currentResponseIndex (regen w)) in
  let w' := regenerateLastResponse parse w net in
  (∃ v, Regen.regenerationHistory (regen w') = Regen.regenerationHistory (regen w) ++ [v])
  ∧ Regen.currentResponseIndex (regen w') = Z.of_nat n
  ∧ (let w'' := Nat.iter (n - k) showPreviousResponse w' in
     Regen.currentResponseIndex (regen w'') = Regen.currentResponseIndex (regen w)
     ∧ Regen.getCurrentResponse (regen w'') = Regen.getCurrentResponse (regen w)
     ∧ is_Some (Regen.getCurrentResponse (regen w))
     ∧ Regen.regenerationHistory (regen w'') = Regen.regenerationHistory (regen w'))
  ∧ (k = (n - 1)%nat →
     Regen.getCurrentResponse (regen (showPreviousResponse w')) =
       Regen.getCurrentResponse (regen w)).
Proof.
  intros Hu Hk Hm Hne Hok n k w'.
  pose proof (cursor_ok_nonempty _ Hne Hok) as Hb. fold n in Hb.
  assert (pushed (regen w) (regen w')) as (text & imgs & Hw').
  { unfold w', regenerateLastResponse.
    destruct (Regen.lastUserMessage (regen w)) as [um|] eqn:Eu; [|done].
    apply handleRegenerateResponse_pushed; [by rewrite Eu|done|done]. }
  set (v := {| Regen.content := text; Regen.images := imgs |}).
  assert (Regen.regenerationHistory (regen w')
          = Regen.regenerationHistory (regen w) ++ [v]) as Hh.
  { by rewrite Hw'. }
  assert (Regen.currentResponseIndex (regen w') = Z.of_nat n) as Hi.
  { rewrite Hw'. unfold Regen.addResponseToHistory. cbn. rewrite length_app. cbn.
    fold n. lia. }
  assert (∀ t, (t = n - k)%nat →
            regen (Nat.iter t showPreviousResponse w')
            = Regen.with_index (Regen.currentResponseIndex (regen w)) (regen w')) as Hit.
  { intros t ->. rewrite showPrevious_iter by (rewrite Hi; lia).
    f_equal. rewrite Hi. unfold k. lia. }
  assert (Regen.getCurrentResponse
            (Regen.with_index (Regen.currentResponseIndex (regen w)) (regen w'))
          = Regen.getCurrentResponse (regen w)) as Hcur.
  { rewrite !getCurrentResponse_in_bounds.
    - cbn. rewrite Hh. apply lookup_app_l. fold n. lia.
    - by fold n.
    - cbn. rewrite Hh, length_app. cbn. fold n. lia. }
  split; [by exists v|]. split; [done|]. split; [|].
  - cbn zeta. rewrite (Hit _ eq_refl). split; [done|]. split; [done|]. split; [|done].
    rewrite getCurrentResponse_in_bounds by (by fold n).
    apply lookup_lt_is_Some_2. fold n. lia.
  - intros Hlast. rewrite <- Hcur. f_equal.
    change (showPreviousResponse w') with (Nat.iter 1 showPreviousResponse w').
    apply Hit. lia.
Qed.

End RegenerationFacts.

(* ===================================================================== *)
(** * What the streaming handlers take from a frame                       *)
(* ===================================================================== *)

Section AssemblerFacts.

Import App.

Lemma gains_refl s : gains s s [] [].
Proof. unfold gains. by rewrite !app_nil_r. Qed.

Lemma gains_trans s s1 s2 t1 t2 i1 i2 :
  gains s s1 t1 i1 → gains s1 s2 t2 i2 → gains s s2 (t1 ++ t2) (i1 ++ i2).
Proof. intros [H1 H2] [H3 H4]. unfold gains. by rewrite H3, H4, H1, H2, !app_assoc. Qed.

Lemma gains_ensure_div s : gains s (ensure_div s) [] [].
Proof. unfold ensure_div, gains. destruct (assistantMessageDiv s.2); cbn; by rewrite !app_nil_r. Qed.

Lemma gains_append_text t s : gains s (append_text t s) t [].
Proof.
  unfold append_text, ensure_div, gains. cbn.
  destruct (assistantMessageDiv s.2); cbn; by rewrite !app_nil_r.
Qed.

Lemma gains_push_image u s : gains s (push_image u s) [] [u].
Proof. unfold gains. cbn. by rewrite app_nil_r. Qed.

Lemma gains_content_part s p :
  gains s (content_part s p) (text_of_part p) (images_of_part p).
Proof.
  unfold content_part, text_of_part, images_of_part. destruct p as [p|]; [|apply gains_refl].
  destruct (Wire.is_lit "output_text" (Wire.part_type p) && Wire.truthy (Wire.part_text p));
    destruct (Wire.is_lit "output_image" (Wire.part_type p)
              && Wire.truthy (Wire.part_image_url p)).
  - pose proof (gains_trans _ _ _ _ _ _ _
                  (gains_append_text (default [] (Wire.part_text p)) s)
                  (gains_push_image (default [] (Wire.part_image_url p)) _)) as H.
    by rewrite app_nil_r in H.
  - apply gains_append_text.
  - apply gains_push_image.
  - apply gains_refl.
Qed.

Lemma gains_foldl {A} (f : state → A → state) (t : A → jstring) (i : A → list jstring) :
  (∀ s x, gains s (f s x) (t x) (i x)) →
  ∀ l s, gains s (foldl f s l) (concat (t <$> l)) (concat (i <$> l)).
Proof.
  intros H l. induction l as [|x l IH]; intros s; [apply gains_refl|].
  cbn. eapply gains_trans; [apply H|apply IH].
Qed.

Lemma gains_content_parts d s :
  gains s (content_parts d s)
    (concat (text_of_part <$> parts_of d)) (concat (images_of_part <$> parts_of d)).
Proof.
  unfold content_parts, parts_of. destruct d as [d|]; [|apply gains_refl].
  destruct (Wire.content_of d); try apply gains_refl.
  apply gains_foldl, gains_content_part.
Qed.

Lemma gains_delta_image s i : gains s (Image.delta_image s i) [] (images_of_entry i).
Proof.
  unfold Image.delta_image, images_of_entry. destruct i as [i|]; [|apply gains_refl].
  destruct (_ && _); [|apply gains_refl].
  pose proof (gains_trans _ _ _ _ _ _ _
                (gains_push_image (default [] (Wire.image_url i)) s)
                (gains_ensure_div _)) as H.
  by rewrite app_nil_r in H.
Qed.

Lemma gains_choice_step c s :
  gains s (Image.choice_step c s) (choice_text c) (choice_images c).
Proof.
  unfold Image.choice_step, choice_text, choice_images.
  assert (gains s (match Wire.delta c with
                   | Some d => foldl Image.delta_image s (Wire.images d)
                   | None => s
                   end)
            [] (concat (images_of_entry <$> from_option Wire.images [] (Wire.delta c)))) as H.
  { destruct (Wire.delta c) as [d|]; [|apply gains_refl]. cbn [from_option].
    pose proof (gains_foldl Image.delta_image (λ _, []) images_of_entry
                  gains_delta_image (Wire.images d) s) as H.
    assert (∀ l : list (option Wire.image),
              concat ((λ _ : option Wire.image, @nil N) <$> l) = []) as E
      by (intros l; induction l as [|x l IH]; [done|exact IH]).
    by rewrite E in H. }
  apply (gains_trans _ _ _ _ _ _ _ H (gains_content_parts _ _)).
Qed.

Lemma gains_choices_loop (cs : list Wire.choice) s :
  (Image.choices_loop (Some <$> cs) s).2 = None
  ∧ gains s (Image.choices_loop (Some <$> cs) s).1
      (concat (choice_text <$> cs)) (concat (choice_images <$> cs)).
Proof.
  revert s; induction cs as [|c cs IH]; intros s.
  - split; [done|apply gains_refl].
  - cbn. destruct (IH (Image.choice_step c s)) as [H1 H2]. split; [done|].
    eapply gains_trans; [apply gains_choice_step|done].
Qed.

(** C1, as the code has it.  Of a frame whose [choices] are all
    objects, the chunk callback of [handleStreamingImageResponse] takes
    the text fragments and the image addresses of every choice, in the
    order of the array, and throws nothing; the chunk callback of
    [handleStreamingResponse] reads the choice at index 0 and no
    other. *)
Theorem image_handler_reads_every_choice
    (cs : list Wire.choice) (c : option Wire.choice) (others : list (option Wire.choice))
    (s : state) :
  (Image.onChunk (Data (Wire.Doc (Some <$> cs))) s).2 = None
  ∧ assistantContent (Image.onChunk (Data (Wire.Doc (Some <$> cs))) s).1.2 =
      assistantContent s.2 ++ concat (choice_text <$> cs)
  ∧ assistantImages (Image.onChunk (Data (Wire.Doc (Some <$> cs))) s).1.2 =
      assistantImages s.2 ++ concat (choice_images <$> cs)
  ∧ Text.onChunk (Data (Wire.Doc (c :: others))) s = Text.onChunk (Data (Wire.Doc [c])) s.
Proof.
  destruct (gains_choices_loop cs s) as (H1 & H2 & H3).
  split; [done|]. split; [done|]. split; [done|].
  unfold Text.onChunk. by destruct c.
Qed.

(** C4 on the code.  A frame whose only content is the finish reason
    ["content_filter"] goes through the chunk callbacks of both
    streaming handlers of js/app.js without any effect: nothing is
    shown, nothing is recorded. *)
Theorem content_filter_frame_has_no_effect (s : state) :
  Text.onChunk (Data Sample.filtered_frame) s = (s, None)
  ∧ Image.onChunk (Data Sample.filtered_frame) s = (s, None).
Proof. done. Qed.

(** The original script shows the blocking notice on that frame. *)
Lemma legacy_content_filter_frame_is_shown (c : Chat.t) :
  Legacy.onChunk (Data Sample.filtered_frame) (c, Legacy.acc_init) =
    ((Chat.addMessageToChat Chat.Assistant Legacy.blocked [] c,
      {| Legacy.assistantMessageDiv := Some (length (Chat.chatMessages c));
         Legacy.assistantContent := []; Legacy.assistantImages := [] |}), None).
Proof. done. Qed.

(** C3 on the code.  A text stream that ends without a frame makes
    [handleStreamingResponse] store a version whose text is the empty
    string, not ["[Empty response]"]. *)
Theorem empty_stream_stores_empty_text (parse : jstring → option Wire.payload) (w : world) :
  (handleStreamingResponse parse w (Net.Resolves Sample.empty_stream)).2 = None
  ∧ Regen.regenerationHistory
      (regen (handleStreamingResponse parse w (Net.Resolves Sample.empty_stream)).1) =
      Regen.regenerationHistory (regen w) ++ [{| Regen.content := []; Regen.images := [] |}]
  ∧ [] ≠ empty_response.
Proof. done. Qed.

(** The buffered handler does put the notice in place of an empty
    text. *)
Lemma buffered_empty_answer_is_replaced (parse : jstring → option Wire.payload)
    (w : world) (r : Net.response) :
  parseJsonOrThrow parse r = Net.Ok (Wire.Doc []) →
  Regen.regenerationHistory
    (regen (handleNonStreamingResponse parse w (Net.Resolves r)).1) =
    Regen.regenerationHistory (regen w)
    ++ [{| Regen.content := empty_response; Regen.images := [] |}].
Proof. intros H. unfold handleNonStreamingResponse, fetch_json. by rewrite H. Qed.

End AssemblerFacts.

(* ===================================================================== *)
(** * The theorems at work on sample pages                                *)
(* ===================================================================== *)

Section Instances.

Import App Sample.

(** Two text frames and the end marker give one turn and one version,
    ["Hello"]. *)
Example hello_in_two_frames :
  let w := handleSendMessage echo (js "Say hello") [] (page true)
             (event_stream [frame "Hel"; frame "lo"; frame "[DONE]"]) in
  Regen.regenerationHistory (regen w) = [{| Regen.content := js "Hello"; Regen.images := [] |}]
  ∧ Regen.currentResponseIndex (regen w) = 0%Z
  ∧ Chat.messageHistory (chat w) =
      [{| Chat.role_of := Chat.User; Chat.content := js "Say hello"; Chat.images := [] |};
       {| Chat.role_of := Chat.Assistant; Chat.content := js "Hello"; Chat.images := [] |}]
  ∧ Chat.textContent <$> Chat.chatMessages (chat w) = [js "Say hello"; js "Hello"].
Proof. by vm_compute. Qed.

(** A buffered body in place of a stream is shown as it is. *)
Example buffered_answer :
  let w := handleSendMessage echo (js "Say hi") [] (page false) (json_reply "Hi") in
  Regen.regenerationHistory (regen w) = [{| Regen.content := js "Hi"; Regen.images := [] |}]
  ∧ Chat.textContent <$> Chat.chatMessages (chat w) = [js "Say hi"; js "Hi"].
Proof. by vm_compute. Qed.

(** Two images and no text. *)
Example two_images_no_text :
  Regen.regenerationHistory
    (regen (handleSendMessage as_image (js "Draw") [] image_page
              (event_stream [frame "https://img/1"; frame "https://img/2"])))
  = [{| Regen.content := js "Generated 2 image(s):";
        Regen.images := [js "https://img/1"; js "https://img/2"] |}].
Proof. by vm_compute. Qed.

(** Two regenerations after the first answer: three versions, cursor on
    the last. *)
Example regenerate_twice :
  let w := regenerateLastResponse echo
             (regenerateLastResponse echo
                (handleSendMessage echo (js "hi") [] (page false) (json_reply "A"))
                (json_reply "B"))
             (json_reply "C") in
  Regen.content <$> Regen.regenerationHistory (regen w) = [js "A"; js "B"; js "C"]
  ∧ Regen.currentResponseIndex (regen w) = 2%Z
  ∧ Chat.content <$> Chat.messageHistory (chat w) = [js "hi"; js "C"].
Proof. by vm_compute. Qed.

(** The frame [data: café], cut inside its two-byte character and inside
    the blank line that ends it. *)
Example cut_inside_character_and_separator :
  SSE.readSSE_stream echo
    [SSE.ReadChunk (bytes "data: caf" ++ [xc3]);
     SSE.ReadChunk ([xa9] ++ bytes nl);
     SSE.ReadChunk (bytes nl ++ frame "[DONE]")]
  = [SSE.OnChunk (answer (js "caf" ++ [233])); SSE.OnDone None]
  ∧ SSE.readSSE_stream echo
      [SSE.ReadChunk (bytes "data: caf" ++ [xc3; xa9] ++ bytes nl ++ bytes nl ++ frame "[DONE]")]
    = [SSE.OnChunk (answer (js "caf" ++ [233])); SSE.OnDone None].
Proof. by vm_compute. Qed.

(** A malformed frame between two valid ones, read from the wire. *)
Example malformed_frame_on_the_wire :
  SSE.readSSE_stream echo
    [SSE.ReadChunk (frame "one" ++ frame "!oops" ++ frame "two"); SSE.ReadDone]
  = [SSE.OnChunk (answer (js "one")); SSE.OnChunk (answer (js "two")); SSE.OnDone None].
Proof. by vm_compute. Qed.

(** A stream of three frames, the second one malformed. *)
Lemma malformed_frame_is_discarded_witness :
  SSE.drain echo (js "data: one" ++ frame_sep ++ js "data: !oops" ++ frame_sep
                  ++ js "data: two" ++ frame_sep)
  = ([answer (js "one"); answer (js "two")], [], false).
Proof.
  pose proof (malformed_frame_is_discarded echo
                (js "data: one" ++ frame_sep) (js "data: !oops")
                (js "data: two" ++ frame_sep)
                [answer (js "one")]) as H.
  rewrite <- !app_assoc in H. rewrite H.
  - reflexivity.
  - reflexivity.
  - apply (bool_decide_unpack _). vm_compute. exact I.
  - reflexivity.
  - apply (bool_decide_unpack _). vm_compute. exact I.
  - reflexivity.
Defined.

(** A second [beginStream] while the first session is still current. *)
Lemma beginStream_aborts_the_old_session_once_witness :
  ∃ new,
    new ≠ 0%nat
    ∧ Session.currentController (Session.beginStream (Session.beginStream Session.init))
      = Some new
    ∧ Session.trace (Session.beginStream (Session.beginStream Session.init))
      = [Session.New 0; Session.Abort 0; Session.New new]
    ∧ (∀ ops, Session.abort_count 0
                (Session.run_ops ops (Session.beginStream (Session.beginStream Session.init)))
              = 1%nat)
    ∧ (∀ ops pre post,
         Session.trace
           (Session.run_ops ops (Session.beginStream (Session.beginStream Session.init)))
         = pre ++ Session.Fetch (Some new) :: post →
         Session.Abort 0 ∈ pre).
Proof.
  apply (beginStream_aborts_the_old_session_once (Session.beginStream Session.init) 0).
  - apply consistent_beginStream, consistent_init.
  - reflexivity.
Defined.

(** A slot with two versions, the first one displayed. *)
Lemma navigation_stays_in_bounds_witness :
  Regen.currentResponseIndex (regen two_versions_first_shown) = 0%Z
  ∧ length (Regen.regenerationHistory (regen two_versions_first_shown)) = 2%nat
  ∧ showPreviousResponse two_versions_first_shown = two_versions_first_shown
  ∧ Regen.currentResponseIndex (regen (showNextResponse two_versions_first_shown)) = 1%Z.
Proof.
  assert (Regen.regenerationHistory (regen two_versions_first_shown) ≠ []) as Hne
    by (vm_compute; discriminate).
  assert (Regen.cursor_ok (regen two_versions_first_shown)) as Hok
    by (vm_compute; split; [discriminate|reflexivity]).
  destruct (navigation_stays_in_bounds two_versions_first_shown Hne Hok) as (_ & Hp & _).
  split; [reflexivity|]. split; [reflexivity|]. split; [|reflexivity].
  apply Hp. reflexivity.
Defined.

(** Regenerating from that slot. *)
Lemma regenerate_appends_one_version_witness :
  let w' := regenerateLastResponse echo two_versions_first_shown (json_reply "C") in
  (∃ v, Regen.regenerationHistory (regen w')
        = Regen.regenerationHistory (regen two_versions_first_shown) ++ [v])
  ∧ Regen.currentResponseIndex (regen w') = 2%Z
  ∧ Regen.getCurrentResponse (regen (Nat.iter 2 showPreviousResponse w'))
    = Some {| Regen.content := js "A"; Regen.images := [] |}.
Proof.
  intros w'.
  destruct (regenerate_appends_one_version echo two_versions_first_shown (json_reply "C"))
    as (Hv & Hi & (_ & Hc & _) & _).
  - vm_compute. discriminate.
  - vm_compute. discriminate.
  - vm_compute. discriminate.
  - vm_compute. discriminate.
  - vm_compute. split; [discriminate|reflexivity].
  - split; [exact Hv|]. split; [exact Hi|]. exact Hc.
Defined.

(** The regenerate control on a fresh page. *)
Lemma regenerate_without_user_turn_witness :
  regenerateLastResponse echo (page true) (json_reply "A") = page true
  ∧ handleRegenerateResponse echo (page true) (json_reply "A") = page true.
Proof. apply regenerate_without_user_turn. reflexivity. Defined.

(** C1 as stated fails.  Of a frame with two choices, ["A"] and ["B"],
    the text handler takes the first only; and of a frame whose first
    choice is [null] the image handler takes nothing, not even the image
    of the second choice. *)
Lemma text_handler_reads_first_choice_only :
  (assistantContent
     (Text.onChunk (Data (Wire.Doc [Some (says "A"); Some (says "B")]))
        (page true, acc_init)).1.2 = js "A"
   ∧ Wire.delta (says "B")
     = Some {| Wire.content_of := Wire.Text (js "B"); Wire.images := [] |})
  ∧ (assistantImages
       (Image.onChunk (Data (Wire.Doc [None; Some (pictures (js "https://img/1"))]))
          (image_page, acc_init)).1.2 = []
     ∧ choice_images (pictures (js "https://img/1")) = [js "https://img/1"]).
Proof. by vm_compute. Qed.

(** C9 as stated fails when the version on display is not the latest
    one: with ["A"] displayed out of ["A"; "B"], a regeneration appends
    ["C"], and one step back from it shows ["B"]. *)
Lemma one_step_back_misses_the_displayed_version :
  Regen.getCurrentResponse (regen two_versions_first_shown)
  = Some {| Regen.content := js "A"; Regen.images := [] |}
  ∧ Regen.getCurrentResponse
      (regen (showPreviousResponse
                (regenerateLastResponse echo two_versions_first_shown (json_reply "C"))))
    = Some {| Regen.content := js "B"; Regen.images := [] |}.
Proof. by vm_compute. Qed.

End Instances.

(* ===================================================================== *)
(** * The decoder, frame by frame                                         *)
(* ===================================================================== *)

Section FrameFacts.

Import SSE Frame.
Context {J : Type} (parse : jstring → option J).

Lemma indexOf_unfold (p s : jstring) :
  indexOf p s = if is_prefix p s then Some 0%nat
                else match s with [] => None | _ :: s' => S <$> indexOf p s' end.
Proof. by destruct s. Qed.

Lemma is_prefix_sep_cons c (s : jstring) :
  c ≠ LF → is_prefix frame_sep (c :: s) = false.
Proof.
  intros Hc. change (is_prefix frame_sep (c :: s)) with ((LF =? c) && is_prefix [LF] s).
  destruct (N.eqb_spec LF c); [congruence|done].
Qed.

Lemma is_prefix_sep_lf c (s : jstring) :
  c ≠ LF → is_prefix frame_sep (LF :: c :: s) = false.
Proof.
  intros Hc.
  change (is_prefix frame_sep (LF :: c :: s)) with ((LF =? LF) && ((LF =? c) && true)).
  destruct (N.eqb_spec LF c); [congruence|]. by rewrite andb_false_r.
Qed.

(** The blank line that ends a frame is the first one there is. *)
Lemma indexOf_end_of_frame (lines : list jstring) (rest : jstring) :
  lines ≠ [] → Forall is_line lines →
  indexOf frame_sep (join lines ++ frame_sep ++ rest) = Some (length (join lines)).
Proof.
  intros Hne Hl. induction Hl as [|l lines [Hl1 Hl2] Hl IH]; [done|]. clear Hne.
  destruct lines as [|l' lines].
  - cbn [join]. clear IH. induction l as [|c l IHl]; [done|].
    apply not_elem_of_cons in Hl2 as [Hc Hl2].
    rewrite indexOf_unfold. cbn [app]. rewrite is_prefix_sep_cons by done.
    destruct l as [|c' l].
    + done.
    + by rewrite IHl.
  - specialize (IH ltac:(done)).
    change (join (l :: l' :: lines)) with (l ++ LF :: join (l' :: lines)).
    set (tl := join (l' :: lines)) in *.
    assert (∃ c tl', tl = c :: tl' ∧ c ≠ LF) as (c & tl' & Htl & Hc).
    { unfold tl. apply Forall_cons in Hl as [[H1 H2] _].
      destruct l' as [|c l']; [done|]. apply not_elem_of_cons in H2 as [H2 _].
      destruct lines; by eexists _, _. }
    rewrite Htl in *. rewrite <- app_assoc. cbn [app].
    clear Hl1. induction l as [|x l IHl].
    + cbn [app length]. rewrite indexOf_unfold, is_prefix_sep_lf by done.
      cbn [app] in IH. by rewrite IH.
    + apply not_elem_of_cons in Hl2 as [Hx Hl2].
      cbn [app]. rewrite indexOf_unfold, is_prefix_sep_cons by done.
      by rewrite (IHl Hl2).
Qed.

Lemma split_on_join (lines : list jstring) :
  lines ≠ [] → Forall is_line lines → split_on LF (join lines) = lines.
Proof.
  intros Hne Hl. induction Hl as [|l lines [Hl1 Hl2] Hl IH]; [done|]. clear Hne.
  destruct lines as [|l' lines].
  - cbn [join]. clear IH Hl1. induction l as [|c l IHl]; [done|].
    apply not_elem_of_cons in Hl2 as [Hc Hl2]. cbn [split_on].
    destruct (N.eqb_spec c LF); [done|]. by rewrite IHl.
  - specialize (IH ltac:(done)).
    change (join (l :: l' :: lines)) with (l ++ LF :: join (l' :: lines)).
    clear Hl1. induction l as [|c l IHl].
    + cbn [app split_on]. by rewrite N.eqb_refl, IH.
    + apply not_elem_of_cons in Hl2 as [Hc Hl2]. cbn [app split_on].
      destruct (N.eqb_spec c LF); [done|]. by rewrite (IHl Hl2).
Qed.

(** One frame, whatever comes before and after it. *)
Lemma drain_frame (before after : jstring) (lines : list jstring) (objs : list J) :
  drain parse before = (objs, [], false) →
  lines ≠ [] → Forall is_line lines →
  drain parse (before ++ join lines ++ frame_sep ++ after) =
    let '(o1, d1) := lines_loop parse lines in
    if d1 then (objs ++ o1, after, true)
    else let '(o2, rest, d2) := drain parse after in (objs ++ o1 ++ o2, rest, d2).
Proof.
  intros Hbefore Hne Hl.
  rewrite drain_app, Hbefore. cbn [app].
  rewrite drain_unfold, (indexOf_end_of_frame _ _ Hne Hl), take_app_length.
  replace (drop (length (join lines) + 2) (join lines ++ frame_sep ++ after)) with after.
  2:{ by rewrite <- drop_drop, drop_app_length. }
  rewrite (split_on_join _ Hne Hl).
  destruct (lines_loop parse lines) as [o1 [|]]; [done|].
  by destruct (drain parse after) as [[o2 rest] d2].
Qed.

(** The loop over the lines of a frame, in closed form: payloads are
    parsed in order up to the first ["[DONE]"]. *)
Lemma lines_loop_cons (l : jstring) (lines : list jstring) :
  lines_loop parse (l :: lines) =
    match payload_of l with
    | None => lines_loop parse lines
    | Some data =>
        if bool_decide (data = done_marker) then ([], true)
        else match parse data with
             | Some obj => let '(objs, done) := lines_loop parse lines in (obj :: objs, done)
             | None => lines_loop parse lines
             end
    end.
Proof.
  cbn [lines_loop]. unfold payload_of. cbv zeta.
  by destruct (bool_decide (indexOf data_prefix (trim l) = Some 0%nat)).
Qed.

Lemma lines_loop_no_marker (lines : list jstring) :
  Forall (λ l, payload_of l ≠ Some done_marker) lines →
  lines_loop parse lines = (omap (λ l, payload_of l ≫= parse) lines, false).
Proof.
  induction 1 as [|l lines Hl _ IH]; [done|].
  rewrite lines_loop_cons. cbn [omap list_omap].
  destruct (payload_of l) as [data|]; cbn [mbind option_bind]; [|done].
  rewrite bool_decide_eq_false_2 by congruence.
  rewrite IH. by destruct (parse data).
Qed.

Lemma lines_loop_marker (l1 l2 : list jstring) (d : jstring) :
  Forall (λ l, payload_of l ≠ Some done_marker) l1 →
  payload_of d = Some done_marker →
  lines_loop parse (l1 ++ d :: l2) = (omap (λ l, payload_of l ≫= parse) l1, true).
Proof.
  intros H1 Hd. induction H1 as [|l l1 Hl _ IH].
  - cbn [app]. rewrite lines_loop_cons, Hd. by rewrite bool_decide_eq_true_2.
  - cbn [app]. rewrite lines_loop_cons. cbn [omap list_omap].
    destruct (payload_of l) as [data|]; cbn [mbind option_bind]; [|done].
    rewrite bool_decide_eq_false_2 by congruence.
    rewrite IH. by destruct (parse data).
Qed.

(** X1. A frame made of non-empty lines, none of which carries the end
    marker, hands to [onChunk] the parse results of its [data:] lines, in
    order, one call per line: lines of any other kind (comments such as
    [: keep-alive], [event:] or [id:] fields) and payloads that do not
    parse give no call, and the loop goes on with the text after the
    frame.  A frame without a single [data:] line is skipped. *)
Theorem frame_delivers_its_data_lines
    (before after : jstring) (lines : list jstring) (objs : list J) :
  drain parse before = (objs, [], false) →
  lines ≠ [] →
  Forall is_line lines →
  Forall (λ l, payload_of l ≠ Some done_marker) lines →
  drain parse (before ++ join lines ++ frame_sep ++ after) =
    (let '(objs', rest, done) := drain parse after in
     (objs ++ omap (λ l, payload_of l ≫= parse) lines ++ objs', rest, done))
  ∧ (Forall (λ l, payload_of l = None) lines →
     drain parse (before ++ join lines ++ frame_sep ++ after) =
       let '(objs', rest, done) := drain parse after in (objs ++ objs', rest, done)).
Proof.
  intros Hbefore Hne Hl Hm.
  assert (drain parse (before ++ join lines ++ frame_sep ++ after) =
            let '(objs', rest, done) := drain parse after in
            (objs ++ omap (λ l, payload_of l ≫= parse) lines ++ objs', rest, done)) as Hd.
  { rewrite (drain_frame _ _ _ _ Hbefore Hne Hl), (lines_loop_no_marker _ Hm).
    by destruct (drain parse after) as [[o2 rest] d2]. }
  split; [done|]. intros Hnone. rewrite Hd.
  assert (omap (λ l, payload_of l ≫= parse) lines = []) as ->; [|done].
  clear -Hnone. induction Hnone as [|l lines Hl _ IH]; [done|].
  cbn [omap list_omap]. by rewrite Hl, IH.
Qed.

(** X2. A [data: [DONE]] line ends the stream at once: the data lines
    before it in its frame are delivered, then [onDone] is called
    without an error, and neither the lines after it, nor the text after
    the frame, nor any later read is looked at. *)
Theorem done_marker_ends_the_stream
    (before after : jstring) (l1 l2 : list jstring) (d : jstring) (objs : list J) :
  drain parse before = (objs, [], false) →
  Forall is_line (l1 ++ d :: l2) →
  Forall (λ l, payload_of l ≠ Some done_marker) l1 →
  payload_of d = Some done_marker →
  let text := before ++ join (l1 ++ d :: l2) ++ frame_sep ++ after in
  let delivered := objs ++ omap (λ l, payload_of l ≫= parse) l1 in
  drain parse text = (delivered, after, true)
  ∧ ∀ st value reads,
      buffer st ++ (TextDecoder.decode_stream (decoder st) value).2 = text →
      pump parse st (ReadChunk value :: reads) = (OnChunk <$> delivered) ++ [OnDone None].
Proof.
  intros Hbefore Hl H1 Hd text delivered.
  assert (drain parse text = (delivered, after, true)) as Hdr.
  { unfold text. rewrite (drain_frame _ _ _ _ Hbefore); [|by destruct l1|done].
    by rewrite (lines_loop_marker _ _ _ H1 Hd). }
  split; [done|]. intros st value reads Htext. cbn [pump].
  destruct (TextDecoder.decode_stream (decoder st) value) as [dec txt].
  cbn [snd] in Htext. by rewrite Htext, Hdr.
Qed.

(** X3. [readSSE] calls [onDone] at most once, and after every call of
    [onChunk]; it does call it as soon as a read reports the end of the
    body or fails.  A body that ends without a failure and without an
    end marker is completed without an error. *)
Theorem onDone_is_called_once_and_last (reads : list read_step) :
  (∃ objs, readSSE_stream parse reads = OnChunk <$> objs
           ∨ ∃ err, readSSE_stream parse reads = (OnChunk <$> objs) ++ [OnDone err])
  ∧ ((∃ step, step ∈ reads ∧ ∀ v, step ≠ ReadChunk v) →
     ∃ objs err, readSSE_stream parse reads = (OnChunk <$> objs) ++ [OnDone err])
  ∧ (∀ chunks, reads = (ReadChunk <$> chunks) ++ [ReadDone] →
     ∃ objs, readSSE_stream parse reads = (OnChunk <$> objs) ++ [OnDone None]).
Proof.
  unfold readSSE_stream. generalize (pump_init : pump_state).
  induction reads as [|step reads IH]; intros st.
  - split; [by exists []; left|]. split.
    + by intros (step & ?%not_elem_of_nil & _).
    + intros chunks H. by destruct chunks.
  - destruct step as [value| |err].
    + cbn [pump]. destruct (TextDecoder.decode_stream (decoder st) value) as [dec txt].
      destruct (drain parse (buffer st ++ txt)) as [[objs rest] [|]].
      * split; [exists objs; right; by exists None|].
        split; [by exists objs, None|]. intros chunks _. by exists objs.
      * destruct (IH {| decoder := dec; buffer := rest |}) as ((objs' & H1) & H2 & H3).
        split; [|split].
        -- exists (objs ++ objs'). rewrite fmap_app.
           destruct H1 as [->|[err ->]]; [by left|right].
           exists err. by rewrite app_assoc.
        -- intros (step & Hin & Hstep). apply elem_of_cons in Hin as [->|Hin].
           { by destruct (Hstep value). }
           destruct H2 as (objs'' & err & ->); [by exists step|].
           exists (objs ++ objs''), err. by rewrite fmap_app, app_assoc.
        -- intros [|c chunks] Heq; [done|]. injection Heq as _ Heq.
           destruct (H3 chunks Heq) as [objs'' ->].
           exists (objs ++ objs''). by rewrite fmap_app, app_assoc.
    + split; [exists []; right; by exists None|].
      split; [by exists [], None|]. intros chunks _. by exists [].
    + split; [exists []; right; by exists (Some err)|].
      split; [by exists [], (Some err)|].
      intros [|c chunks] Heq; [|done]. done.
Qed.

(** X4. What follows the last blank line of a body is never parsed: a
    final frame that the server did not close with a blank line is lost,
    whatever it holds, and the stream is completed as if it were not
    there. *)
Theorem text_after_the_last_blank_line_is_dropped
    (chunks : list (list byte)) (head tail : jstring) (objs : list J) :
  (TextDecoder.decode_stream TextDecoder.new (concat chunks)).2 = head ++ tail →
  drain parse head = (objs, [], false) →
  indexOf frame_sep tail = None →
  readSSE_stream parse ((ReadChunk <$> chunks) ++ [ReadDone]) =
    (OnChunk <$> objs) ++ [OnDone None].
Proof.
  intros Htext Hhead Htail. unfold readSSE_stream.
  assert (drain parse (head ++ tail) = (objs, tail, false)) as Hd.
  { rewrite drain_app, Hhead. cbn [app]. rewrite drain_unfold, Htail.
    by rewrite app_nil_r. }
  destruct chunks as [|c cs].
  - cbn in Htext. symmetry in Htext. apply app_eq_nil in Htext as [-> ->].
    rewrite drain_unfold in Hhead. cbn in Hhead. by injection Hhead as <-.
  - rewrite pump_chunks. cbn [pump pump_init buffer decoder app].
    destruct (TextDecoder.decode_stream TextDecoder.new (concat (c :: cs))) as [dec txt].
    cbn [snd] in Htext. rewrite Htext, Hd. done.
Qed.

(** X5. The text [readSSE] keeps from one read to the next is the end of
    the text it had, and holds no blank line: every complete frame has
    been handled by the time the next read is awaited. *)
Theorem kept_buffer_holds_no_complete_frame (text : jstring) :
  let '(objs, rest, done) := drain parse text in
  (∃ handled, text = handled ++ rest)
  ∧ (done = false → indexOf frame_sep rest = None).
Proof.
  remember (length text) as n eqn:Hn. revert text Hn.
  induction (lt_wf n) as [n _ IH]; intros text ->.
  rewrite drain_unfold.
  destruct (indexOf frame_sep text) as [idx|] eqn:E.
  - pose proof (indexOf_bound _ _ _ E) as Hb. cbn [length frame_sep] in Hb.
    destruct (lines_loop parse (split_on LF (take idx text))) as [o1 [|]].
    + split; [|done]. exists (take (idx + 2) text). by rewrite take_drop.
    + specialize (IH (length (drop (idx + 2) text))
                    ltac:(rewrite length_drop; lia) (drop (idx + 2) text) eq_refl).
      destruct (drain parse (drop (idx + 2) text)) as [[o2 rest] d2].
      destruct IH as [[handled Hh] Hrest]. split; [|done].
      exists (take (idx + 2) text ++ handled).
      by rewrite <- app_assoc, <- Hh, take_drop.
  - split; [by exists []|done].
Qed.

End FrameFacts.

(* ===================================================================== *)
(** * The decoder on sample streams                                       *)
(* ===================================================================== *)

Section FrameInstances.

Import App Sample.

Local Ltac sample_lines :=
  cbn [app];
  repeat (cbv beta;
          match goal with
          | |- Forall _ [] => constructor
          | |- Forall _ (_ :: _) => constructor
          | |- Frame.is_line _ => split
          | |- _ ∉ _ => apply (bool_decide_unpack _); vm_compute; exact I
          | |- _ ≠ _ => vm_compute; discriminate
          end).

(** A frame of five lines after a first frame: a comment, two data lines
    that parse, an [event:] field and a data line that does not parse. *)
Lemma frame_delivers_its_data_lines_witness :
  SSE.drain echo
    (js "data: one" ++ frame_sep
     ++ Frame.join [js ": keep-alive"; js "data: two"; js "event: ping";
                    js "data: !oops"; js "data:three"]
     ++ frame_sep)
  = ([answer (js "one"); answer (js "two"); answer (js "three")], [], false).
Proof.
  destruct (frame_delivers_its_data_lines echo (js "data: one" ++ frame_sep) []
              [js ": keep-alive"; js "data: two"; js "event: ping";
               js "data: !oops"; js "data:three"]
              [answer (js "one")]) as [H _].
  - reflexivity.
  - discriminate.
  - sample_lines.
  - sample_lines.
  - etransitivity; [|exact H]. reflexivity.
Defined.

(** The end marker in the middle of a frame, with more frames behind. *)
Lemma done_marker_ends_the_stream_witness :
  SSE.drain echo
    (js "data: one" ++ frame_sep
     ++ Frame.join [js "data: two"; js "data: [DONE]"; js "data: three"]
     ++ frame_sep ++ js "data: four" ++ frame_sep)
  = ([answer (js "one"); answer (js "two")], js "data: four" ++ frame_sep, true).
Proof.
  destruct (done_marker_ends_the_stream echo (js "data: one" ++ frame_sep)
              (js "data: four" ++ frame_sep)
              [js "data: two"] [js "data: three"] (js "data: [DONE]")
              [answer (js "one")]) as [H _].
  - reflexivity.
  - sample_lines.
  - sample_lines.
  - reflexivity.
  - etransitivity; [|exact H]. reflexivity.
Defined.

(** A body whose second frame lacks its blank line. *)
Lemma text_after_the_last_blank_line_is_dropped_witness :
  SSE.readSSE_stream echo
    [SSE.ReadChunk (frame "one"); SSE.ReadChunk (bytes "data: two"); SSE.ReadDone]
  = [SSE.OnChunk (answer (js "one")); SSE.OnDone None].
Proof.
  apply (text_after_the_last_blank_line_is_dropped echo
           [frame "one"; bytes "data: two"]
           (js "data: one" ++ frame_sep) (js "data: two") [answer (js "one")]).
  - reflexivity.
  - reflexivity.
  - reflexivity.
Defined.

End FrameInstances.

(* ===================================================================== *)
(** * Controllers over the life of the page                               *)
(* ===================================================================== *)

Section ControllerFacts.

Import Session.

(** An element of the first of two joined lists that the second one
    does not hold sits in the first. *)
Lemma middle_in_prefix {A} (l tl pre post : list A) (x : A) :
  l ++ tl = pre ++ x :: post → x ∉ tl → ∃ post', l = pre ++ x :: post'.
Proof.
  intros Heq Hx.
  destruct (decide (length pre < length l)%nat) as [Hlt|Hge].
  - exists (drop (S (length pre)) l).
    assert (l !! length pre = Some x) as Hl.
    { rewrite <- (lookup_app_l l tl) by done. rewrite Heq. apply list_lookup_middle. done. }
    assert (take (length pre) l = pre) as Htk.
    { apply (f_equal (take (length pre))) in Heq.
      rewrite take_app_length in Heq. rewrite take_app_le in Heq by lia. done. }
    rewrite <- (take_drop_middle l (length pre) x Hl) at 1. by rewrite Htk.
  - exfalso. apply Hx. apply (list_elem_of_lookup_2 _ (length pre - length l)).
    rewrite <- (lookup_app_r l tl) by lia. rewrite Heq. apply list_lookup_middle. done.
Qed.

(** What one operation adds to the record of calls. *)
Lemma run_op_trace o s :
  ∃ tl, trace (run_op o s) = trace s ++ tl
        ∧ ∀ e, e ∈ tl →
            (∃ c, e = Abort c ∧ currentController s = Some c)
            ∨ (∃ c, e = New c ∧ c = created s)
            ∨ e = Fetch None
            ∨ (∃ c, e = Fetch (Some c) ∧ currentController s = Some c ∧ tl = [e]).
Proof.
  destruct o as [|reason throwError| |streaming|i]; cbn [run_op].
  - rewrite beginStream_state. eexists. split; [done|].
    intros e [Hin|Hin%list_elem_of_singleton]%elem_of_app.
    + left. by apply abort_calls_spec.
    + right. left. by exists (created s).
  - rewrite abortActive_state. eexists. split; [done|].
    intros e Hin. left. by apply abort_calls_spec.
  - exists []. split; [by rewrite app_nil_r|]. by intros e ?%not_elem_of_nil.
  - eexists. split; [done|]. intros e ->%list_elem_of_singleton.
    destruct streaming; [|by right; right; left].
    destruct (currentController s) as [c|]; [|by right; right; left].
    right. right. right. by exists c.
  - rewrite fire_timer_state. destruct (timers s !! i).
    + eexists. split; [done|]. intros e Hin. left. by apply abort_calls_spec.
    + exists []. split; [by rewrite app_nil_r|]. by intros e ?%not_elem_of_nil.
Qed.

Lemma abort_count_le_1_step o s c :
  consistent s → (abort_count c s ≤ 1)%nat → (abort_count c (run_op o s) ≤ 1)%nat.
Proof.
  intros [Hc _] Hle.
  destruct (decide (currentController s = Some c)) as [Hcur|Hcur].
  - destruct (Hc c Hcur) as [Hlt Hna]. apply abort_count_zero in Hna.
    assert (length (filter (λ e, e = Abort c) (abort_calls s)) = 1%nat) as H1.
    { unfold abort_calls. rewrite Hcur, filter_cons, filter_nil.
      by destruct (decide (Abort c = Abort c)). }
    destruct o as [|reason throwError| |streaming|i]; cbn [run_op].
    + rewrite beginStream_state. unfold abort_count. cbn [trace].
      rewrite abort_count_app, filter_app, length_app, H1, Hna.
      rewrite filter_cons, filter_nil.
      destruct (decide (New (created s) = Abort c)); [done|]. cbn. lia.
    + rewrite abortActive_state. unfold abort_count. cbn [trace].
      rewrite abort_count_app, H1, Hna. lia.
    + done.
    + unfold abort_count, fetch, record. cbn [trace].
      rewrite abort_count_app, Hna, filter_cons, filter_nil.
      destruct (decide (_ = Abort c)); [done|]. cbn. lia.
    + rewrite fire_timer_state. destruct (timers s !! i); [|done].
      unfold abort_count. cbn [trace]. rewrite abort_count_app, H1, Hna. lia.
  - destruct (decide (c < created s)%nat) as [Hlt|Hge].
    + destruct (run_op_dropped c o s Hcur Hlt) as (_ & _ & ->). done.
    + assert (length (filter (λ e, e = Abort c) (abort_calls s)) = 0%nat) as Hz.
      { unfold abort_calls. destruct (currentController s) as [c0|]; [|done].
        rewrite filter_cons, filter_nil.
        destruct (decide (Abort c0 = Abort c)) as [[= ->]|]; done. }
      destruct o as [|reason throwError| |streaming|i]; cbn [run_op].
      * rewrite beginStream_state. unfold abort_count. cbn [trace].
        rewrite abort_count_app, filter_app, length_app, Hz.
        rewrite filter_cons, filter_nil.
        destruct (decide (New (created s) = Abort c)); [done|]. cbn. lia.
      * rewrite abortActive_state. unfold abort_count. cbn [trace].
        rewrite abort_count_app, Hz. lia.
      * done.
      * unfold abort_count, fetch, record. cbn [trace].
        rewrite abort_count_app, filter_cons, filter_nil.
        destruct (decide (_ = Abort c)); [done|]. cbn. lia.
      * rewrite fire_timer_state. destruct (timers s !! i); [|done].
        unfold abort_count. cbn [trace]. rewrite abort_count_app, Hz. lia.
Qed.

Lemma fetch_before_abort_step o s c :
  consistent s →
  (∀ pre post, trace s = pre ++ Fetch (Some c) :: post → Abort c ∉ pre) →
  ∀ pre post, trace (run_op o s) = pre ++ Fetch (Some c) :: post → Abort c ∉ pre.
Proof.
  intros [Hc _] IH pre post Heq.
  destruct (run_op_trace o s) as (tl & Htl & Hev). rewrite Htl in Heq.
  destruct (decide (Fetch (Some c) ∈ tl)) as [Hin|Hnin].
  - destruct (Hev _ Hin) as [(c0 & ? & _)|[(c0 & ? & _)|[?|(c0 & [= <-] & Hcur & ->)]]];
      try done.
    destruct (Hc c Hcur) as [_ Hna].
    assert (length pre ≤ length (trace s))%nat as Hlen.
    { apply (f_equal length) in Heq. rewrite !length_app in Heq. cbn in Heq. lia. }
    apply (f_equal (take (length pre))) in Heq.
    rewrite take_app_length, take_app_le in Heq by done.
    intros Hin'. apply Hna. rewrite <- Heq in Hin'.
    apply elem_of_take in Hin' as (i & Hi & _). by apply (list_elem_of_lookup_2 _ i).
  - destruct (middle_in_prefix _ _ _ _ _ Heq Hnin) as [post' Hs]. by apply (IH pre post').
Qed.

Lemma run_ops_app ops1 ops2 s : run_ops (ops1 ++ ops2) s = run_ops ops2 (run_ops ops1 s).
Proof. unfold run_ops. by rewrite foldl_app. Qed.

Lemma api_displayCurrentResponse w : api (displayCurrentResponse w) = api w.
Proof.
  unfold displayCurrentResponse. destruct (Regen.getCurrentResponse _); [|done].
  unfold updateChatHistoryWithCurrentResponse. by destruct (Regen.getCurrentResponse _).
Qed.

(** On every page a visit can lead to, the stream state is the outcome
    of a sequence of operations of the service. *)
Lemma reachable_api_ops (parse : jstring → option Wire.payload) w :
  App.reachable parse w → ∃ ops, api w = run_ops ops init.
Proof.
  induction 1 as [u|u w _ IH|prompt uploaded net w _ IH|net w _ IH
                 |w _ IH|w _ IH|w _ IH|w _ IH|i w _ IH].
  - by exists [].
  - done.
  - destruct IH as [ops0 IH]. unfold App.handleSendMessage.
    repeat (case_bool_decide || destruct (_ && _)); try by exists ops0.
    all: match goal with |- ∃ _, api (App.run_chat _ ?w' _) = _ =>
           destruct (run_chat_pushed parse w' net) as (_ & _ & ops & ->)
         end; exists (ops0 ++ ops); cbn [api with_chat with_regen];
         by rewrite run_ops_app, <- IH.
  - destruct IH as [ops0 IH]. unfold App.regenerateLastResponse, App.handleRegenerateResponse.
    destruct (Regen.lastUserMessage (regen w)); [|by exists ops0].
    destruct (_ || _); [by exists ops0|].
    match goal with |- ∃ _, api (App.run_chat _ ?w' _) = _ =>
      destruct (run_chat_pushed parse w' net) as (_ & _ & ops & ->)
    end.
    exists (ops0 ++ ops). rewrite run_ops_app, <- IH. f_equal.
    destruct (reverse _) as [|last before]; [done|]. by destruct (Chat.is_assistant last).
  - destruct IH as [ops0 IH]. exists ops0. rewrite <- IH.
    unfold showPreviousResponse. destruct (Regen.canGoToPrevious _); [|done].
    by rewrite api_displayCurrentResponse.
  - destruct IH as [ops0 IH]. exists ops0. rewrite <- IH.
    unfold showNextResponse. destruct (Regen.canGoToNext _); [|done].
    by rewrite api_displayCurrentResponse.
  - destruct IH as [ops0 IH].
    exists (ops0 ++ [AbortActive (Some (js "Stopped by user")) false]).
    rewrite run_ops_app, <- IH. done.
  - done.
  - destruct IH as [ops0 IH]. exists (ops0 ++ [TimerFires i]).
    rewrite run_ops_app, <- IH. done.
Qed.

(** X6. Whatever sequence of [beginStream], [abortActive],
    [cleanupStreamState], requests and timeouts the service goes
    through, [abort()] is called at most once on any one controller, not
    at all on the current one, and no request is issued with the signal
    of a controller that has been aborted.  This holds in particular on
    every page a visit can lead to. *)
Theorem no_controller_is_aborted_twice (c : nat) :
  let safe s :=
    (abort_count c s ≤ 1)%nat
    ∧ (currentController s = Some c → abort_count c s = 0%nat)
    ∧ (∀ pre post, trace s = pre ++ Fetch (Some c) :: post → Abort c ∉ pre) in
  (∀ ops, safe (run_ops ops init))
  ∧ (∀ parse w, App.reachable parse w → safe (api w)).
Proof.
  cbv zeta.
  assert (∀ ops s, consistent s → (abort_count c s ≤ 1)%nat →
            (∀ pre post, trace s = pre ++ Fetch (Some c) :: post → Abort c ∉ pre) →
            consistent (run_ops ops s) ∧ (abort_count c (run_ops ops s) ≤ 1)%nat
            ∧ (∀ pre post, trace (run_ops ops s) = pre ++ Fetch (Some c) :: post →
                 Abort c ∉ pre)) as Hinv.
  { induction ops as [|o ops IH]; intros s Hs Hle Hf; [done|].
    cbn [run_ops foldl]. apply IH.
    - by apply consistent_run_op.
    - by apply abort_count_le_1_step.
    - by apply fetch_before_abort_step. }
  assert (∀ ops,
            (abort_count c (run_ops ops init) ≤ 1)%nat
            ∧ (currentController (run_ops ops init) = Some c →
               abort_count c (run_ops ops init) = 0%nat)
            ∧ (∀ pre post, trace (run_ops ops init) = pre ++ Fetch (Some c) :: post →
                 Abort c ∉ pre)) as Hops.
  { intros ops. destruct (Hinv ops init consistent_init) as ([Hc _] & Hle & Hf).
    - unfold abort_count. cbn. lia.
    - intros pre post Heq. by destruct pre.
    - split; [done|]. split; [|done].
      intros Hcur. apply abort_count_zero. by apply Hc. }
  split; [done|]. intros parse w [ops ->]%reachable_api_ops. apply Hops.
Qed.

End ControllerFacts.

(* ===================================================================== *)
(** * A turn, from the send button to the page it leaves                  *)
(* ===================================================================== *)

Section TurnFacts.

Import App.
Variable parse : jstring → option Wire.payload.

(** The page [handleSendMessage] hands to the run, once past its guards. *)
Lemma handleSendMessage_run prompt uploaded w net :
  trim (apiKey (ui w)) ≠ [] →
  trim prompt ≠ [] ∨ uploaded ≠ [] →
  selectedModel (ui w) ≠ None →
  handleSendMessage parse prompt uploaded w net =
    run_chat parse
      (with_chat Chat.showTypingIndicator
         (with_chat (Chat.addMessageToChat Chat.User (trim prompt) uploaded)
            (with_regen (Regen.storeLastUserMessage
                           {| Regen.user_content := trim prompt;
                              Regen.user_images := uploaded |}) w))) net.
Proof.
  intros Hk Hp Hm. unfold handleSendMessage.
  rewrite (bool_decide_eq_false_2 _ Hk), (bool_decide_eq_false_2 _ Hm).
  destruct Hp as [Hp|Hp].
  - by rewrite (bool_decide_eq_false_2 _ Hp).
  - rewrite (bool_decide_eq_false_2 (uploaded = []) Hp). by rewrite andb_false_r.
Qed.

(** What the run leaves of the chat, whatever the handler did. *)
Lemma run_chat_chat w net :
  ∃ c : Chat.t,
    chat (run_chat parse w net) = Chat.hideTypingIndicator (Chat.setStreamingState false c)
    ∨ ∃ err, chat (run_chat parse w net) =
               Chat.addMessageToChat Chat.Assistant (js "Error: " ++ err) []
                 (Chat.hideTypingIndicator
                    (Chat.hideTypingIndicator (Chat.setStreamingState false c))).
Proof.
  unfold run_chat, runTextChat, runImageChat, finally.
  case_bool_decide; destruct (stream (ui w)).
  - destruct (handleStreamingResponse _ _ _) as [w' [err|]];
      exists (chat w'); [right; by exists (error_text err)|by left].
  - destruct (handleNonStreamingResponse _ _ _) as [w' [err|]];
      exists (chat w'); [right; by exists (error_text err)|by left].
  - destruct (handleStreamingImageResponse _ _ _) as [w' [err|]];
      exists (chat w'); [right; by exists (error_text err)|by left].
  - destruct (handleNonStreamingImageResponse _ _ _) as [w' [err|]];
      exists (chat w'); [right; by exists (error_text err)|by left].
Qed.

Lemma hideTypingIndicator_none c :
  Forall (λ e, Chat.typing_indicator e = false)
         (Chat.chatMessages (Chat.hideTypingIndicator c)).
Proof.
  unfold Chat.hideTypingIndicator. cbn. apply Forall_forall.
  by intros e [He _]%list_elem_of_filter.
Qed.

(** The run of a turn whose request fails in one of the ways listed. *)
Lemma run_chat_failure w net error :
  net = Net.Rejects error
  ∨ (∃ r body, net = Net.Resolves r ∧ stream (ui w) = true ∧ Net.ok r = false
               ∧ Net.text r = Net.Ok body
               ∧ error = Thrown.Error
                           (js "HTTP " ++ Net.status r ++ [32; 8211; 32] ++ body))
  ∨ (∃ r body, net = Net.Resolves r ∧ stream (ui w) = false
               ∧ Net.text r = Net.Ok body
               ∧ indexOf (js "application/json") (Net.content_type r) = None
               ∧ error = Thrown.Error
                           (js "Expected JSON but got " ++ [34] ++ Net.content_type r
                            ++ [34] ++ js ". Status " ++ Net.status r ++ js ". Body:"
                            ++ [LF] ++ body_excerpt body))
  ∨ (∃ r body, net = Net.Resolves r ∧ stream (ui w) = false
               ∧ Net.text r = Net.Ok body
               ∧ indexOf (js "application/json") (Net.content_type r) ≠ None
               ∧ parse body = None
               ∧ error = Thrown.Error
                           (js "Failed to parse JSON. Status " ++ Net.status r
                            ++ js ". Body (truncated):" ++ [LF] ++ body_excerpt body)) →
  run_chat parse w net =
    handleError error
      (with_chat (λ c, Chat.hideTypingIndicator (Chat.setStreamingState false
                         (Chat.setStreamingState true c)))
         (with_api (λ s, Session.fetch (stream (ui w))
                           (if stream (ui w) then Session.beginStream s else s)) w)).
Proof.
  intros Hnet. unfold run_chat, runTextChat, runImageChat, finally,
    handleStreamingResponse, handleStreamingImageResponse, streaming, readSSE,
    handleNonStreamingResponse, handleNonStreamingImageResponse, fetch_json,
    parseJsonOrThrow.
  destruct Hnet as [->|[(r & body & -> & Hs & Hok & Ht & ->)
                       |[(r & body & -> & Hs & Ht & Hct & ->)
                        |(r & body & -> & Hs & Ht & Hct & Hp & ->)]]].
  - case_bool_decide; by destruct (stream (ui w)).
  - rewrite Hs. cbn [ui with_chat]. rewrite Hok. cbn [negb]. rewrite Ht.
    by case_bool_decide.
  - rewrite Hs. cbn [ui with_chat]. rewrite Ht.
    rewrite (bool_decide_eq_true_2 _ Hct). by case_bool_decide.
  - rewrite Hs. cbn [ui with_chat]. rewrite Ht.
    rewrite (bool_decide_eq_false_2 _ Hct), Hp. by case_bool_decide.
Qed.

(** X12. In buffered mode the status of the response is not looked at:
    an answer whose body is declared as JSON and parses is handled the
    same whatever its status.  An error answer of the service (a JSON
    body without [choices]) is therefore shown and stored as
    ["[Empty response]"], where the streamed path reports
    ["HTTP <status>"]. *)
Theorem buffered_answer_status_is_not_read
    (w : world) (r : Net.response) (body : jstring) (json : Wire.payload)
    (ok' : bool) (status' : jstring) :
  Net.text r = Net.Ok body →
  indexOf (js "application/json") (Net.content_type r) ≠ None →
  parse body = Some json →
  let r' := {| Net.ok := ok'; Net.status := status';
               Net.content_type := Net.content_type r;
               Net.chunks := Net.chunks r; Net.ending := Net.ending r |} in
  handleNonStreamingResponse parse w (Net.Resolves r') =
    handleNonStreamingResponse parse w (Net.Resolves r)
  ∧ handleNonStreamingImageResponse parse w (Net.Resolves r') =
      handleNonStreamingImageResponse parse w (Net.Resolves r)
  ∧ (json = Wire.Doc [] →
     (handleNonStreamingResponse parse w (Net.Resolves r)).2 = None
     ∧ last (Chat.messageHistory
               (chat (handleNonStreamingResponse parse w (Net.Resolves r)).1)) =
         Some {| Chat.role_of := Chat.Assistant; Chat.content := empty_response;
                 Chat.images := [] |}
     ∧ last (Regen.regenerationHistory
               (regen (handleNonStreamingResponse parse w (Net.Resolves r)).1)) =
         Some {| Regen.content := empty_response; Regen.images := [] |}).
Proof.
  intros Ht Hct Hp r'.
  assert (Net.text r' = Net.Ok body) as Ht'.
  { unfold Net.text in *. cbn. by destruct (Net.ending r). }
  assert (parseJsonOrThrow parse r = Net.Ok json) as Hj.
  { unfold parseJsonOrThrow. by rewrite Ht, (bool_decide_eq_false_2 _ Hct), Hp. }
  assert (parseJsonOrThrow parse r' = Net.Ok json) as Hj'.
  { unfold parseJsonOrThrow. rewrite Ht'. cbn [Net.content_type r'].
    by rewrite (bool_decide_eq_false_2 _ Hct), Hp. }
  unfold handleNonStreamingResponse, handleNonStreamingImageResponse, fetch_json.
  rewrite Hj, Hj'. split; [done|]. split; [done|].
  intros ->. cbn. split; [done|]. by rewrite !last_snoc.
Qed.

End TurnFacts.

(* ===================================================================== *)
(** * What a streaming run writes to the page                             *)
(* ===================================================================== *)

Section RunFacts.

Import App Run.
Variable parse : jstring → option Wire.payload.

Lemma update_last_snoc {A} (P : A → bool) (f : A → A) (l : list A) (x : A) :
  P x = true → update_last P f (l ++ [x]) = l ++ [f x].
Proof.
  intros Hx. unfold update_last. rewrite reverse_snoc. cbn [update_first].
  by rewrite Hx, reverse_cons, reverse_involutive.
Qed.

Lemma in_progress_append_text log els t s :
  in_progress log els s → in_progress log els (append_text t s).
Proof.
  destruct s as [w a]. intros (Hh & He & Hc). unfold in_progress, append_text, ensure_div.
  cbn [fst snd assistantMessageDiv assistantContent] in *.
  destruct (assistantMessageDiv a) eqn:Hd;
    cbn [fst snd assistantMessageDiv assistantContent chat with_chat
         Chat.updateLastAssistantMessage Chat.with_elements Chat.messageHistory
         Chat.chatMessages Chat.addMessageToChat].
  - split; [done|]. split; [|done]. by rewrite He, update_last_snoc.
  - rewrite Hh, He, !app_nil_r. split; [done|]. split; [|done].
    by rewrite update_last_snoc.
Qed.

Lemma in_progress_push_image log els u s :
  in_progress log els s → in_progress log els (push_image u s).
Proof. by destruct s as [w a]. Qed.

Lemma in_progress_content_part log els s p :
  in_progress log els s → in_progress log els (content_part s p).
Proof.
  intros H. unfold content_part. destruct p as [p|]; [|done].
  destruct (_ && _); destruct (_ && _);
    auto using in_progress_push_image, in_progress_append_text.
Qed.

Lemma in_progress_content_parts log els d s :
  in_progress log els s → in_progress log els (content_parts d s).
Proof.
  intros H. unfold content_parts. destruct d as [d|]; [|done].
  destruct (Wire.content_of d) as [|t|ps]; try done.
  revert s H. induction ps as [|p ps IH]; intros s H; [done|].
  cbn [foldl]. by apply IH, in_progress_content_part.
Qed.

Lemma in_progress_text_onChunk log els obj s :
  in_progress log els s → in_progress log els (Text.onChunk (Data obj) s).1.
Proof.
  intros H. unfold Text.onChunk. destruct obj as [| |choices]; try done.
  cbn [fst]. apply in_progress_content_parts.
  destruct choices as [|[choice|] ?]; try done.
  destruct (Wire.delta choice) as [d|]; [|done].
  destruct (Wire.content_of d); try done. by apply in_progress_append_text.
Qed.

Lemma in_progress_delta_image log els s i :
  in_progress log els s → in_progress log els (Image.delta_image s i).
Proof.
  intros H. unfold Image.delta_image. destruct i as [i|]; [|done].
  destruct (_ && _); [|done].
  destruct s as [w a]. destruct H as (Hh & He & Hc).
  unfold in_progress, push_image, ensure_div.
  cbn [fst snd assistantMessageDiv assistantContent] in *.
  destruct (assistantMessageDiv a) eqn:Hd;
    cbn [fst snd assistantMessageDiv assistantContent chat with_chat
         Chat.messageHistory Chat.chatMessages Chat.addMessageToChat].
  - done.
  - rewrite Hh, He, !app_nil_r, (Hc eq_refl). done.
Qed.

Lemma in_progress_choice_step log els c s :
  in_progress log els s → in_progress log els (Image.choice_step c s).
Proof.
  intros H. unfold Image.choice_step. apply in_progress_content_parts.
  destruct (Wire.delta c) as [d|]; [|done].
  generalize (Wire.images d). intros l. revert s H.
  induction l as [|i l IH]; intros s H; [done|].
  cbn [foldl]. by apply IH, in_progress_delta_image.
Qed.

Lemma in_progress_image_onChunk log els obj s :
  in_progress log els s → in_progress log els (Image.onChunk (Data obj) s).1.
Proof.
  intros H. unfold Image.onChunk. destruct obj as [| |choices]; try done.
  revert s H. induction choices as [|[c|] cs IH]; intros s H; try done.
  cbn [Image.choices_loop]. by apply IH, in_progress_choice_step.
Qed.

(** The chunk callbacks of a whole body, one after the other. *)
Lemma in_progress_chunks (onChunk : chunk → state → state * option Thrown.t) onDone
    log els objs s :
  (∀ obj s, in_progress log els s → in_progress log els (onChunk (Data obj) s).1) →
  in_progress log els s →
  in_progress log els
    (foldl (λ s cb, match cb with
                    | SSE.OnChunk obj => (onChunk (Data obj) s).1
                    | SSE.OnDone err => onDone err s
                    end) s (SSE.OnChunk <$> objs)).
Proof.
  intros Hstep. revert s. induction objs as [|o objs IH]; intros s H; [done|].
  cbn [fmap list_fmap foldl]. by apply IH, Hstep.
Qed.

(** An answered streaming request, declared as an event stream: the
    state the completion callback is called in. *)
Lemma streaming_event_stream onChunk onDone w r :
  Net.ok r = true →
  indexOf (js "text/event-stream") (Net.content_type r) ≠ None →
  ∃ objs err,
    SSE.readSSE_stream parse (Net.reads r) = (SSE.OnChunk <$> objs) ++ [SSE.OnDone err]
    ∧ streaming parse onChunk onDone w (Net.Resolves r) =
        ((onDone err
            (foldl (λ s cb, match cb with
                            | SSE.OnChunk obj => (onChunk (Data obj) s).1
                            | SSE.OnDone err => onDone err s
                            end)
               (with_api (Session.fetch true) (with_api Session.beginStream w), acc_init)
               (SSE.OnChunk <$> objs))).1, None).
Proof.
  intros Hok Hct. unfold streaming, readSSE. rewrite Hok. cbn [negb].
  rewrite (bool_decide_eq_false_2 _ Hct).
  destruct (reads_shape parse SSE.pump_init r) as (objs & err & Hr).
  exists objs, err. unfold SSE.readSSE_stream. rewrite Hr. split; [done|].
  by rewrite foldl_app.
Qed.

Lemma text_onDone_page log els err s :
  in_progress log els s →
  let s' := Text.onDone err s in
  regen s'.1 =
    Regen.addResponseToHistory (assistantContent s.2) (assistantImages s.2) (regen s.1)
  ∧ api s'.1 = api s.1
  ∧ if assistantMessageDiv s.2
    then Chat.messageHistory (chat s'.1) =
           log ++ [{| Chat.role_of := Chat.Assistant;
                      Chat.content := assistantContent s.2;
                      Chat.images := assistantImages s.2 |}]
         ∧ Chat.chatMessages (chat s'.1) =
             els ++ [shown (assistantContent s.2) (assistantImages s.2)]
    else assistantContent s.2 = []
         ∧ Chat.messageHistory (chat s'.1) = overwrite_last [] (assistantImages s.2) log
         ∧ Chat.chatMessages (chat s'.1) = els.
Proof.
  destruct s as [w a]. intros (Hh & He & Hc).
  cbn [fst snd] in *. unfold Text.onDone.
  destruct (assistantMessageDiv a) eqn:Hd; rewrite ?andb_true_r, ?andb_false_r.
  - case_bool_decide as Hi;
      cbn [fst regen api chat with_chat with_regen Chat.updateLastAssistantMessage
           Chat.with_elements Chat.with_history Chat.messageHistory Chat.chatMessages];
      rewrite Hh, reverse_snoc, reverse_involutive.
    + split; [done|]. split; [done|]. split; [done|].
      unfold Chat.updateLastAssistantMessage. cbn. by rewrite He, update_last_snoc.
    + split; [done|]. split; [done|]. split; [done|].
      cbn. rewrite He.
      destruct (assistantImages a); [done|]. by destruct Hi.
  - cbn [fst regen api chat with_chat with_regen Chat.with_history Chat.messageHistory
         Chat.chatMessages].
    rewrite app_nil_r in Hh, He. rewrite (Hc eq_refl), Hh.
    split; [done|]. split; [done|]. split; [done|]. unfold overwrite_last.
    destruct (reverse log); cbn; by rewrite ?Hh, ?He.
Qed.

Lemma image_onDone_page log els err s :
  in_progress log els s →
  let s' := Image.onDone err s in
  let text := or_else (assistantContent s.2) (generated (length (assistantImages s.2))) in
  regen s'.1 = Regen.addResponseToHistory text (assistantImages s.2) (regen s.1)
  ∧ api s'.1 = api s.1
  ∧ Chat.messageHistory (chat s'.1) =
      log ++ (if assistantMessageDiv s.2 then [placeholder] else [])
  ∧ Chat.chatMessages (chat s'.1) =
      els ++ (if assistantMessageDiv s.2
              then [if bool_decide (assistantImages s.2 ≠ [])
                    then shown text (assistantImages s.2)
                    else shown (assistantContent s.2) []]
              else []).
Proof.
  destruct s as [w a]. intros (Hh & He & Hc).
  cbn [fst snd] in *. unfold Image.onDone.
  destruct (assistantMessageDiv a) eqn:Hd; rewrite ?andb_true_r, ?andb_false_r.
  - case_bool_decide as Hi;
      cbn [fst regen api chat with_chat with_regen Chat.updateLastAssistantMessage
           Chat.with_elements Chat.messageHistory Chat.chatMessages].
    + split; [done|]. split; [done|]. split; [done|]. by rewrite He, update_last_snoc.
    + done.
  - done.
Qed.

Lemma generated_not_empty n : generated n ≠ [].
Proof. done. Qed.

(** The page a turn's run starts from. *)
Lemma last_without_indicator (els : list Chat.element) (e : Chat.element) :
  Chat.typing_indicator e = false →
  last (filter (λ e, Chat.typing_indicator e = false) (els ++ [e])) = Some e.
Proof.
  intros He. rewrite filter_app, filter_cons, filter_nil.
  destruct (decide (Chat.typing_indicator e = false)); [|done]. apply last_snoc.
Qed.

Lemma filter_twice {A} (P : A → Prop) `{∀ x, Decision (P x)} (l : list A) :
  filter P (filter P l) = filter P l.
Proof.
  induction l as [|x l IH]; [done|]. rewrite filter_cons.
  destruct (decide (P x)) as [Hx|Hx]; [|done].
  rewrite filter_cons. destruct (decide (P x)); [|done]. by rewrite IH.
Qed.

(** X11. A streamed turn that is answered with an event stream ends
    with the service still taken to be streaming: nothing on the way to
    completion calls [cleanupStreamState], so the controller of the
    finished request stays the current one, [streamingActive] stays
    [true], and the timeout set by [beginStream] is still pending; when
    it comes due it calls [abort()] on the finished request's
    controller. *)
Theorem completed_stream_stays_active
    (prompt : jstring) (uploaded : list jstring) (w : world) (r : Net.response) :
  trim (apiKey (ui w)) ≠ [] →
  trim prompt ≠ [] ∨ uploaded ≠ [] →
  selectedModel (ui w) ≠ None →
  stream (ui w) = true →
  Net.ok r = true →
  indexOf (js "text/event-stream") (Net.content_type r) ≠ None →
  let s' := api (handleSendMessage parse prompt uploaded w (Net.Resolves r)) in
  let c := Session.created (api w) in
  Session.currentController s' = Some c
  ∧ Session.streamingActive s' = true
  ∧ Session.timers s' = Session.timers (api w) ++ [c]
  ∧ Session.trace (Session.fire_timer (length (Session.timers (api w))) s') =
      Session.trace s' ++ [Session.Abort c].
Proof.
  intros Hk Hp Hm Hs Hok Hct s' c.
  assert (s' = Session.fetch true (Session.beginStream (api w))) as ->.
  { unfold s'. rewrite handleSendMessage_run by done.
    unfold run_chat, runTextChat, runImageChat, finally,
      handleStreamingResponse, handleStreamingImageResponse.
    cbn [ui with_chat with_regen]. rewrite Hs.
    set (w0 := with_chat (Chat.setStreamingState true) _).
    case_bool_decide.
    - pose proof (handleStreamingResponse_outcome parse w0 (Net.Resolves r)) as Ho.
      unfold handleStreamingResponse in *.
      destruct (streaming_event_stream Text.onChunk Text.onDone w0 r Hok Hct)
        as (objs & err & _ & Heq).
      rewrite Heq in Ho |- *. cbn [fst snd api with_chat]. destruct Ho as [Ho _].
      by rewrite Ho.
    - pose proof (handleStreamingImageResponse_outcome parse w0 (Net.Resolves r)) as Ho.
      unfold handleStreamingImageResponse in *.
      destruct (streaming_event_stream Image.onChunk Image.onDone w0 r Hok Hct)
        as (objs & err & _ & Heq).
      rewrite Heq in Ho |- *. cbn [fst snd api with_chat]. destruct Ho as [Ho _].
      by rewrite Ho. }
  rewrite beginStream_state. unfold c. cbn.
  split; [done|]. split; [done|]. split; [done|].
  rewrite fire_timer_state. cbn.
  rewrite list_lookup_middle by done. done.
Qed.

End RunFacts.

(* ===================================================================== *)
(** * Sample turns                                                        *)
(* ===================================================================== *)

Section TurnInstances.

Import App Sample Run.

Local Ltac guards :=
  first [ by (vm_compute; discriminate)
        | by (left; vm_compute; discriminate)
        | reflexivity ].

(** The stream state after the turn that received ["Hello"]. *)
Lemma completed_stream_stays_active_witness :
  let s' := api (handleSendMessage echo (js "Say hello") [] (page true)
                   (event_stream [frame "Hel"; frame "lo"; frame "[DONE]"])) in
  Session.currentController s' = Some 0%nat
  ∧ Session.streamingActive s' = true
  ∧ Session.timers s' = [0%nat]
  ∧ Session.trace (Session.fire_timer 0 s') =
      [Session.New 0; Session.Fetch (Some 0%nat); Session.Abort 0].
Proof.
  intros s'.
  destruct (completed_stream_stays_active echo (js "Say hello") [] (page true)
              {| Net.ok := true; Net.status := js "200";
                 Net.content_type := js "text/event-stream";
                 Net.chunks := [frame "Hel"; frame "lo"; frame "[DONE]"];
                 Net.ending := Net.EndOfBody |})
    as (H1 & H2 & H3 & H4).
  - guards.
  - guards.
  - guards.
  - reflexivity.
  - reflexivity.
  - guards.
  - split; [exact H1|]. split; [exact H2|]. split; [exact H3|].
    etransitivity; [exact H4|]. reflexivity.
Defined.

(** An error answer of the service, status 401, in buffered mode: the
    stand-in parser reads a body without choices when it starts with a
    brace. *)
Lemma buffered_answer_status_is_not_read_witness :
  let parse := λ t : jstring, match t with 123 :: _ => Some (Wire.Doc []) | _ => echo t end in
  let r := {| Net.ok := false; Net.status := js "401";
              Net.content_type := js "application/json";
              Net.chunks := [bytes "{}"]; Net.ending := Net.EndOfBody |} in
  last (Chat.messageHistory
          (chat (handleNonStreamingResponse parse (page false) (Net.Resolves r)).1))
  = Some {| Chat.role_of := Chat.Assistant; Chat.content := empty_response;
            Chat.images := [] |}.
Proof.
  intros parse r.
  destruct (buffered_answer_status_is_not_read parse (page false) r (js "{}") (Wire.Doc [])
              true (js "200")) as (_ & _ & H).
  - reflexivity.
  - guards.
  - reflexivity.
  - destruct (H eq_refl) as (_ & Hlast & _). exact Hlast.
Defined.

End TurnInstances.

(* ===================================================================== *)
(** * What navigation shows                                               *)
(* ===================================================================== *)

Section DisplayFacts.

Import View.

Lemma head_filter_update_first {A} (P : A → bool) (Q : A → Prop) `{∀ x, Decision (Q x)}
    (f : A → A) (l : list A) :
  (∀ x, P x = true ↔ Q x) → (∀ x, Q x → Q (f x)) →
  head (filter Q (update_first P f l)) = f <$> head (filter Q l).
Proof.
  intros HPQ Hf. induction l as [|x l IH]; [done|]. cbn [update_first].
  destruct (P x) eqn:Hx.
  - apply HPQ in Hx. rewrite !filter_cons.
    destruct (decide (Q (f x))) as [|Hn]; [|by destruct Hn; apply Hf].
    by destruct (decide (Q x)).
  - rewrite !filter_cons. destruct (decide (Q x)) as [Hq|Hq].
    + apply HPQ in Hq. congruence.
    + done.
Qed.

Lemma last_filter_update_last {A} (P : A → bool) (Q : A → Prop) `{∀ x, Decision (Q x)}
    (f : A → A) (l : list A) :
  (∀ x, P x = true ↔ Q x) → (∀ x, Q x → Q (f x)) →
  last (filter Q (update_last P f l)) = f <$> last (filter Q l).
Proof.
  intros HPQ Hf. unfold update_last.
  rewrite <- (reverse_involutive (filter Q (reverse _))), last_reverse.
  rewrite <- filter_reverse, reverse_involutive.
  rewrite (head_filter_update_first P Q f _ HPQ Hf).
  by rewrite filter_reverse, head_reverse.
Qed.

Lemma is_assistant_element_spec e :
  Chat.is_assistant_element e = true ↔ Chat.el_role e = Chat.Assistant.
Proof. unfold Chat.is_assistant_element. apply bool_decide_eq_true. Qed.

Lemma is_assistant_spec m : Chat.is_assistant m = true ↔ Chat.role_of m = Chat.Assistant.
Proof. unfold Chat.is_assistant. apply bool_decide_eq_true. Qed.

(** [displayCurrentResponse] shows the version under the cursor. *)
Lemma displayCurrentResponse_displays w v :
  Regen.getCurrentResponse (regen w) = Some v →
  displays (chat (displayCurrentResponse w)) v.
Proof.
  intros Hv. unfold displayCurrentResponse, updateChatHistoryWithCurrentResponse.
  rewrite Hv. cbn [regen with_chat]. rewrite Hv. cbn [chat with_chat].
  unfold Chat.updateLastAssistantMessage. split.
  - intros e. cbn [Chat.with_history Chat.with_elements Chat.chatMessages].
    rewrite (last_filter_update_last Chat.is_assistant_element _ _ _
               is_assistant_element_spec) by done.
    destruct (last _) as [e0|]; [|done]. by intros [= <-].
  - intros m. cbn [Chat.with_history Chat.with_elements Chat.messageHistory].
    rewrite (last_filter_update_last Chat.is_assistant _ _ _ is_assistant_spec) by done.
    destruct (last _) as [m0|]; [|done]. by intros [= <-].
Qed.

Lemma with_index_same r : Regen.with_index (Regen.currentResponseIndex r) r = r.
Proof. by destruct r. Qed.

(** X13. When [showPreviousResponse] or [showNextResponse] moves the
    cursor, the version it moves to is the one the page then shows: the
    last assistant message takes its text and images, and so does the
    last assistant entry of the log.  The opposite step leads back to
    the cursor the move started from, and shows the version that was
    current before. *)
Theorem navigation_displays_the_version_under_the_cursor (w : world) :
  Regen.cursor_ok (regen w) →
  let i := Regen.currentResponseIndex (regen w) in
  let moved (step back : world → world) (j : Z) :=
    ∃ v v0,
      Regen.regenerationHistory (regen w) !! Z.to_nat j = Some v
      ∧ Regen.getCurrentResponse (regen w) = Some v0
      ∧ Regen.currentResponseIndex (regen (step w)) = j
      ∧ displays (chat (step w)) v
      ∧ regen (back (step w)) = regen w
      ∧ displays (chat (back (step w))) v0 in
  (Regen.canGoToPrevious (regen w) = true →
   moved showPreviousResponse showNextResponse (i - 1)%Z)
  ∧ (Regen.canGoToNext (regen w) = true →
     moved showNextResponse showPreviousResponse (i + 1)%Z).
Proof.
  intros Hok i moved.
  assert (∀ j, (0 ≤ j < Z.of_nat (length (Regen.regenerationHistory (regen w))))%Z →
            ∃ v, Regen.regenerationHistory (regen w) !! Z.to_nat j = Some v
                 ∧ Regen.getCurrentResponse (Regen.with_index j (regen w)) = Some v) as Hat.
  { intros j Hj. destruct (lookup_lt_is_Some_2 (Regen.regenerationHistory (regen w))
                             (Z.to_nat j)) as [v Hv]; [lia|].
    exists v. split; [done|]. by rewrite getCurrentResponse_in_bounds. }
  split; intros Hcan.
  - unfold Regen.canGoToPrevious in Hcan. apply Z.ltb_lt in Hcan. fold i in Hcan.
    assert (Regen.regenerationHistory (regen w) ≠ []) as Hne.
    { intros Hnil. unfold Regen.cursor_ok in Hok. rewrite Hnil in Hok. fold i in Hok. lia. }
    pose proof (cursor_ok_nonempty _ Hne Hok) as Hb. fold i in Hb.
    destruct (Hat (i - 1)%Z ltac:(lia)) as (v & Hv & Hcur).
    destruct (Hat i ltac:(lia)) as (v0 & _ & Hcur0).
    unfold i in Hcur0 at 1. rewrite with_index_same in Hcur0.
    assert (regen (showPreviousResponse w) = Regen.with_index (i - 1) (regen w)) as Hr.
    { rewrite regen_showPreviousResponse. unfold Regen.canGoToPrevious. fold i.
      by destruct (Z.ltb_spec 0 i); [|lia]. }
    assert (showPreviousResponse w =
            displayCurrentResponse (with_regen (Regen.with_index (i - 1)) w)) as Hs.
    { unfold showPreviousResponse, Regen.canGoToPrevious. fold i.
      by destruct (Z.ltb_spec 0 i); [|lia]. }
    assert (Regen.canGoToNext (regen (showPreviousResponse w)) = true) as Hn.
    { rewrite Hr. unfold Regen.canGoToNext. cbn. apply Z.ltb_lt. lia. }
    assert (regen (showNextResponse (showPreviousResponse w)) = regen w) as Hback.
    { rewrite regen_showNextResponse, Hn, Hr. cbn.
      unfold Regen.with_index. cbn. replace (i - 1 + 1)%Z with i by lia.
      unfold i. by destruct (regen w). }
    exists v, v0. split; [done|]. split; [done|]. split; [by rewrite Hr|].
    split; [rewrite Hs; by apply displayCurrentResponse_displays|]. split; [done|].
    unfold showNextResponse. rewrite Hn. apply displayCurrentResponse_displays.
    cbn [regen with_regen]. rewrite Hr. cbn.
    replace (i - 1 + 1)%Z with i by lia.
    change (Regen.getCurrentResponse
              (Regen.with_index i (Regen.with_index (i - 1) (regen w))) = Some v0).
    rewrite <- Hcur0. unfold i. by destruct (regen w).
  - unfold Regen.canGoToNext in Hcan. apply Z.ltb_lt in Hcan. fold i in Hcan.
    assert (Regen.regenerationHistory (regen w) ≠ []) as Hne.
    { intros Hnil. rewrite Hnil in Hcan. cbn in Hcan.
      unfold Regen.cursor_ok in Hok. rewrite Hnil in Hok. fold i in Hok. lia. }
    pose proof (cursor_ok_nonempty _ Hne Hok) as Hb. fold i in Hb.
    destruct (Hat (i + 1)%Z ltac:(lia)) as (v & Hv & Hcur).
    destruct (Hat i ltac:(lia)) as (v0 & _ & Hcur0).
    unfold i in Hcur0 at 1. rewrite with_index_same in Hcur0.
    assert (regen (showNextResponse w) = Regen.with_index (i + 1) (regen w)) as Hr.
    { rewrite regen_showNextResponse. unfold Regen.canGoToNext. fold i.
      by destruct (Z.ltb_spec i (Z.of_nat (length (Regen.regenerationHistory (regen w))) - 1));
        [|lia]. }
    assert (showNextResponse w =
            displayCurrentResponse (with_regen (Regen.with_index (i + 1)) w)) as Hs.
    { unfold showNextResponse, Regen.canGoToNext. fold i.
      by destruct (Z.ltb_spec i (Z.of_nat (length (Regen.regenerationHistory (regen w))) - 1));
        [|lia]. }
    assert (Regen.canGoToPrevious (regen (showNextResponse w)) = true) as Hn.
    { rewrite Hr. unfold Regen.canGoToPrevious. cbn. apply Z.ltb_lt. lia. }
    assert (regen (showPreviousResponse (showNextResponse w)) = regen w) as Hback.
    { rewrite regen_showPreviousResponse, Hn, Hr. cbn.
      unfold Regen.with_index. cbn. replace (i + 1 - 1)%Z with i by lia.
      unfold i. by destruct (regen w). }
    exists v, v0. split; [done|]. split; [done|]. split; [by rewrite Hr|].
    split; [rewrite Hs; by apply displayCurrentResponse_displays|]. split; [done|].
    unfold showPreviousResponse. rewrite Hn. apply displayCurrentResponse_displays.
    cbn [regen with_regen]. rewrite Hr. cbn.
    replace (i + 1 - 1)%Z with i by lia.
    change (Regen.getCurrentResponse
              (Regen.with_index i (Regen.with_index (i + 1) (regen w))) = Some v0).
    rewrite <- Hcur0. unfold i. by destruct (regen w).
Qed.

End DisplayFacts.

Section DisplayInstances.

Import App Sample View.

(** A step forward from the first of two versions, and back. *)
Lemma navigation_displays_the_version_under_the_cursor_witness :
  displays (chat (showNextResponse two_versions_first_shown))
    {| Regen.content := js "B"; Regen.images := [] |}
  ∧ regen (showPreviousResponse (showNextResponse two_versions_first_shown))
    = regen two_versions_first_shown.
Proof.
  assert (Regen.cursor_ok (regen two_versions_first_shown)) as Hok
    by (vm_compute; split; [discriminate|reflexivity]).
  destruct (navigation_displays_the_version_under_the_cursor two_versions_first_shown Hok)
    as [_ Hnext].
  destruct (Hnext eq_refl) as (v & v0 & Hv & _ & _ & Hshown & Hback & _).
  vm_compute in Hv. injection Hv as <-.
  split; [exact Hshown|exact Hback].
Defined.

End DisplayInstances.

(* ===================================================================== *)
(** * The page and the log stay in step                                   *)
(* ===================================================================== *)

Section AlignmentFacts.

Import App View.
Variable parse : jstring → option Wire.payload.

Lemma fmap_filter_update_first {A B} (P : A → bool) (Q : A → Prop) `{∀ x, Decision (Q x)}
    (g : A → B) (f : A → A) (l : list A) :
  (∀ x, g (f x) = g x) → (∀ x, Q (f x) ↔ Q x) →
  g <$> filter Q (update_first P f l) = g <$> filter Q l.
Proof.
  intros Hg Hq. induction l as [|x l IH]; [done|]. cbn [update_first].
  destruct (P x).
  - rewrite !filter_cons. destruct (Hq x) as [Hq1 Hq2].
    destruct (decide (Q (f x))) as [H1|H1]; destruct (decide (Q x)) as [H2|H2].
    + cbn. by rewrite Hg.
    + by destruct H2; apply Hq1.
    + by destruct H1; apply Hq2.
    + done.
  - rewrite !filter_cons. destruct (decide (Q x)); [|done]. cbn. by rewrite IH.
Qed.

Lemma fmap_filter_update_last {A B} (P : A → bool) (Q : A → Prop) `{∀ x, Decision (Q x)}
    (g : A → B) (f : A → A) (l : list A) :
  (∀ x, g (f x) = g x) → (∀ x, Q (f x) ↔ Q x) →
  g <$> filter Q (update_last P f l) = g <$> filter Q l.
Proof.
  intros Hg Hq. unfold update_last.
  rewrite <- (reverse_involutive (filter Q (reverse _))), <- filter_reverse, reverse_involutive.
  rewrite fmap_reverse, (fmap_filter_update_first P Q g f _ Hg Hq).
  by rewrite <- fmap_reverse, <- filter_reverse, reverse_involutive.
Qed.

Lemma fmap_update_last {A B} (P : A → bool) (g : A → B) (f : A → A) (l : list A) :
  (∀ x, g (f x) = g x) → g <$> update_last P f l = g <$> l.
Proof.
  intros Hg.
  pose proof (fmap_filter_update_last P (λ _, True) g f l Hg ltac:(done)) as H.
  assert (∀ l' : list A, filter (λ _, True) l' = l') as Hall.
  { induction l' as [|x l' IH]; [done|]. by rewrite filter_cons, IH. }
  by rewrite !Hall in H.
Qed.

Lemma aligned_addMessageToChat r t i c :
  aligned c → aligned (Chat.addMessageToChat r t i c).
Proof.
  unfold aligned. intros H. cbn. rewrite filter_app, !fmap_app, H. done.
Qed.

Lemma aligned_hideTypingIndicator c : aligned c → aligned (Chat.hideTypingIndicator c).
Proof. unfold aligned. intros H. cbn. by rewrite filter_twice. Qed.

Lemma aligned_showTypingIndicator c : aligned c → aligned (Chat.showTypingIndicator c).
Proof.
  unfold aligned. intros H. cbn. rewrite filter_app, filter_twice. cbn.
  by rewrite app_nil_r.
Qed.

Lemma aligned_setStreamingState b c : aligned c → aligned (Chat.setStreamingState b c).
Proof. done. Qed.

Lemma aligned_updateLastAssistantMessage t i c :
  aligned c → aligned (Chat.updateLastAssistantMessage t i c).
Proof.
  unfold aligned. intros H. cbn.
  by rewrite (fmap_filter_update_last _ (λ e : Chat.element, Chat.typing_indicator e = false)).
Qed.

Lemma settled_hideTypingIndicator c : settled (Chat.hideTypingIndicator c).
Proof. apply hideTypingIndicator_none. Qed.

Lemma settled_updateLastAssistantMessage t i c :
  settled c → settled (Chat.updateLastAssistantMessage t i c).
Proof.
  unfold settled. intros H. cbn. unfold update_last.
  apply Forall_reverse. apply Forall_reverse in H.
  induction H as [|x l Hx Hl IH]; [done|]. cbn [update_first].
  destruct (Chat.is_assistant_element x); by constructor.
Qed.

Lemma aligned_ensure_div s : aligned (chat s.1) → aligned (chat (ensure_div s).1).
Proof.
  intros H. unfold ensure_div. destruct (assistantMessageDiv s.2); [done|].
  by apply aligned_addMessageToChat.
Qed.

Lemma aligned_append_text t s : aligned (chat s.1) → aligned (chat (append_text t s).1).
Proof.
  intros H. unfold append_text. cbn [fst chat with_chat].
  apply aligned_updateLastAssistantMessage.
  by apply (aligned_ensure_div (s.1, _)).
Qed.

Lemma aligned_content_part s p : aligned (chat s.1) → aligned (chat (content_part s p).1).
Proof.
  intros H. unfold content_part. destruct p as [p|]; [|done].
  destruct (_ && _); destruct (_ && _); cbn [push_image fst];
    auto using aligned_append_text.
Qed.

Lemma aligned_content_parts d s : aligned (chat s.1) → aligned (chat (content_parts d s).1).
Proof.
  intros H. unfold content_parts. destruct d as [d|]; [|done].
  destruct (Wire.content_of d) as [|t|ps]; try done.
  revert s H. induction ps as [|p ps IH]; intros s H; [done|].
  cbn [foldl]. by apply IH, aligned_content_part.
Qed.

Lemma aligned_text_onChunk c s : aligned (chat s.1) → aligned (chat (Text.onChunk c s).1.1).
Proof.
  intros H. unfold Text.onChunk. destruct c as [[| |choices]|[| |choices]]; try done.
  - cbn [fst chat with_chat]. by apply aligned_addMessageToChat.
  - cbn [fst]. apply aligned_content_parts.
    destruct choices as [|[choice|] ?]; try done.
    destruct (Wire.delta choice) as [d|]; [|done].
    destruct (Wire.content_of d); try done. by apply aligned_append_text.
Qed.

Lemma aligned_text_onDone err s : aligned (chat s.1) → aligned (chat (Text.onDone err s).1).
Proof.
  destruct s as [w a]. intros H. unfold Text.onDone. cbn [fst chat with_regen].
  set (w1 := if _ && _ then _ else w).
  assert (aligned (chat w1)) as H1.
  { unfold w1. destruct (_ && _); [|done]. by apply aligned_updateLastAssistantMessage. }
  clearbody w1. cbn [chat with_chat].
  destruct (reverse (Chat.messageHistory (chat w1))) as [|last before] eqn:E; [done|].
  unfold aligned in *. cbn. rewrite H1.
  apply (f_equal reverse) in E. rewrite reverse_involutive in E. rewrite E.
  by rewrite reverse_cons, !fmap_app.
Qed.

Lemma aligned_delta_image s i :
  aligned (chat s.1) → aligned (chat (Image.delta_image s i).1).
Proof.
  intros H. unfold Image.delta_image. destruct i as [i|]; [|done].
  destruct (_ && _); [|done]. by apply (aligned_ensure_div (push_image _ s)).
Qed.

Lemma aligned_choice_step c s :
  aligned (chat s.1) → aligned (chat (Image.choice_step c s).1).
Proof.
  intros H. unfold Image.choice_step. apply aligned_content_parts.
  destruct (Wire.delta c) as [d|]; [|done].
  generalize (Wire.images d). intros l. revert s H.
  induction l as [|i l IH]; intros s H; [done|].
  cbn [foldl]. by apply IH, aligned_delta_image.
Qed.

Lemma aligned_image_onChunk c s :
  aligned (chat s.1) → aligned (chat (Image.onChunk c s).1.1).
Proof.
  intros H. unfold Image.onChunk. destruct c as [[| |choices]|[| |choices]]; try done.
  - destruct (Image.total_images choices []); [|done].
    cbn [fst chat with_chat]. by apply aligned_addMessageToChat.
  - revert s H. induction choices as [|[c|] cs IH]; intros s H; try done.
    cbn [Image.choices_loop]. by apply IH, aligned_choice_step.
Qed.

Lemma aligned_image_onDone err s :
  aligned (chat s.1) → aligned (chat (Image.onDone err s).1).
Proof.
  destruct s as [w a]. intros H. unfold Image.onDone. cbn [fst chat with_regen].
  destruct (_ && _); [|done]. by apply aligned_updateLastAssistantMessage.
Qed.

(** What both callbacks keep, [readSSE] keeps. *)
Lemma readSSE_keeps (I : state → Prop) onChunk onDone r s :
  (∀ c s, I s → I (onChunk c s).1) → (∀ err s, I s → I (onDone err s)) →
  I s → I (readSSE parse r onChunk onDone s).1.
Proof.
  intros Hc Hd Hs. unfold readSSE. destruct (negb (Net.ok r)).
  { by destruct (Net.text r). }
  case_bool_decide.
  - destruct (parseJsonOrThrow parse r) as [json|err]; [|done].
    specialize (Hc (Fallback json) s Hs).
    destruct (onChunk (Fallback json) s) as [s1 [err|]]; [done|]. by apply Hd.
  - cbn [fst]. generalize (SSE.readSSE_stream parse (Net.reads r)). intros cbs.
    revert s Hs. induction cbs as [|cb cbs IH]; intros s Hs; [done|].
    cbn [foldl]. apply IH. destruct cb; [by apply Hc|by apply Hd].
Qed.

Lemma aligned_streaming onChunk onDone w net :
  (∀ c s, aligned (chat s.1) → aligned (chat (onChunk c s).1.1)) →
  (∀ err s, aligned (chat s.1) → aligned (chat (onDone err s).1)) →
  aligned (chat w) → aligned (chat (streaming parse onChunk onDone w net).1).
Proof.
  intros Hc Hd Hw. unfold streaming. destruct net as [err|r]; [done|].
  pose proof (readSSE_keeps (λ s, aligned (chat s.1)) onChunk onDone r
                (with_api (Session.fetch true) (with_api Session.beginStream w), acc_init)
                Hc Hd Hw) as H.
  by destruct (readSSE _ _ _ _ _).
Qed.

(** A run keeps the page and the log in step, and ends without a typing
    indicator. *)
Lemma aligned_run_chat w net :
  aligned (chat w) →
  aligned (chat (run_chat parse w net)) ∧ settled (chat (run_chat parse w net)).
Proof.
  intros Hw. unfold run_chat, runTextChat, runImageChat.
  set (w1 := with_chat (Chat.setStreamingState true) w).
  assert (aligned (chat w1)) as H1 by done.
  assert (∀ r : world * option Thrown.t, aligned (chat r.1) →
            let r' := finally r in
            aligned (chat match r'.2 with Some err => handleError err r'.1 | None => r'.1 end)
            ∧ settled (chat match r'.2 with Some err => handleError err r'.1 | None => r'.1 end))
    as Hfin.
  { intros [w' thrown] H. cbn [finally fst snd].
    assert (aligned (chat (with_chat (λ c, Chat.hideTypingIndicator
                             (Chat.setStreamingState false c)) w'))) as Ha
      by (by apply aligned_hideTypingIndicator).
    destruct thrown as [err|].
    - unfold handleError. cbn [chat with_chat with_regen with_api]. split.
      + by apply aligned_addMessageToChat, aligned_hideTypingIndicator.
      + unfold settled. cbn [Chat.addMessageToChat Chat.chatMessages].
        apply Forall_app. split; [apply hideTypingIndicator_none|by constructor].
    - split; [done|]. apply settled_hideTypingIndicator. }
  assert (∀ r : world * option Thrown.t,
            match (finally r).2 with
            | Some err => handleError err (finally r).1
            | None => (finally r).1
            end = (let '(w, thrown) := finally r in
                   match thrown with Some err => handleError err w | None => w end)) as Heq.
  { by intros [w' [err|]]. }
  case_bool_decide; destruct (stream (ui w)); rewrite <- Heq; apply Hfin.
  - by apply aligned_streaming;
      auto using aligned_text_onChunk, aligned_text_onDone.
  - unfold handleNonStreamingResponse, fetch_json. destruct net as [err|r]; [done|].
    destruct (parseJsonOrThrow parse r) as [[| |choices]|err]; try done;
      cbn [fst chat with_chat with_regen]; by apply aligned_addMessageToChat.
  - by apply aligned_streaming;
      auto using aligned_image_onChunk, aligned_image_onDone.
  - unfold handleNonStreamingImageResponse, fetch_json. destruct net as [err|r]; [done|].
    destruct (parseJsonOrThrow parse r) as [[| |choices]|err]; try done.
    + cbn [fst chat with_chat with_regen]. by apply aligned_addMessageToChat.
    + destruct (Image.total_images choices []); [|done].
      cbn [fst chat with_chat with_regen]. by apply aligned_addMessageToChat.
Qed.

Lemma filter_all {A} (P : A → Prop) `{∀ x, Decision (P x)} (l : list A) :
  Forall P l → filter P l = l.
Proof.
  induction 1 as [|x l Hx _ IH]; [done|]. rewrite filter_cons.
  destruct (decide (P x)); [by rewrite IH|done].
Qed.

Lemma remove_last_snoc {A} (P : A → bool) (l : list A) (x : A) :
  P x = true → remove_last P (l ++ [x]) = l.
Proof.
  intros Hx. unfold remove_last. rewrite reverse_snoc. cbn [remove_first].
  by rewrite Hx, reverse_involutive.
Qed.

(** The message [handleRegenerateResponse] takes off the page is the
    one whose entry it takes off the log. *)
Lemma aligned_drop_last_answer (c : Chat.t) last before :
  aligned c → settled c →
  reverse (Chat.messageHistory c) = last :: before →
  Chat.is_assistant last = true →
  let c' := Chat.with_elements
              (remove_last Chat.is_assistant_element (Chat.chatMessages c))
              (Chat.with_history (reverse before) c) in
  aligned c' ∧ settled c'.
Proof.
  intros Ha Hs Hrev Hlast c'. unfold aligned, settled in *.
  rewrite (filter_all _ _ Hs) in Ha.
  apply (f_equal reverse) in Hrev. rewrite reverse_involutive, reverse_cons in Hrev.
  rewrite Hrev, fmap_app in Ha. cbn [fmap list_fmap] in Ha.
  unfold c'. cbn [Chat.with_elements Chat.with_history Chat.chatMessages Chat.messageHistory].
  clear c' Hrev. remember (Chat.chatMessages c) as els eqn:Ee. clear Ee.
  destruct els as [|e0 els0 _] using rev_ind.
  { cbn in Ha. by destruct (Chat.role_of <$> reverse before). }
  rewrite fmap_app in Ha. cbn [fmap list_fmap] in Ha.
  apply app_inj_tail in Ha as [Hroles He].
  apply is_assistant_spec in Hlast. rewrite Hlast in He.
  rewrite remove_last_snoc by (by apply is_assistant_element_spec).
  apply Forall_app in Hs as [Hs _].
  split; [|done]. by rewrite (filter_all _ _ Hs).
Qed.

Lemma settled_displayCurrentResponse w :
  settled (chat w) → settled (chat (displayCurrentResponse w)).
Proof.
  intros H. unfold displayCurrentResponse, updateChatHistoryWithCurrentResponse.
  destruct (Regen.getCurrentResponse (regen w)) as [v|] eqn:Hv; [|done].
  cbn [regen with_chat]. rewrite Hv. cbn [chat with_chat].
  by apply (settled_updateLastAssistantMessage _ _ (chat w)).
Qed.

Lemma aligned_displayCurrentResponse w :
  aligned (chat w) → aligned (chat (displayCurrentResponse w)).
Proof.
  intros H. unfold displayCurrentResponse, updateChatHistoryWithCurrentResponse.
  destruct (Regen.getCurrentResponse (regen w)) as [v|] eqn:Hv; [|done].
  cbn [regen with_chat]. rewrite Hv. cbn [chat with_chat].
  apply (aligned_updateLastAssistantMessage (Regen.content v) (Regen.images v)) in H.
  unfold aligned in *. cbn [Chat.with_history Chat.chatMessages Chat.messageHistory].
  rewrite H. cbn [Chat.updateLastAssistantMessage Chat.with_elements Chat.messageHistory].
  by rewrite fmap_update_last.
Qed.

(** X14. On every page a visit can lead to, the messages on the page
    and the entries of the log correspond one to one: no typing
    indicator is left, there are as many messages as entries, and the
    message and the entry at the same position have the same role.
    This is what [findMessageIndex] relies on when it uses the position
    of a message on the page as an index into the log. *)
Theorem page_and_log_stay_in_step (w : world) :
  reachable parse w →
  settled (chat w)
  ∧ Chat.el_role <$> Chat.chatMessages (chat w) = Chat.role_of <$> Chat.messageHistory (chat w)
  ∧ (∀ el e, Chat.chatMessages (chat w) !! el = Some e →
       ∃ m, Chat.messageHistory (chat w) !! el = Some m ∧ Chat.role_of m = Chat.el_role e).
Proof.
  intros Hreach.
  assert (aligned (chat w) ∧ settled (chat w)) as [Ha Hs].
  { induction Hreach as [u|u w _ IH|prompt uploaded net w _ IH|net w _ IH
                        |w _ IH|w _ IH|w _ IH|w _ IH|i w _ IH]; try done.
    - split; [done|]. by apply Forall_nil.
    - destruct IH as [Ha Hs]. unfold handleSendMessage.
      repeat (case_bool_decide || destruct (_ && _)); try done.
      all: apply aligned_run_chat; cbn [chat with_chat with_regen];
        by apply aligned_showTypingIndicator, aligned_addMessageToChat.
    - destruct IH as [Ha Hs]. unfold regenerateLastResponse, handleRegenerateResponse.
      destruct (Regen.lastUserMessage (regen w)); [|done].
      destruct (_ || _); [done|].
      apply aligned_run_chat. cbn [chat with_chat]. apply aligned_showTypingIndicator.
      destruct (reverse (Chat.messageHistory (chat w))) as [|last before] eqn:Hrev; [done|].
      destruct (Chat.is_assistant last) eqn:Hlast; [|done].
      cbn [chat with_chat]. by apply (aligned_drop_last_answer (chat w) last before).
    - destruct IH as [Ha Hs]. unfold showPreviousResponse.
      destruct (Regen.canGoToPrevious _); [|done].
      split; [by apply aligned_displayCurrentResponse
             |by apply settled_displayCurrentResponse].
    - destruct IH as [Ha Hs]. unfold showNextResponse.
      destruct (Regen.canGoToNext _); [|done].
      split; [by apply aligned_displayCurrentResponse
             |by apply settled_displayCurrentResponse].
    - destruct IH as [Ha Hs]. unfold handleStopGeneration. cbn [chat with_chat with_api].
      split; [by apply aligned_hideTypingIndicator|apply settled_hideTypingIndicator].
    - split; [done|]. by apply Forall_nil. }
  unfold aligned in Ha. rewrite (filter_all _ _ Hs) in Ha.
  split; [done|]. split; [done|]. intros el e He.
  assert ((Chat.el_role <$> Chat.chatMessages (chat w)) !! el = Some (Chat.el_role e)) as Hl
    by (by rewrite list_lookup_fmap, He).
  rewrite Ha, list_lookup_fmap in Hl.
  destruct (Chat.messageHistory (chat w) !! el) as [m|]; [|done].
  exists m. split; [done|]. by injection Hl.
Qed.

End AlignmentFacts.

Section AlignmentInstances.

Import App Sample View.

(** The page after a question, two answers and a step back. *)
Lemma page_and_log_stay_in_step_witness :
  Chat.el_role <$> Chat.chatMessages (chat two_versions_first_shown)
  = Chat.role_of <$> Chat.messageHistory (chat two_versions_first_shown)
  ∧ Chat.role_of <$> Chat.messageHistory (chat two_versions_first_shown)
    = [Chat.User; Chat.Assistant].
Proof.
  destruct (page_and_log_stay_in_step echo two_versions_first_shown) as (_ & H & _).
  - apply reach_previous, reach_regenerate, reach_send, reach_init.
  - split; [exact H|reflexivity].
Defined.

End AlignmentInstances.

(* ===================================================================== *)
(** * Editing the prompt                                                  *)
(* ===================================================================== *)

Section EditFacts.

Import App View Edit.
Variable parse : jstring → option Wire.payload.

Lemma alter_at {A} (f : A → A) (l : list A) (i : nat) (x : A) :
  l !! i = Some x → f x = x → alter f i l = l.
Proof.
  intros Hx Hf. rewrite <- (list_alter_id id l i) at 2 by done.
  apply list_alter_ext; [|done]. intros y Hy. rewrite Hx in Hy. by injection Hy as <-.
Qed.

(** X15. On every page a visit can lead to, an edit of a user message
    that is saved goes to the log entry of that very message: the entry
    at the position of the message is a user entry, it takes the trimmed
    text, and nothing else in the log changes; the write never fails.
    A text that is blank once trimmed is not saved.  An edit that is
    cancelled leaves the page as it was before the typing. *)
Theorem saved_edit_reaches_the_entry_of_its_message
    (w : world) (el : nat) (original text : jstring) :
  reachable parse w →
  startEditMode el (chat w) = Some original →
  let c := type_into el text (chat w) in
  (∃ m, Chat.messageHistory (chat w) !! el = Some m
        ∧ Chat.role_of m = Chat.User
        ∧ saveEdit el c =
            Net.Ok (if bool_decide (trim text = []) then c
                    else Chat.with_history
                           (<[el := {| Chat.role_of := Chat.User; Chat.content := trim text;
                                       Chat.images := Chat.images m |}]>
                              (Chat.messageHistory (chat w))) c))
  ∧ cancelEdit el original c = chat w.
Proof.
  intros Hreach Hstart c.
  destruct (page_and_log_stay_in_step parse w Hreach) as (_ & _ & Hat).
  unfold startEditMode in Hstart.
  destruct (Chat.chatMessages (chat w) !! el) as [e|] eqn:He; [|done].
  case_bool_decide as Hrole; [|done]. injection Hstart as <-.
  destruct (Hat el e He) as (m & Hm & Hmr). rewrite Hrole in Hmr.
  split.
  - exists m. split; [done|]. split; [done|].
    unfold saveEdit, c, type_into.
    cbn [Chat.with_elements Chat.chatMessages].
    rewrite list_lookup_alter_eq, He. cbn [fmap option_fmap option_map Chat.textContent].
    case_bool_decide; [done|].
    unfold updateMessageInHistory, findMessageIndex.
    cbn [Chat.with_elements Chat.chatMessages Chat.messageHistory].
    rewrite length_alter.
    destruct (decide (el < length (Chat.chatMessages (chat w)))%nat) as [|Hge].
    + by rewrite Hm, Hmr.
    + destruct Hge. by apply lookup_lt_Some in He.
  - unfold cancelEdit, c, type_into. cbn [Chat.with_elements Chat.chatMessages].
    rewrite list_alter_alter_eq, (alter_at _ _ _ e He) by (by destruct e).
    by destruct (chat w).
Qed.

End EditFacts.

Section EditInstances.

Import App Sample Edit.

(** The prompt of a first turn, edited to [" hello "] and saved. *)
Lemma saved_edit_reaches_the_entry_of_its_message_witness :
  let w := handleSendMessage echo (js "hi") [] (page false) (json_reply "A") in
  (∃ c', saveEdit 0 (type_into 0 (js " hello ") (chat w)) = Net.Ok c'
         ∧ Chat.content <$> Chat.messageHistory c' = [js "hello"; js "A"]
         ∧ Chat.textContent <$> Chat.chatMessages c' = [js " hello "; js "A"])
  ∧ cancelEdit 0 (js "hi") (type_into 0 (js " hello ") (chat w)) = chat w.
Proof.
  intros w.
  destruct (saved_edit_reaches_the_entry_of_its_message echo w 0 (js "hi") (js " hello "))
    as [(m & Hm & _ & Hsave) Hcancel].
  - apply reach_send, reach_init.
  - reflexivity.
  - split; [|exact Hcancel]. eexists. split; [exact Hsave|].
    vm_compute in Hm. injection Hm as <-. split; reflexivity.
Defined.

End EditInstances.

(* ===================================================================== *)
(** * One message, streamed or buffered                                   *)
(* ===================================================================== *)

Section ExtractionFacts.

Import App Wire.

Lemma omap_as_concat {A B} (f : A → option B) (l : list A) :
  omap f l = concat ((λ x, match f x with Some y => [y] | None => [] end) <$> l).
Proof.
  induction l as [|x l IH]; [done|]. cbn [omap list_omap fmap list_fmap concat].
  destruct (f x); by rewrite IH.
Qed.

Lemma concat_fmap_ext {A B} (f g : A → list B) (l : list A) :
  (∀ x, f x = g x) → concat (f <$> l) = concat (g <$> l).
Proof. intros H. induction l as [|x l IH]; [done|]. cbn. by rewrite H, IH. Qed.

(** The text and the images of a message, as the buffered path reads
    them, in the terms of the streaming handlers. *)
Lemma extractTextFromMessage_parts (d : Wire.message) (ps : list (option part)) :
  content_of d = Parts ps →
  extractTextFromMessage (Some d) = concat (text_of_part <$> ps).
Proof.
  intros Hc. unfold extractTextFromMessage. rewrite Hc.
  induction ps as [|p ps IH] in |- *; [done|].
  cbn [fmap list_fmap concat omap list_omap]. unfold text_of_part at 1.
  destruct p as [p|]; [|exact IH].
  destruct (_ && _) eqn:E; [|exact IH].
  apply andb_true_iff in E as [_ E].
  destruct (part_text p) as [t|]; [|done]. cbn [concat default]. by rewrite IH.
Qed.

Lemma extractImagesFromMessage_sources (d : option Wire.message) :
  extractImagesFromMessage d =
    concat (images_of_part <$> parts_of d)
    ++ concat (images_of_entry <$> from_option images [] d).
Proof.
  unfold extractImagesFromMessage, parts_of. destruct d as [d|]; [|done].
  cbn [from_option]. f_equal.
  - destruct (content_of d) as [|t|ps]; try done.
    rewrite omap_as_concat. apply concat_fmap_ext. intros [p|]; [|done].
    unfold images_of_part. destruct (_ && _) eqn:E; [|done].
    apply andb_true_iff in E as [_ E]. by destruct (part_image_url p) as [[|]|].
  - rewrite omap_as_concat. apply concat_fmap_ext. intros [i|]; [|done].
    unfold images_of_entry. destruct (_ && _) eqn:E; [|done].
    apply andb_true_iff in E as [_ E]. by destruct (image_url i) as [[|]|].
Qed.

(** X16. What the streaming handlers take from the [delta] of a choice,
    against what the buffered path extracts from the same object as a
    [message].  The text handler accumulates the same text, but of the
    images only those given as [output_image] parts: the entries of
    [images] are left out.  The image handler accumulates the same
    images, those of [images] first, and the same text unless the
    content is a plain string, which it does not read. *)
Theorem one_message_streamed_or_buffered
    (c : choice) (others : list (option choice)) (s : state) :
  let text := (Text.onChunk (Data (Doc (Some c :: others))) s).1 in
  let image := Image.choice_step c s in
  assistantContent text.2 = assistantContent s.2 ++ extractTextFromMessage (delta c)
  ∧ assistantImages text.2 =
      assistantImages s.2 ++ concat (images_of_part <$> parts_of (delta c))
  ∧ extractImagesFromMessage (delta c) =
      concat (images_of_part <$> parts_of (delta c))
      ++ concat (images_of_entry <$> from_option images [] (delta c))
  ∧ assistantImages image.2 ≡ₚ assistantImages s.2 ++ extractImagesFromMessage (delta c)
  ∧ assistantContent image.2 =
      assistantContent s.2
      ++ match delta c with
         | Some {| content_of := Text _ |} => []
         | d => extractTextFromMessage d
         end.
Proof.
  cbv zeta. split; [|split; [|split; [apply extractImagesFromMessage_sources|]]].
  - unfold Text.onChunk. cbn [fst].
    destruct (delta c) as [d|] eqn:Ed; [|by rewrite app_nil_r].
    destruct (content_of d) as [|t|ps] eqn:Ec.
    + unfold content_parts. rewrite Ec. unfold extractTextFromMessage. rewrite Ec.
      by rewrite app_nil_r.
    + unfold content_parts. rewrite Ec. unfold extractTextFromMessage. rewrite Ec.
      apply gains_append_text.
    + destruct (gains_content_parts (Some d) s) as [H _]. rewrite H.
      unfold parts_of. rewrite Ec. by rewrite (extractTextFromMessage_parts d ps).
  - unfold Text.onChunk. cbn [fst].
    destruct (delta c) as [d|] eqn:Ed; [|by rewrite app_nil_r].
    destruct (content_of d) as [|t|ps] eqn:Ec.
    + unfold content_parts, parts_of. rewrite Ec. by rewrite app_nil_r.
    + unfold content_parts, parts_of. rewrite Ec. cbn [fmap list_fmap concat].
      destruct (gains_append_text t s) as [_ H]. by rewrite H.
    + by destruct (gains_content_parts (Some d) s) as [_ H].
  - destruct (gains_choice_step c s) as [Ht Hi]. split.
    + rewrite Hi, extractImagesFromMessage_sources. unfold choice_images.
      apply Permutation_app_head, Permutation_app_comm.
    + rewrite Ht. f_equal. unfold choice_text, parts_of.
      destruct (delta c) as [d|]; [|done].
      destruct d as [[|t|ps] imgs]; cbn [content_of]; try done.
      by rewrite (extractTextFromMessage_parts _ ps).
Qed.

(** X17. The refactored [extractImagesFromMessage] returns a part of
    what the original one returns, in the same order: it asks of an
    entry of [images] that its [type] be ["image_url"], which the
    original does not.  The two agree on messages whose entries are all
    typed so, and differ on any entry that has an address and another
    type, or none. *)
Theorem refactored_extraction_is_stricter (m : option Wire.message) :
  sublist (extractImagesFromMessage m) (Original.extractImagesFromMessage m)
  ∧ ((∀ m' i, m = Some m' → Some i ∈ images m' → truthy (image_url i) = true →
        image_type i = Some (js "image_url")) →
     extractImagesFromMessage m = Original.extractImagesFromMessage m)
  ∧ (∀ m' i, m = Some m' → Some i ∈ images m' → truthy (image_url i) = true →
       image_type i ≠ Some (js "image_url") →
       (length (extractImagesFromMessage m) < length (Original.extractImagesFromMessage m))%nat).
Proof.
  destruct m as [m|]; [|split; [done|split; [done|by intros m' i [=]]]].
  unfold extractImagesFromMessage, Original.extractImagesFromMessage.
  set (new := λ i : option image,
         match i with
         | Some i => if is_lit "image_url" (image_type i) && truthy (image_url i)
                     then image_url i else None
         | None => None
         end).
  set (old := λ i : option image,
         match i with
         | Some i => if truthy (image_url i) then image_url i else None
         | None => None
         end).
  assert (∀ l : list (option image), sublist (omap new l) (omap old l)) as Hsub.
  { induction l as [|[i|] l IH]; [done| |done]. cbn [omap list_omap new old].
    unfold is_lit. case_bool_decide; cbn [andb].
    - destruct (truthy (image_url i)); [|done].
      destruct (image_url i); [by constructor|done].
    - destruct (truthy (image_url i)); [|done].
      destruct (image_url i); [by constructor|done]. }
  split; [apply sublist_app; [done|apply Hsub]|]. split.
  - intros Hall. f_equal. specialize (Hall m).
    induction (images m) as [|[i|] l IH]; [done| |].
    + cbn [omap list_omap new old]. unfold is_lit.
      destruct (truthy (image_url i)) eqn:Et.
      * rewrite bool_decide_eq_true_2 by (apply (Hall i eq_refl); [left|done]).
        cbn [andb]. rewrite IH; [done|]. intros i' _ Hin. apply Hall; [done|by right].
      * rewrite andb_false_r. rewrite IH; [done|].
        intros i' _ Hin. apply Hall; [done|by right].
    + cbn [omap list_omap new old]. apply IH. intros i' _ Hin. apply Hall; [done|by right].
  - intros m' i [= <-] Hin Ht Hty. rewrite !length_app.
    apply Nat.add_lt_mono_l.
    induction (images m) as [|[i'|] l IH].
    + by apply elem_of_nil in Hin.
    + apply elem_of_cons in Hin as [[= <-]|Hin].
      * cbn [omap list_omap new old]. unfold is_lit.
        rewrite bool_decide_eq_false_2, Ht by done. cbn [andb].
        destruct (image_url i) as [u|] eqn:Eu; [|done]. cbn [length].
        pose proof (sublist_length _ _ (Hsub l)). lia.
      * specialize (IH Hin). cbn [omap list_omap]. 
        pose proof (sublist_length _ _ (Hsub [Some i'])) as Hl. cbn [omap list_omap] in Hl.
        destruct (new (Some i')) as [u|] eqn:En; destruct (old (Some i')) as [u'|] eqn:Eo;
          cbn [length] in *; try lia.
    + apply elem_of_cons in Hin as [[=]|Hin]. specialize (IH Hin). done.
Qed.

End ExtractionFacts.

(* ===================================================================== *)
(** * What a request carries                                              *)
(* ===================================================================== *)

Section RequestFacts.

Import App Request.
Variable parse : jstring → option Wire.payload.

Lemma omap_image_urls (l : list image_data) :
  omap (λ p, match p with ImageUrl u => Some u | _ => None end)
       ((λ imgData, ImageUrl (url_of imgData)) <$> l) = url_of <$> l.
Proof. induction l as [|x l IH]; [done|]. cbn. by rewrite <- IH. Qed.

Lemma omap_text_urls (l : list image_data) :
  omap (λ p, match p with TextPart t => Some t | _ => None end)
       ((λ imgData, ImageUrl (url_of imgData)) <$> l) = [].
Proof. by induction l. Qed.

Lemma said_iff_not_blank (text : jstring) :
  bool_decide (text ≠ []) && bool_decide (trim text ≠ []) = negb (bool_decide (trim text = [])).
Proof.
  destruct text as [|c text]; [done|]. rewrite (bool_decide_eq_true_2 (c :: text ≠ [])) by done.
  cbn [andb]. by repeat case_bool_decide.
Qed.

(** A multimodal content, read back. *)
Lemma buildMultimodalContent_read (text : jstring) (imgs : list image_data) :
  imgs ≠ [] →
  images_of (buildMultimodalContent text imgs) = url_of <$> imgs
  ∧ text_of (buildMultimodalContent text imgs) =
      if bool_decide (trim text = []) then [] else text.
Proof.
  intros Hi. destruct imgs as [|i imgs]; [done|].
  unfold buildMultimodalContent, images_of, text_of. rewrite said_iff_not_blank.
  case_bool_decide; cbn [negb app].
  - by rewrite omap_image_urls, omap_text_urls.
  - cbn [omap list_omap]. rewrite omap_image_urls, omap_text_urls. cbn.
    by rewrite app_nil_r.
Qed.

Lemma buildMessagesFromHistory_app (h1 h2 : list Chat.message) :
  buildMessagesFromHistory (h1 ++ h2) =
    buildMessagesFromHistory h1 ++ buildMessagesFromHistory h2.
Proof. apply fmap_app. Qed.

(** The request of a send that is past the guards. *)
Lemma sent_messages_run prompt uploaded w :
  trim (apiKey (ui w)) ≠ [] →
  trim prompt ≠ [] ∨ uploaded ≠ [] →
  selectedModel (ui w) ≠ None →
  sent_messages prompt uploaded w =
    Some (messages_of w
          ++ buildMessagesFromHistory
               [{| Chat.role_of := Chat.User; Chat.content := trim prompt;
                   Chat.images := uploaded |}]).
Proof.
  intros Hk Hp Hm. unfold sent_messages.
  rewrite (bool_decide_eq_false_2 _ Hk), (bool_decide_eq_false_2 _ Hm).
  assert (bool_decide (trim prompt = []) && bool_decide (uploaded = []) = false) as ->.
  { destruct Hp as [Hp|Hp].
    - by rewrite (bool_decide_eq_false_2 _ Hp).
    - rewrite (bool_decide_eq_false_2 (uploaded = []) Hp). by rewrite andb_false_r. }
  unfold messages_of. cbn. by rewrite buildMessagesFromHistory_app.
Qed.

(** X18. The messages of a request follow the log entry by entry: the
    same roles in the same order, the images of each entry in its
    order, and its text, except that an entry with images whose text is
    blank goes out without a text part.  The request of a send is the
    one the log before it gives, followed by the message of the
    prompt. *)
Theorem the_request_follows_the_log (h : list Chat.message) :
  let ms := buildMessagesFromHistory h in
  role <$> ms = Chat.role_of <$> h
  ∧ (λ m, images_of (content_of m)) <$> ms = Chat.images <$> h
  ∧ (λ m, text_of (content_of m)) <$> ms =
      (λ e, if bool_decide (Chat.images e ≠ []) && bool_decide (trim (Chat.content e) = [])
            then [] else Chat.content e) <$> h
  ∧ (∀ prompt uploaded w,
       Chat.messageHistory (chat w) = h →
       sent_messages prompt uploaded w = None
       ∨ sent_messages prompt uploaded w =
           Some (ms ++ buildMessagesFromHistory
                         [{| Chat.role_of := Chat.User; Chat.content := trim prompt;
                             Chat.images := uploaded |}])).
Proof.
  cbv zeta. unfold buildMessagesFromHistory at 1 2 3. rewrite <- !list_fmap_compose.
  split; [|split; [|split]].
  - apply list_fmap_ext. intros _ e _. cbn. by destruct (Chat.images e).
  - apply list_fmap_ext. intros _ e _. cbn. destruct (Chat.images e) as [|i l] eqn:E; [done|].
    destruct (buildMultimodalContent_read (Chat.content e) (Address <$> (i :: l))) as [H _];
      [done|].
    cbn [content_of]. rewrite H, <- list_fmap_compose. by rewrite list_fmap_id.
  - apply list_fmap_ext. intros _ e _. cbn. destruct (Chat.images e) as [|i l] eqn:E; [done|].
    destruct (buildMultimodalContent_read (Chat.content e) (Address <$> (i :: l))) as [_ H];
      [done|].
    cbn [content_of]. rewrite H. rewrite (bool_decide_eq_true_2 (i :: l ≠ [])) by done. done.
  - intros prompt uploaded w <-.
    destruct (decide (trim (apiKey (ui w)) = [])) as [Hk|Hk].
    { left. unfold sent_messages. by rewrite (bool_decide_eq_true_2 _ Hk). }
    destruct (decide (selectedModel (ui w) = None)) as [Hm|Hm].
    { left. unfold sent_messages. rewrite (bool_decide_eq_true_2 _ Hm).
      by repeat (case_bool_decide; cbn [andb]). }
    destruct (decide (trim prompt = [])) as [Hp|Hp];
      [destruct (decide (uploaded = [])) as [Hu|Hu]|].
    + left. unfold sent_messages. rewrite (bool_decide_eq_false_2 _ Hk).
      by rewrite (bool_decide_eq_true_2 _ Hp), (bool_decide_eq_true_2 _ Hu).
    + right. apply sent_messages_run; auto.
    + right. apply sent_messages_run; auto.
Qed.

(** X20. [ImageHandler.createMultimodalContent] and
    [APIService.buildMultimodalContent] make the same content of a text
    and the images waiting to be sent: the text alone when there is no
    image, and otherwise the text, unless blank, followed by one
    [image_url] part for each image, in order. *)
Theorem the_two_content_builders_agree (text : jstring) (h : Upload.t) :
  createMultimodalContent text h =
    buildMultimodalContent text (Uploaded <$> Upload.uploadedImages h)
  ∧ (Upload.uploadedImages h = [] → createMultimodalContent text h = Plain text)
  ∧ (Upload.uploadedImages h ≠ [] →
     images_of (createMultimodalContent text h) = Upload.data <$> Upload.uploadedImages h
     ∧ text_of (createMultimodalContent text h) =
         if bool_decide (trim text = []) then [] else text).
Proof.
  assert (createMultimodalContent text h =
          buildMultimodalContent text (Uploaded <$> Upload.uploadedImages h)) as Heq.
  { unfold createMultimodalContent, buildMultimodalContent, Upload.hasImages,
      createImageDataForAPI.
    destruct (Upload.uploadedImages h) as [|i l]; [done|]. cbn [length Nat.ltb Nat.leb negb].
    cbn [fmap list_fmap]. do 3 f_equal. by rewrite <- list_fmap_compose. }
  split; [done|]. rewrite Heq. split.
  - by intros ->.
  - intros Hne.
    destruct (buildMultimodalContent_read text (Uploaded <$> Upload.uploadedImages h))
      as [Hi Ht].
    { by destruct (Upload.uploadedImages h). }
    rewrite Hi, Ht, <- list_fmap_compose. done.
Qed.

End RequestFacts.

Section RequestInstances.

Import App Sample Request.

End RequestInstances.

(* ===================================================================== *)
(** * The images waiting to be sent                                       *)
(* ===================================================================== *)

Section UploadFacts.

Import Upload.

Lemma validateFile_accepted (f : file) (h : t) :
  allowedTypes h = allowedTypes init → maxFileSize h = maxFileSize init →
  validateFile f h = true ↔ accepted f.
Proof.
  intros Ha Hm. unfold validateFile, accepted. rewrite Ha, Hm.
  case_bool_decide; cbn [negb]; [|by split; [|intros []]].
  destruct (N.ltb_spec (maxFileSize init) (size f)) as [Hlt|Hle].
  - split; [done|]. intros [_ Hs]. cbn in Hlt. lia.
  - split; [|done]. intros _. split; [done|]. cbn in Hle. lia.
Qed.

Lemma selections_app (ops1 ops2 : list op) (h : t) :
  run_ops (ops1 ++ ops2) h = run_ops ops2 (run_ops ops1 h).
Proof. apply foldl_app. Qed.

(** The limits are those of the constructor throughout. *)
Lemma limits_kept (ops : list op) :
  allowedTypes (run_ops ops init) = allowedTypes init
  ∧ maxFileSize (run_ops ops init) = maxFileSize init.
Proof.
  induction ops as [|o ops IH] using rev_ind; [done|].
  rewrite selections_app. cbn [run_ops foldl]. fold (run_ops ops init).
  destruct o as [files|i result|k|]; cbn [run_op]; try exact IH.
  - unfold onload. by destruct (_ !! _).
  - unfold removeImagePreview. by destruct (_ !! _).
Qed.

Lemma fmap_data_filter (d : jstring) (imgs : list image) :
  data <$> filter (λ img, data img ≠ d) imgs = filter (λ u, u ≠ d) (data <$> imgs).
Proof.
  induction imgs as [|i imgs IH]; [done|]. cbn [fmap list_fmap].
  rewrite !filter_cons. destruct (decide (data i ≠ d)); cbn [fmap list_fmap]; by rewrite IH.
Qed.

Lemma sublist_filter_delete (d : jstring) (l p : list jstring) (k : nat) :
  sublist l p → p !! k = Some d → sublist (filter (λ u, u ≠ d) l) (delete k p).
Proof.
  intros Hs. revert k. induction Hs as [|x l1 l2 Hs IH|x l1 l2 Hs IH]; intros k Hk.
  - done.
  - destruct k as [|k]; cbn in Hk.
    + injection Hk as ->. rewrite filter_cons. destruct (decide (d ≠ d)); [done|].
      cbn. etransitivity; [apply sublist_filter|done].
    + cbn [delete list_delete]. rewrite filter_cons. destruct (decide (x ≠ d)).
      * apply sublist_skip. by apply IH.
      * apply sublist_cons. by apply IH.
  - destruct k as [|k]; cbn in Hk.
    + cbn. etransitivity; [apply sublist_filter|done].
    + cbn [delete list_delete]. apply sublist_cons. by apply IH.
Qed.

(** X21. Whatever is selected, loaded, removed and cleared, a file
    gets to a reader, and from there to the images to send, only if its
    type is one of the five allowed and its size at most 10 MiB; a
    file that is not is passed over and the others of the selection are
    still taken. *)
Theorem only_accepted_files_are_kept (ops : list op) :
  let h := run_ops ops init in
  Forall accepted (reading h)
  ∧ Forall accepted (file_of <$> uploadedImages h)
  ∧ (∀ before f after,
       ¬ accepted f →
       handleFileSelection (before ++ f :: after) h = handleFileSelection (before ++ after) h)
  ∧ (∀ files,
       Forall accepted files →
       reading (handleFileSelection files h) = reading h ++ files).
Proof.
  cbv zeta.
  assert (Forall accepted (reading (run_ops ops init))
          ∧ Forall accepted (file_of <$> uploadedImages (run_ops ops init))) as [Hr Hu].
  { induction ops as [|o ops IH] using rev_ind; [by split; constructor|].
    destruct (limits_kept ops) as [Ha Hm].
    rewrite selections_app. cbn [run_ops foldl]. fold (run_ops ops init).
    destruct IH as [Hr Hu]. set (h := run_ops ops init) in *.
    destruct o as [files|i result|k|]; cbn [run_op].
    - split; [|done]. cbn [handleFileSelection reading]. apply Forall_app. split; [done|].
      apply Forall_forall. intros f Hf. apply list_elem_of_In, filter_In in Hf as [_ Hf].
      by apply (validateFile_accepted f h).
    - unfold onload. destruct (reading h !! i) as [f|] eqn:Ef; [|done].
      cbn [reading uploadedImages]. split; [by apply Forall_delete|].
      rewrite fmap_app. apply Forall_app. split; [done|]. cbn. constructor; [|constructor].
      by apply (Forall_lookup_1 _ _ _ _ Hr Ef).
    - unfold removeImagePreview. destruct (previews h !! k) as [d|]; [|done].
      cbn [reading uploadedImages]. split; [done|].
      apply Forall_fmap, Forall_forall. intros x [_ Hx]%list_elem_of_filter.
      apply (proj1 (Forall_forall _ _) Hu). by apply list_elem_of_fmap_2.
    - split; [done|]. by constructor. }
  destruct (limits_kept ops) as [Ha Hm]. set (h := run_ops ops init) in *.
  split; [done|]. split; [done|]. split.
  - intros before f after Hf. unfold handleFileSelection. f_equal. f_equal.
    rewrite !List.filter_app. f_equal. cbn [List.filter].
    destruct (validateFile f h) eqn:Ev; [|done].
    by apply (validateFile_accepted f h) in Ev.
  - intros files Hfiles. cbn [handleFileSelection reading]. f_equal.
    induction Hfiles as [|f files Hf _ IH]; [done|]. cbn [List.filter].
    rewrite (proj2 (validateFile_accepted f h Ha Hm) Hf). by rewrite IH.
Qed.

(** X22. Every image waiting to be sent has its preview, in the same
    order.  The converse fails: the button of a preview removes that
    one preview and every stored image with the same data, so that of
    a picture chosen twice one removal leaves a preview on the page and
    nothing to send. *)
Theorem previews_and_images_to_send :
  (∀ ops, sublist (data <$> uploadedImages (run_ops ops init))
                  (previews (run_ops ops init)))
  ∧ (∀ h k d,
       previews h !! k = Some d →
       (d ∉ data <$> uploadedImages (removeImagePreview k h))
       ∧ previews (removeImagePreview k h) = delete k (previews h))
  ∧ (∀ f d,
       accepted f →
       let h := run_ops [Select [f; f]; Loaded 0 d; Loaded 0 d; Remove 0] init in
       previews h = [d] ∧ uploadedImages h = [] ∧ hasImages h = false).
Proof.
  split; [|split].
  - induction ops as [|o ops IH] using rev_ind; [done|].
    rewrite selections_app. cbn [run_ops foldl]. fold (run_ops ops init).
    set (h := run_ops ops init) in *.
    destruct o as [files|i result|k|]; cbn [run_op].
    + done.
    + unfold onload. destruct (reading h !! i) as [f|]; [|done].
      cbn [uploadedImages previews]. rewrite fmap_app. by apply sublist_app.
    + unfold removeImagePreview. destruct (previews h !! k) as [d|] eqn:Ek; [|done].
      cbn [uploadedImages previews]. rewrite fmap_data_filter.
      by apply sublist_filter_delete.
    + done.
  - intros h k d Hk. unfold removeImagePreview. rewrite Hk. cbn [uploadedImages previews].
    split; [|done]. rewrite fmap_data_filter. intros [Hd _]%list_elem_of_filter.
    by apply Hd.
  - intros f d Hf h. unfold h, run_ops. cbn [foldl run_op].
    assert (validateFile f init = true) as Hv by by apply validateFile_accepted.
    unfold handleFileSelection. cbn [List.filter]. rewrite Hv.
    unfold onload, removeImagePreview, hasImages. cbn.
    by destruct (decide (d ≠ d)).
Qed.

End UploadFacts.

(* ===================================================================== *)
(** * Requests that fail, and requests that do not settle                 *)
(* ===================================================================== *)

Section FailureFacts.

Import App Run Request.
Variable parse : jstring → option Wire.payload.

(** [slice(0, n)] on a text of the Basic Multilingual Plane is its
    first [n] characters. *)
Lemma slice_units_bmp (n : nat) (s : jstring) :
  Forall (λ c, c < 65536) s → slice_units n s = take n s.
Proof.
  intros H. revert n. induction H as [|c s Hc _ IH]; intros [|n]; try done.
  cbn. rewrite (proj2 (N.ltb_lt _ _) Hc). by rewrite IH.
Qed.

(** X8. A turn whose request fails is reported in the chat.  When
    [fetch] rejects, when a streamed request is answered with an error
    status, and when a buffered answer is not declared as JSON or its
    body does not parse, the log gains the prompt and one assistant
    message: ["Error: "] followed by the [message] of what was thrown
    or, when that is empty, by [String(error)].  That message is the
    last one rendered and the only version of the slot, and the stream
    state is reset.  The errors the page makes itself are shown by
    their message, which quotes at most 1000 UTF-16 units of the
    body. *)
Theorem failed_request_is_reported
    (prompt : jstring) (uploaded : list jstring) (w : world) (net : Net.exchange)
    (error : Thrown.t) :
  trim (apiKey (ui w)) ≠ [] →
  trim prompt ≠ [] ∨ uploaded ≠ [] →
  selectedModel (ui w) ≠ None →
  net = Net.Rejects error
  ∨ (∃ r body, net = Net.Resolves r ∧ stream (ui w) = true ∧ Net.ok r = false
               ∧ Net.text r = Net.Ok body
               ∧ error = Thrown.Error
                           (js "HTTP " ++ Net.status r ++ [32; 8211; 32] ++ body))
  ∨ (∃ r body, net = Net.Resolves r ∧ stream (ui w) = false
               ∧ Net.text r = Net.Ok body
               ∧ indexOf (js "application/json") (Net.content_type r) = None
               ∧ error = Thrown.Error
                           (js "Expected JSON but got " ++ [34] ++ Net.content_type r
                            ++ [34] ++ js ". Status " ++ Net.status r ++ js ". Body:"
                            ++ [LF] ++ body_excerpt body))
  ∨ (∃ r body, net = Net.Resolves r ∧ stream (ui w) = false
               ∧ Net.text r = Net.Ok body
               ∧ indexOf (js "application/json") (Net.content_type r) ≠ None
               ∧ parse body = None
               ∧ error = Thrown.Error
                           (js "Failed to parse JSON. Status " ++ Net.status r
                            ++ js ". Body (truncated):" ++ [LF] ++ body_excerpt body)) →
  let w' := handleSendMessage parse prompt uploaded w net in
  let shown :=
    js "Error: " ++ match Thrown.message error with
                    | [] => Thrown.to_string error
                    | message => message
                    end in
  Chat.messageHistory (chat w') =
    Chat.messageHistory (chat w)
    ++ [{| Chat.role_of := Chat.User; Chat.content := trim prompt; Chat.images := uploaded |};
        {| Chat.role_of := Chat.Assistant; Chat.content := shown; Chat.images := [] |}]
  ∧ last (Chat.chatMessages (chat w')) =
      Some {| Chat.el_role := Chat.Assistant; Chat.typing_indicator := false;
              Chat.textContent := shown; Chat.el_images := [] |}
  ∧ Regen.regenerationHistory (regen w') =
      [{| Regen.content := shown; Regen.images := [] |}]
  ∧ Session.currentController (api w') = None
  ∧ Session.streamingActive (api w') = false
  ∧ (∀ r, net = Net.Resolves r → shown = js "Error: " ++ Thrown.message error)
  ∧ (∀ body, (length (body_excerpt body) ≤ 1000)%nat
             ∧ (Forall (λ c, c < 65536) body → body_excerpt body = take 1000 body)).
Proof.
  intros Hk Hp Hm Hnet w' shown. unfold w'. rewrite handleSendMessage_run by done.
  rewrite (run_chat_failure _ _ net error) by done.
  unfold handleError. fold (error_text error) in shown.
  cbn [chat regen api ui with_chat with_regen with_api].
  split; [|split; [|split; [done|split; [done|split; [done|split]]]]].
  - cbn. by rewrite <- app_assoc.
  - cbn [Chat.addMessageToChat Chat.chatMessages]. by rewrite last_snoc.
  - intros r ->. unfold shown. f_equal.
    destruct Hnet as [[=]|[(r' & body & _ & _ & _ & _ & ->)
                          |[(r' & body & _ & _ & _ & _ & ->)
                           |(r' & body & _ & _ & _ & _ & _ & ->)]]]; done.
  - intros body. split; [|apply slice_units_bmp].
    unfold body_excerpt. generalize 1000%nat. intros n. revert n.
    induction body as [|c body IH]; intros [|n]; cbn; try lia.
    destruct (c <? 65536); cbn; [specialize (IH n); lia|].
    destruct n as [|n]; cbn; [lia|]. specialize (IH n). lia.
Qed.

(** X7. What [handleSendMessage] does around its request, once past its
    guards (a key, a prompt or an image, a model).  While the answer is
    awaited the controls are locked and the typing indicator is the
    last element of the page; a streamed request carries the signal of
    a new controller and has its timeout pending, a buffered request
    carries no signal and sets no timeout, so that nothing on the
    page's side ends the wait for an answer that does not come.  Once
    the request has settled, however it settled, the turn ends with the
    controls released and no typing indicator left, and with a fresh
    slot of the regeneration store: the prompt as its user turn,
    exactly one version, the cursor on it, nowhere to navigate to. *)
Theorem a_turn_ends_released_with_one_version
    (prompt : jstring) (uploaded : list jstring) (w : world) :
  trim (apiKey (ui w)) ≠ [] →
  trim prompt ≠ [] ∨ uploaded ≠ [] →
  selectedModel (ui w) ≠ None →
  let pending := awaiting prompt uploaded w in
  let c := Session.created (api w) in
  (Chat.isStreaming (chat pending) = true
   ∧ (∃ e, last (Chat.chatMessages (chat pending)) = Some e
           ∧ Chat.typing_indicator e = true)
   ∧ (if stream (ui w)
      then Session.timers (api pending) = Session.timers (api w) ++ [c]
           ∧ Session.currentController (api pending) = Some c
           ∧ last (Session.trace (api pending)) = Some (Session.Fetch (Some c))
      else Session.timers (api pending) = Session.timers (api w)
           ∧ Session.currentController (api pending) = Session.currentController (api w)
           ∧ last (Session.trace (api pending)) = Some (Session.Fetch None)))
  ∧ (∀ error,
       handleSendMessage parse prompt uploaded w (Net.Rejects error) =
         handleError error
           (with_chat (λ c, Chat.hideTypingIndicator (Chat.setStreamingState false c))
              pending))
  ∧ (∀ net,
       let w' := handleSendMessage parse prompt uploaded w net in
       Chat.isStreaming (chat w') = false
       ∧ Forall (λ e, Chat.typing_indicator e = false) (Chat.chatMessages (chat w'))
       ∧ (∃ v, Regen.regenerationHistory (regen w') = [v])
       ∧ Regen.currentResponseIndex (regen w') = 0%Z
       ∧ Regen.lastUserMessage (regen w') =
           Some {| Regen.user_content := trim prompt; Regen.user_images := uploaded |}
       ∧ Regen.canGoToPrevious (regen w') = false
       ∧ Regen.canGoToNext (regen w') = false).
Proof.
  intros Hk Hp Hm pending c. split; [|split].
  - unfold pending, awaiting. cbn [ui with_chat with_regen].
    destruct (stream (ui w)).
    + split; [done|]. split.
      * eexists. split; [apply last_snoc|done].
      * unfold c. cbn. destruct (Session.currentController (api w)); cbn;
          (split; [done|]; split; [done|]; apply last_snoc).
    + split; [done|]. split.
      * eexists. split; [apply last_snoc|done].
      * split; [done|]. split; [done|]. apply last_snoc.
  - intros error. rewrite handleSendMessage_run by done.
    rewrite (run_chat_failure parse _ (Net.Rejects error) error) by by left.
    unfold pending, awaiting. cbn [ui with_chat with_regen]. by destruct (stream (ui w)).
  - intros net w'. unfold w'. rewrite handleSendMessage_run by done.
    set (w0 := with_chat _ _).
    destruct (run_chat_chat parse w0 net) as [c0 [Hc|[err Hc]]];
      destruct (run_chat_pushed parse w0 net) as [(text & imgs & Hr) _];
      rewrite Hc, Hr.
    + split; [done|]. split; [apply hideTypingIndicator_none|].
      split; [by eexists|]. done.
    + split; [done|]. split.
      * cbn [Chat.addMessageToChat Chat.chatMessages]. apply Forall_app. split.
        -- apply hideTypingIndicator_none.
        -- by constructor.
      * split; [by eexists|]. done.
Qed.

(** X19. What a failed turn leaves goes out with the next request: the
    message ["Error: ..."] that reports the failure is sent to the
    model as a turn of the assistant, between the prompt that failed
    and the new one. *)
Theorem a_reported_failure_is_sent_back
    (prompt : jstring) (uploaded : list jstring) (w : world) (net : Net.exchange)
    (error : Thrown.t) (prompt' : jstring) (uploaded' : list jstring) :
  trim (apiKey (ui w)) ≠ [] →
  trim prompt ≠ [] ∨ uploaded ≠ [] →
  selectedModel (ui w) ≠ None →
  net = Net.Rejects error
  ∨ (∃ r body, net = Net.Resolves r ∧ stream (ui w) = true ∧ Net.ok r = false
               ∧ Net.text r = Net.Ok body
               ∧ error = Thrown.Error
                           (js "HTTP " ++ Net.status r ++ [32; 8211; 32] ++ body))
  ∨ (∃ r body, net = Net.Resolves r ∧ stream (ui w) = false
               ∧ Net.text r = Net.Ok body
               ∧ indexOf (js "application/json") (Net.content_type r) = None
               ∧ error = Thrown.Error
                           (js "Expected JSON but got " ++ [34] ++ Net.content_type r
                            ++ [34] ++ js ". Status " ++ Net.status r ++ js ". Body:"
                            ++ [LF] ++ body_excerpt body))
  ∨ (∃ r body, net = Net.Resolves r ∧ stream (ui w) = false
               ∧ Net.text r = Net.Ok body
               ∧ indexOf (js "application/json") (Net.content_type r) ≠ None
               ∧ parse body = None
               ∧ error = Thrown.Error
                           (js "Failed to parse JSON. Status " ++ Net.status r
                            ++ js ". Body (truncated):" ++ [LF] ++ body_excerpt body)) →
  trim prompt' ≠ [] ∨ uploaded' ≠ [] →
  sent_messages prompt' uploaded' (handleSendMessage parse prompt uploaded w net) =
    Some (messages_of w
          ++ buildMessagesFromHistory
               [{| Chat.role_of := Chat.User; Chat.content := trim prompt;
                   Chat.images := uploaded |}]
          ++ [{| role := Chat.Assistant;
                 content_of :=
                   Plain (js "Error: " ++ match Thrown.message error with
                                          | [] => Thrown.to_string error
                                          | message => message
                                          end) |}]
          ++ buildMessagesFromHistory
               [{| Chat.role_of := Chat.User; Chat.content := trim prompt';
                   Chat.images := uploaded' |}]).
Proof.
  intros Hk Hp Hm Hnet Hp'.
  rewrite (handleSendMessage_run parse) by done.
  rewrite (run_chat_failure parse _ net error) by done.
  rewrite sent_messages_run; [|done|done|done].
  f_equal. unfold messages_of, handleError, error_text.
  cbn [chat regen api ui with_chat with_regen with_api].
  cbn [Chat.addMessageToChat Chat.hideTypingIndicator Chat.setStreamingState
       Chat.showTypingIndicator Chat.messageHistory Chat.with_elements].
  rewrite !buildMessagesFromHistory_app, <- !app_assoc. done.
Qed.

End FailureFacts.

Section FailureInstances.

Import App Sample Run Request.

(** [slice(0, 1000)] of 600 characters outside the Basic Multilingual
    Plane keeps 500 of them, and of 999 letters followed by one such
    character the letters and a lone high surrogate. *)
Example body_excerpt_counts_code_units :
  length (body_excerpt (replicate 600 128512)) = 500%nat
  ∧ body_excerpt (replicate 999 97 ++ [128512]) = replicate 999 97 ++ [55357]
  ∧ body_excerpt (replicate 1200 97) = replicate 1000 97.
Proof. by vm_compute. Qed.

(** A request that [fetch] rejects with an error whose message is
    empty: [String(error)] is shown. *)
Lemma failed_request_is_reported_witness :
  let w' := handleSendMessage echo (js "hi") [] (page true)
              (Net.Rejects (Thrown.Error [])) in
  Chat.messageHistory (chat w') =
    [{| Chat.role_of := Chat.User; Chat.content := js "hi"; Chat.images := [] |};
     {| Chat.role_of := Chat.Assistant; Chat.content := js "Error: Error";
        Chat.images := [] |}]
  ∧ Regen.regenerationHistory (regen w') =
      [{| Regen.content := js "Error: Error"; Regen.images := [] |}]
  ∧ Session.streamingActive (api w') = false.
Proof.
  intros w'.
  destruct (failed_request_is_reported echo (js "hi") [] (page true)
              (Net.Rejects (Thrown.Error [])) (Thrown.Error []))
    as (Hlog & _ & Hver & _ & Hact & _).
  - by vm_compute.
  - left. by vm_compute.
  - done.
  - by left.
  - split; [exact Hlog|]. split; [exact Hver|exact Hact].
Defined.

(** A buffered request, awaited and then rejected. *)
Lemma a_turn_ends_released_with_one_version_witness :
  let pending := awaiting (js "hi") [] (page false) in
  let w' := handleSendMessage echo (js "hi") [] (page false)
              (Net.Rejects (Thrown.TypeError (js "Failed to fetch"))) in
  (Chat.isStreaming (chat pending) = true
   ∧ Session.timers (api pending) = []
   ∧ Session.currentController (api pending) = None
   ∧ Session.trace (api pending) = [Session.Fetch None])
  ∧ (Chat.isStreaming (chat w') = false
     ∧ Forall (λ e, Chat.typing_indicator e = false) (Chat.chatMessages (chat w'))
     ∧ (∃ v, Regen.regenerationHistory (regen w') = [v])).
Proof.
  intros pending w'.
  destruct (a_turn_ends_released_with_one_version echo (js "hi") [] (page false))
    as ((H1 & _ & H2 & H3 & _) & _ & Hall).
  - by vm_compute.
  - left. by vm_compute.
  - done.
  - destruct (Hall (Net.Rejects (Thrown.TypeError (js "Failed to fetch"))))
      as (H4 & H5 & H6 & _).
    split; [|split; [exact H4|split; [exact H5|exact H6]]].
    split; [exact H1|]. split; [exact H2|]. split; [exact H3|reflexivity].
Defined.

(** A prompt sent after one that never reached the service. *)
Lemma a_reported_failure_is_sent_back_witness :
  sent_messages (js "again") []
    (handleSendMessage echo (js "hi") [] (page true)
       (Net.Rejects (Thrown.TypeError (js "Failed to fetch")))) =
    Some [{| role := Chat.User; content_of := Plain (js "hi") |};
          {| role := Chat.Assistant; content_of := Plain (js "Error: Failed to fetch") |};
          {| role := Chat.User; content_of := Plain (js "again") |}].
Proof.
  etransitivity.
  - apply (a_reported_failure_is_sent_back echo (js "hi") [] (page true)
             (Net.Rejects (Thrown.TypeError (js "Failed to fetch")))
             (Thrown.TypeError (js "Failed to fetch")) (js "again") []).
    + by vm_compute.
    + left. by vm_compute.
    + done.
    + by left.
    + left. by vm_compute.
  - reflexivity.
Defined.

End FailureInstances.

(* ===================================================================== *)
(** * A streamed turn, from its frames to the page                        *)
(* ===================================================================== *)

Section StreamedTurnFacts.

Import App Run.
Variable parse : jstring → option Wire.payload.

(** When a handler's message has been made. *)
Lemma made_append_text t s : assistantMessageDiv (append_text t s).2 = true.
Proof. unfold append_text, ensure_div. cbn. by destruct (assistantMessageDiv s.2). Qed.

Lemma made_content_part s p :
  assistantMessageDiv (content_part s p).2 =
    assistantMessageDiv s.2
    || match p with
       | Some p => Wire.is_lit "output_text" (Wire.part_type p)
                   && Wire.truthy (Wire.part_text p)
       | None => false
       end.
Proof.
  unfold content_part. destruct p as [p|]; [|by rewrite orb_false_r].
  destruct (Wire.is_lit "output_text" _ && _);
    destruct (Wire.is_lit "output_image" _ && _); cbn [push_image snd assistantMessageDiv];
    rewrite ?made_append_text, ?orb_true_r, ?orb_false_r; done.
Qed.

Lemma made_content_parts d s :
  assistantMessageDiv (content_parts d s).2 = assistantMessageDiv s.2 || has_text_part d.
Proof.
  unfold content_parts, has_text_part, parts_of.
  destruct d as [d|]; [|by rewrite orb_false_r].
  destruct (Wire.content_of d) as [|t|ps]; try by rewrite orb_false_r.
  revert s. induction ps as [|p ps IH]; intros s; [by rewrite orb_false_r|].
  cbn [foldl existsb]. by rewrite IH, made_content_part, orb_assoc.
Qed.

Lemma made_text_onChunk obj s :
  assistantMessageDiv (Text.onChunk (Data obj) s).1.2 =
    assistantMessageDiv s.2 || brings_text obj.
Proof.
  unfold Text.onChunk, brings_text, first_delta.
  destruct obj as [| |[|[c|] cs]]; cbn [fst]; try by rewrite orb_false_r.
  destruct (Wire.delta c) as [d|]; [|by rewrite orb_false_r].
  rewrite made_content_parts.
  destruct (Wire.content_of d) as [|t|ps] eqn:Ec; try done.
  rewrite made_append_text. by rewrite orb_true_r.
Qed.

Lemma gains_text_onChunk obj s :
  gains s (Text.onChunk (Data obj) s).1
    (Wire.extractTextFromMessage (first_delta obj))
    (concat (images_of_part <$> parts_of (first_delta obj))).
Proof.
  unfold Text.onChunk, first_delta.
  destruct obj as [| |[|[c|] cs]]; cbn [fst]; try apply gains_refl.
  destruct (Wire.delta c) as [d|]; [|apply gains_refl].
  destruct (Wire.content_of d) as [|t|ps] eqn:Ec.
  - unfold content_parts, parts_of, Wire.extractTextFromMessage. rewrite Ec.
    apply gains_refl.
  - unfold content_parts, parts_of, Wire.extractTextFromMessage. rewrite Ec.
    apply gains_append_text.
  - rewrite (extractTextFromMessage_parts d ps Ec).
    pose proof (gains_content_parts (Some d) s) as H. unfold parts_of in *.
    by rewrite Ec in *.
Qed.

(** The chunk callbacks of the text handler over a whole body: the
    text and the images taken from the first choice of each object, and
    whether the message has been made. *)
Lemma text_chunks objs s :
  let s' := foldl (λ s cb, match cb with
                           | SSE.OnChunk obj => (Text.onChunk (Data obj) s).1
                           | SSE.OnDone err => Text.onDone err s
                           end) s (SSE.OnChunk <$> objs) in
  gains s s'
    (concat ((λ obj, Wire.extractTextFromMessage (first_delta obj)) <$> objs))
    (concat ((λ obj, concat (images_of_part <$> parts_of (first_delta obj))) <$> objs))
  ∧ assistantMessageDiv s'.2 = assistantMessageDiv s.2 || existsb brings_text objs.
Proof.
  cbv zeta. revert s. induction objs as [|obj objs IH]; intros s.
  - split; [apply gains_refl|by rewrite orb_false_r].
  - cbn [fmap list_fmap foldl concat existsb].
    destruct (IH (Text.onChunk (Data obj) s).1) as [Hg Hm]. split.
    + eapply gains_trans; [apply gains_text_onChunk|exact Hg].
    + by rewrite Hm, made_text_onChunk, orb_assoc.
Qed.

Lemma made_delta_image s i :
  assistantMessageDiv (Image.delta_image s i).2 =
    assistantMessageDiv s.2
    || match i with
       | Some i => Wire.is_lit "image_url" (Wire.image_type i)
                   && Wire.truthy (Wire.image_url i)
       | None => false
       end.
Proof.
  unfold Image.delta_image. destruct i as [i|]; [|by rewrite orb_false_r].
  destruct (_ && _); [|by rewrite orb_false_r].
  unfold ensure_div, push_image. cbn. rewrite orb_true_r.
  by destruct (assistantMessageDiv s.2).
Qed.

Lemma made_choice_step c s :
  assistantMessageDiv (Image.choice_step c s).2 =
    assistantMessageDiv s.2 || makes_message c.
Proof.
  unfold Image.choice_step, makes_message. rewrite made_content_parts. rewrite orb_assoc.
  f_equal. unfold has_image_entry. destruct (Wire.delta c) as [d|]; [|by rewrite orb_false_r].
  cbn [from_option]. generalize (Wire.images d). intros l. revert s.
  induction l as [|i l IH]; intros s; [by rewrite orb_false_r|].
  cbn [foldl existsb]. by rewrite IH, made_delta_image, orb_assoc.
Qed.

Lemma image_choices_loop cs s :
  gains s (Image.choices_loop cs s).1
    (concat (choice_text <$> visited cs)) (concat (choice_images <$> visited cs))
  ∧ assistantMessageDiv (Image.choices_loop cs s).1.2 =
      assistantMessageDiv s.2 || existsb makes_message (visited cs).
Proof.
  revert s. induction cs as [|[c|] cs IH]; intros s.
  - split; [apply gains_refl|by rewrite orb_false_r].
  - cbn [Image.choices_loop visited fmap list_fmap concat existsb].
    destruct (IH (Image.choice_step c s)) as [Hg Hm]. split.
    + eapply gains_trans; [apply gains_choice_step|exact Hg].
    + by rewrite Hm, made_choice_step, orb_assoc.
  - split; [apply gains_refl|by rewrite orb_false_r].
Qed.

Lemma image_onChunk_visited obj s :
  gains s (Image.onChunk (Data obj) s).1
    (concat (choice_text <$> visited_choices obj))
    (concat (choice_images <$> visited_choices obj))
  ∧ assistantMessageDiv (Image.onChunk (Data obj) s).1.2 =
      assistantMessageDiv s.2 || existsb makes_message (visited_choices obj).
Proof.
  unfold Image.onChunk, visited_choices.
  destruct obj as [| |cs]; try (split; [apply gains_refl|by rewrite orb_false_r]).
  apply image_choices_loop.
Qed.

(** The chunk callbacks of the image handler over a whole body. *)
Lemma image_chunks objs s :
  let s' := foldl (λ s cb, match cb with
                           | SSE.OnChunk obj => (Image.onChunk (Data obj) s).1
                           | SSE.OnDone err => Image.onDone err s
                           end) s (SSE.OnChunk <$> objs) in
  let cs := concat (visited_choices <$> objs) in
  gains s s' (concat (choice_text <$> cs)) (concat (choice_images <$> cs))
  ∧ assistantMessageDiv s'.2 = assistantMessageDiv s.2 || existsb makes_message cs.
Proof.
  cbv zeta. revert s. induction objs as [|obj objs IH]; intros s.
  - split; [apply gains_refl|by rewrite orb_false_r].
  - cbn [fmap list_fmap foldl concat].
    rewrite !fmap_app, !concat_app, existsb_app.
    destruct (IH (Image.onChunk (Data obj) s).1) as [Hg Hm].
    destruct (image_onChunk_visited obj s) as [Hg1 Hm1]. split.
    + eapply gains_trans; [exact Hg1|exact Hg].
    + by rewrite Hm, Hm1, orb_assoc.
Qed.

(** X9. A streamed text turn, answered with an event stream.  Of every
    object [readSSE] delivers, the handler takes what
    [extractTextFromMessage] finds in the [delta] of its first choice
    and the addresses of that delta's [output_image] parts; the version
    stored is made of these texts and these images, in the order of the
    frames.  If one of the objects brought a text (a string content,
    even empty, or a text part), the log gains the prompt and one
    assistant entry equal to that version, and the last message on the
    page shows it.  If none did, no assistant entry is made: the
    completion callback then writes the empty text and the images over
    the last entry the log has, which is the prompt itself, while the
    page still shows the prompt. *)
Theorem streamed_text_turn_on_the_page
    (prompt : jstring) (uploaded : list jstring) (w : world) (r : Net.response) :
  trim (apiKey (ui w)) ≠ [] →
  trim prompt ≠ [] ∨ uploaded ≠ [] →
  selectedModel (ui w) ≠ None →
  mode (ui w) = js "text" →
  stream (ui w) = true →
  Net.ok r = true →
  indexOf (js "text/event-stream") (Net.content_type r) ≠ None →
  let w' := handleSendMessage parse prompt uploaded w (Net.Resolves r) in
  let user text imgs :=
    {| Chat.role_of := Chat.User; Chat.content := text; Chat.images := imgs |} in
  ∃ objs err,
    SSE.readSSE_stream parse (Net.reads r) = (SSE.OnChunk <$> objs) ++ [SSE.OnDone err]
    ∧ let text :=
        concat ((λ obj, Wire.extractTextFromMessage (first_delta obj)) <$> objs) in
      let imgs :=
        concat ((λ obj, concat (images_of_part <$> parts_of (first_delta obj))) <$> objs) in
      Regen.regenerationHistory (regen w') =
        [{| Regen.content := text; Regen.images := imgs |}]
      ∧ if existsb brings_text objs
        then Chat.messageHistory (chat w') =
               Chat.messageHistory (chat w)
               ++ [user (trim prompt) uploaded;
                   {| Chat.role_of := Chat.Assistant; Chat.content := text;
                      Chat.images := imgs |}]
             ∧ last (Chat.chatMessages (chat w')) = Some (shown text imgs)
        else text = []
             ∧ Chat.messageHistory (chat w') =
                 Chat.messageHistory (chat w) ++ [user [] imgs]
             ∧ last (Chat.chatMessages (chat w')) =
                 Some {| Chat.el_role := Chat.User; Chat.typing_indicator := false;
                         Chat.textContent := trim prompt; Chat.el_images := uploaded |}.
Proof.
  intros Hk Hp Hm Hmode Hs Hok Hct w' user. unfold w'.
  rewrite handleSendMessage_run by done.
  unfold run_chat, runTextChat, finally, handleStreamingResponse.
  cbn [ui with_chat with_regen]. rewrite Hmode, Hs, bool_decide_eq_true_2 by done.
  set (w0 := with_chat (Chat.setStreamingState true) _).
  destruct (streaming_event_stream parse Text.onChunk Text.onDone w0 r Hok Hct)
    as (objs & err & Hr & ->).
  exists objs, err. split; [exact Hr|]. cbv zeta.
  cbn [fst snd].
  set (s0 := (with_api (Session.fetch true) (with_api Session.beginStream w0), acc_init)).
  match goal with |- context [Text.onDone err ?s] => set (s1 := s) end.
  pose proof (deliver_chunks Text.onChunk Text.onDone rest_text_onChunk objs s0) as Hrest.
  fold s1 in Hrest.
  destruct (text_chunks objs s0) as [[Htext Himgs] Hmade]. fold s1 in Htext, Himgs, Hmade.
  cbn [s0 snd acc_init assistantContent assistantImages assistantMessageDiv app orb]
    in Htext, Himgs, Hmade.
  assert (in_progress (Chat.messageHistory (chat s0.1)) (Chat.chatMessages (chat s0.1)) s0)
    as H0 by (unfold in_progress; cbn; by rewrite !app_nil_r).
  apply (in_progress_chunks Text.onChunk Text.onDone _ _ objs s0
           (in_progress_text_onChunk _ _)) in H0. fold s1 in H0.
  destruct (text_onDone_page _ _ err s1 H0) as (Hreg & _ & Hpage).
  assert (regen s1.1 = regen s0.1) as Hreg1.
  { unfold rest_of in Hrest. by injection Hrest as -> _ _. }
  rewrite <- Htext, <- Himgs, <- Hmade.
  cbn [chat regen with_chat]. rewrite Hreg, Hreg1.
  split; [done|].
  destruct (assistantMessageDiv s1.2) eqn:Hd.
  - destruct Hpage as [Hlog Hels].
    cbn [Chat.hideTypingIndicator Chat.setStreamingState Chat.with_elements
         Chat.messageHistory Chat.chatMessages].
    rewrite Hlog, Hels. split.
    + cbn. by rewrite <- app_assoc.
    + by apply last_without_indicator.
  - destruct Hpage as (Ht & Hlog & Hels).
    split; [done|]. split.
    + cbn [Chat.hideTypingIndicator Chat.setStreamingState Chat.with_elements
           Chat.messageHistory]. rewrite Hlog.
      assert (Chat.messageHistory (chat s0.1) =
              Chat.messageHistory (chat w) ++ [user (trim prompt) uploaded]) as -> by done.
      unfold overwrite_last. by rewrite reverse_snoc, reverse_involutive.
    + cbn [Chat.hideTypingIndicator Chat.setStreamingState Chat.with_elements
           Chat.chatMessages]. rewrite Hels. cbn.
      rewrite filter_app, filter_cons, filter_nil.
      destruct (decide (true = false)); [done|]. rewrite app_nil_r, filter_twice.
      by apply last_without_indicator.
Qed.

(** X10. A streamed image turn, answered with an event stream.  Of
    every object [readSSE] delivers, the handler visits the choices up
    to the first [null] entry and takes their text parts and their
    images.  The version stored holds these images and, as its text,
    the text received or, when there is none, ["Generated <n>
    image(s):"] with their number.  The result is never written into
    the log: the log gains the prompt and, if one of the choices made
    the handler create its message, an assistant entry that stays
    empty.  On the page that message shows the version when an image
    was received, and the text alone otherwise. *)
Theorem streamed_image_turn_on_the_page
    (prompt : jstring) (uploaded : list jstring) (w : world) (r : Net.response) :
  trim (apiKey (ui w)) ≠ [] →
  trim prompt ≠ [] ∨ uploaded ≠ [] →
  selectedModel (ui w) ≠ None →
  mode (ui w) ≠ js "text" →
  stream (ui w) = true →
  Net.ok r = true →
  indexOf (js "text/event-stream") (Net.content_type r) ≠ None →
  let w' := handleSendMessage parse prompt uploaded w (Net.Resolves r) in
  let user :=
    {| Chat.role_of := Chat.User; Chat.content := trim prompt; Chat.images := uploaded |} in
  ∃ objs err,
    SSE.readSSE_stream parse (Net.reads r) = (SSE.OnChunk <$> objs) ++ [SSE.OnDone err]
    ∧ let choices := concat (visited_choices <$> objs) in
      let received := concat (choice_text <$> choices) in
      let imgs := concat (choice_images <$> choices) in
      let text := or_else received (generated (length imgs)) in
      Regen.regenerationHistory (regen w') =
        [{| Regen.content := text; Regen.images := imgs |}]
      ∧ if existsb makes_message choices
        then Chat.messageHistory (chat w') =
               Chat.messageHistory (chat w) ++ [user; placeholder]
             ∧ last (Chat.chatMessages (chat w')) =
                 Some (if bool_decide (imgs ≠ []) then shown text imgs
                       else shown received [])
        else received = []
             ∧ Chat.messageHistory (chat w') = Chat.messageHistory (chat w) ++ [user]
             ∧ last (Chat.chatMessages (chat w')) =
                 Some {| Chat.el_role := Chat.User; Chat.typing_indicator := false;
                         Chat.textContent := trim prompt; Chat.el_images := uploaded |}.
Proof.
  intros Hk Hp Hm Hmode Hs Hok Hct w' user. unfold w'.
  rewrite handleSendMessage_run by done.
  unfold run_chat, runImageChat, finally, handleStreamingImageResponse.
  cbn [ui with_chat with_regen]. rewrite Hs, bool_decide_eq_false_2 by done.
  set (w0 := with_chat (Chat.setStreamingState true) _).
  destruct (streaming_event_stream parse Image.onChunk Image.onDone w0 r Hok Hct)
    as (objs & err & Hr & ->).
  exists objs, err. split; [exact Hr|]. cbv zeta.
  cbn [fst snd].
  set (s0 := (with_api (Session.fetch true) (with_api Session.beginStream w0), acc_init)).
  match goal with |- context [Image.onDone err ?s] => set (s1 := s) end.
  pose proof (deliver_chunks Image.onChunk Image.onDone rest_image_onChunk objs s0) as Hrest.
  fold s1 in Hrest.
  destruct (image_chunks objs s0) as [[Htext Himgs] Hmade]. fold s1 in Htext, Himgs, Hmade.
  cbn [s0 snd acc_init assistantContent assistantImages assistantMessageDiv app orb]
    in Htext, Himgs, Hmade.
  assert (in_progress (Chat.messageHistory (chat s0.1)) (Chat.chatMessages (chat s0.1)) s0)
    as H0 by (unfold in_progress; cbn; by rewrite !app_nil_r).
  apply (in_progress_chunks Image.onChunk Image.onDone _ _ objs s0
           (in_progress_image_onChunk _ _)) in H0. fold s1 in H0.
  destruct (image_onDone_page _ _ err s1 H0) as (Hreg & _ & Hlog & Hels).
  destruct H0 as (_ & _ & Hnone).
  assert (regen s1.1 = regen s0.1) as Hreg1.
  { unfold rest_of in Hrest. by injection Hrest as -> _ _. }
  rewrite <- Htext, <- Himgs, <- Hmade.
  cbn [chat regen with_chat]. rewrite Hreg, Hreg1.
  split; [done|].
  cbn [Chat.hideTypingIndicator Chat.setStreamingState Chat.with_elements
       Chat.messageHistory Chat.chatMessages]. rewrite Hlog, Hels.
  assert (Chat.messageHistory (chat s0.1) = Chat.messageHistory (chat w) ++ [user]) as ->
    by done.
  destruct (assistantMessageDiv s1.2) eqn:Hd.
  - split; [by rewrite <- app_assoc|].
    apply last_without_indicator. by case_bool_decide.
  - split; [by apply Hnone|]. split; [by rewrite app_nil_r|].
    rewrite app_nil_r. cbn.
    rewrite filter_app, filter_cons, filter_nil.
    destruct (decide (true = false)); [done|]. rewrite app_nil_r, filter_twice.
    by apply last_without_indicator.
Qed.

End StreamedTurnFacts.

Section StreamedTurnInstances.

Import App Sample Run.

Local Ltac passes :=
  first [ by (vm_compute; discriminate)
        | by (left; vm_compute; discriminate)
        | reflexivity ].

(** A streamed text turn that receives ["Hel"] and ["lo"]. *)
Lemma streamed_text_turn_on_the_page_witness :
  let w' := handleSendMessage echo (js "Say hello") [] (page true)
              (event_stream [frame "Hel"; frame "lo"; frame "[DONE]"]) in
  Regen.regenerationHistory (regen w') =
    [{| Regen.content := js "Hello"; Regen.images := [] |}]
  ∧ Chat.messageHistory (chat w') =
      [{| Chat.role_of := Chat.User; Chat.content := js "Say hello"; Chat.images := [] |};
       {| Chat.role_of := Chat.Assistant; Chat.content := js "Hello"; Chat.images := [] |}]
  ∧ last (Chat.chatMessages (chat w')) = Some (shown (js "Hello") []).
Proof.
  intros w'.
  destruct (streamed_text_turn_on_the_page echo (js "Say hello") [] (page true)
              {| Net.ok := true; Net.status := js "200";
                 Net.content_type := js "text/event-stream";
                 Net.chunks := [frame "Hel"; frame "lo"; frame "[DONE]"];
                 Net.ending := Net.EndOfBody |})
    as (objs & err & Hr & Hver & Hpage).
  - passes.
  - passes.
  - passes.
  - reflexivity.
  - reflexivity.
  - reflexivity.
  - passes.
  - vm_compute in Hr.
    destruct objs as [|o1 [|o2 [|o3 objs]]]; try discriminate Hr.
    injection Hr; intros; subst.
    destruct Hpage as [Hlog Hlast].
    split; [exact Hver|]. split; [exact Hlog|exact Hlast].
Defined.

(** A streamed image turn that receives two images. *)
Lemma streamed_image_turn_on_the_page_witness :
  let w' := handleSendMessage as_image (js "Draw") [] image_page
              (event_stream [frame "https://img/1"; frame "https://img/2"]) in
  Regen.regenerationHistory (regen w') =
    [{| Regen.content := js "Generated 2 image(s):";
        Regen.images := [js "https://img/1"; js "https://img/2"] |}]
  ∧ Chat.messageHistory (chat w') =
      [{| Chat.role_of := Chat.User; Chat.content := js "Draw"; Chat.images := [] |};
       placeholder]
  ∧ last (Chat.chatMessages (chat w')) =
      Some (shown (js "Generated 2 image(s):") [js "https://img/1"; js "https://img/2"]).
Proof.
  intros w'.
  destruct (streamed_image_turn_on_the_page as_image (js "Draw") [] image_page
              {| Net.ok := true; Net.status := js "200";
                 Net.content_type := js "text/event-stream";
                 Net.chunks := [frame "https://img/1"; frame "https://img/2"];
                 Net.ending := Net.EndOfBody |})
    as (objs & err & Hr & Hver & Hpage).
  - passes.
  - passes.
  - passes.
  - passes.
  - reflexivity.
  - reflexivity.
  - passes.
  - vm_compute in Hr.
    destruct objs as [|o1 [|o2 [|o3 objs]]]; try discriminate Hr.
    injection Hr; intros; subst.
    destruct Hpage as [Hlog Hlast].
    split; [exact Hver|]. split; [exact Hlog|exact Hlast].
Defined.

End StreamedTurnInstances.

(* ===================================================================== *)
(** * The timeout against the completion of a stream                      *)
(* ===================================================================== *)

Section RaceFacts.

Import App Run.
Variable parse : jstring → option Wire.payload.

(** Neither handler's callbacks read the stream state: they do the
    same to the page and to their variables wherever it stands. *)
Lemma elsewhere_ensure_div g s : ensure_div (elsewhere g s) = elsewhere g (ensure_div s).
Proof. unfold ensure_div, elsewhere. cbn. by destruct (assistantMessageDiv s.2). Qed.

Lemma elsewhere_append_text g t s :
  append_text t (elsewhere g s) = elsewhere g (append_text t s).
Proof.
  unfold append_text, ensure_div, elsewhere. cbn. by destruct (assistantMessageDiv s.2).
Qed.

Lemma elsewhere_push_image g u s :
  push_image u (elsewhere g s) = elsewhere g (push_image u s).
Proof. done. Qed.

Lemma elsewhere_content_part g s p :
  content_part (elsewhere g s) p = elsewhere g (content_part s p).
Proof.
  unfold content_part. destruct p as [p|]; [|done].
  destruct (Wire.is_lit "output_text" _ && _); destruct (Wire.is_lit "output_image" _ && _);
    by rewrite ?elsewhere_append_text, ?elsewhere_push_image.
Qed.

Lemma elsewhere_foldl {A} (f : state → A → state) g :
  (∀ s x, f (elsewhere g s) x = elsewhere g (f s x)) →
  ∀ l s, foldl f (elsewhere g s) l = elsewhere g (foldl f s l).
Proof.
  intros H l. induction l as [|x l IH]; intros s; [done|]. cbn. by rewrite H, IH.
Qed.

Lemma elsewhere_content_parts g d s :
  content_parts d (elsewhere g s) = elsewhere g (content_parts d s).
Proof.
  unfold content_parts. destruct d as [d|]; [|done].
  destruct (Wire.content_of d); try done.
  apply elsewhere_foldl, elsewhere_content_part.
Qed.

Lemma elsewhere_text_onChunk g c s :
  Text.onChunk c (elsewhere g s) =
    (elsewhere g (Text.onChunk c s).1, (Text.onChunk c s).2).
Proof.
  unfold Text.onChunk. destruct c as [[| |choices]|[| |choices]]; try done.
  cbn [fst snd]. f_equal.
  destruct choices as [|[choice|] ?]; try done.
  destruct (Wire.delta choice) as [d|]; [|done].
  destruct (Wire.content_of d); rewrite ?elsewhere_append_text;
    apply elsewhere_content_parts.
Qed.

Lemma elsewhere_text_onDone g e s :
  Text.onDone e (elsewhere g s) = elsewhere g (Text.onDone e s).
Proof. destruct s as [w a]. unfold Text.onDone, elsewhere. cbn. by destruct (_ && _). Qed.

Lemma elsewhere_delta_image g s i :
  Image.delta_image (elsewhere g s) i = elsewhere g (Image.delta_image s i).
Proof.
  unfold Image.delta_image. destruct i as [i|]; [|done].
  destruct (_ && _); [|done]. by rewrite elsewhere_push_image, elsewhere_ensure_div.
Qed.

Lemma elsewhere_choice_step g c s :
  Image.choice_step c (elsewhere g s) = elsewhere g (Image.choice_step c s).
Proof.
  unfold Image.choice_step. destruct (Wire.delta c) as [d|].
  - by rewrite (elsewhere_foldl _ g (elsewhere_delta_image g)), elsewhere_content_parts.
  - apply elsewhere_content_parts.
Qed.

Lemma elsewhere_image_onChunk g c s :
  Image.onChunk c (elsewhere g s) =
    (elsewhere g (Image.onChunk c s).1, (Image.onChunk c s).2).
Proof.
  unfold Image.onChunk. destruct c as [[| |choices]|[| |choices]]; try done.
  - by destruct (Image.total_images choices []).
  - revert s. induction choices as [|[c|] cs IH]; intros s; try done.
    cbn [Image.choices_loop]. by rewrite elsewhere_choice_step, IH.
Qed.

Lemma elsewhere_image_onDone g e s :
  Image.onDone e (elsewhere g s) = elsewhere g (Image.onDone e s).
Proof. destruct s as [w a]. unfold Image.onDone, elsewhere. cbn. by destruct (_ && _). Qed.

(** So does the whole of [readSSE]. *)
Lemma elsewhere_readSSE onChunk onDone g r s :
  (∀ c s, onChunk c (elsewhere g s) = (elsewhere g (onChunk c s).1, (onChunk c s).2)) →
  (∀ e s, onDone e (elsewhere g s) = elsewhere g (onDone e s)) →
  readSSE parse r onChunk onDone (elsewhere g s) =
    (elsewhere g (readSSE parse r onChunk onDone s).1,
     (readSSE parse r onChunk onDone s).2).
Proof.
  intros Hc Hd. unfold readSSE. destruct (Net.ok r); cbn [negb].
  2:{ by destruct (Net.text r). }
  case_bool_decide.
  - destruct (parseJsonOrThrow parse r) as [json|err]; [|done].
    rewrite Hc. destruct (onChunk (Fallback json) s) as [s1 [err|]]; [done|].
    cbn [fst snd]. by rewrite Hd.
  - cbn [fst snd]. f_equal.
    generalize (SSE.readSSE_stream parse (Net.reads r)). intros cbs. revert s.
    induction cbs as [|cb cbs IH]; intros s; [done|].
    cbn [foldl]. destruct cb as [obj|e].
    + rewrite Hc. cbn [fst]. apply IH.
    + rewrite Hd. apply IH.
Qed.

(** A body whose read fails: [readSSE] hands the failure to the
    completion callback, unless the end marker came first. *)
Lemma pump_failing st (chunks : list (list byte)) (error : Thrown.t) :
  ∃ objs e,
    SSE.pump parse st ((SSE.ReadChunk <$> chunks) ++ [SSE.ReadError error]) =
      (SSE.OnChunk <$> objs) ++ [SSE.OnDone e]
    ∧ (e = Some error ∨ e = None).
Proof.
  revert st; induction chunks as [|c cs IH]; intros st.
  - exists [], (Some error). split; [done|by left].
  - cbn. destruct (TextDecoder.decode_stream _ c) as [dec txt].
    destruct (SSE.drain parse _) as [[objs rest] [|]].
    + exists objs, None. split; [done|by right].
    + destruct (IH {| SSE.decoder := dec; SSE.buffer := rest |}) as (objs' & e & -> & He).
      exists (objs ++ objs'), e. split; [|done]. by rewrite fmap_app, app_assoc.
Qed.

(** C7, as the code has it.  When the timeout of a streamed request
    fires while the answer is read, it calls [abort()] on the
    request's controller and resets the stream state; the read then
    fails, [readSSE] still calls the completion callback, with the
    failure unless the end marker came first, and both handlers apply
    their finalize effects as if no timeout had fired: the page is the
    same, and the version made of what the frames had brought is
    stored.  In the original script a stream that ends normally cancels
    its timeout: after [cleanupStreamState] no timer is due, and none
    that comes due changes anything. *)
Theorem timeout_against_completion
    (w : world) (r : Net.response) (error : Thrown.t) (p : Legacy.page) :
  Net.ok r = true →
  indexOf (js "text/event-stream") (Net.content_type r) ≠ None →
  Net.ending r = Net.BodyFails error →
  Legacy.tidy (Legacy.stream_state p) →
  let started := with_api (Session.fetch true) (with_api Session.beginStream w) in
  let fired := with_api (Session.fire_timer (length (Session.timers (api w)))) started in
  let c := Session.created (api w) in
  (Session.currentController (api started) = Some c
   ∧ Session.trace (api fired) = Session.trace (api started) ++ [Session.Abort c]
   ∧ Session.currentController (api fired) = None
   ∧ Session.streamingActive (api fired) = false)
  ∧ (∃ objs e,
       SSE.readSSE_stream parse (Net.reads r) = (SSE.OnChunk <$> objs) ++ [SSE.OnDone e]
       ∧ (e = Some error ∨ e = None)
       ∧ (let out := readSSE parse r Text.onChunk Text.onDone (fired, acc_init) in
          let calm := readSSE parse r Text.onChunk Text.onDone (started, acc_init) in
          out.2 = None
          ∧ chat out.1.1 = chat calm.1.1
          ∧ regen out.1.1 = regen calm.1.1
          ∧ Regen.regenerationHistory (regen out.1.1) =
              Regen.regenerationHistory (regen w)
              ++ [{| Regen.content :=
                       concat ((λ obj, Wire.extractTextFromMessage (first_delta obj))
                                 <$> objs);
                     Regen.images :=
                       concat ((λ obj, concat (images_of_part
                                                 <$> parts_of (first_delta obj)))
                                 <$> objs) |}])
       ∧ (let out := readSSE parse r Image.onChunk Image.onDone (fired, acc_init) in
          let calm := readSSE parse r Image.onChunk Image.onDone (started, acc_init) in
          let choices := concat (visited_choices <$> objs) in
          let imgs := concat (choice_images <$> choices) in
          out.2 = None
          ∧ chat out.1.1 = chat calm.1.1
          ∧ regen out.1.1 = regen calm.1.1
          ∧ Regen.regenerationHistory (regen out.1.1) =
              Regen.regenerationHistory (regen w)
              ++ [{| Regen.content :=
                       or_else (concat (choice_text <$> choices))
                               (generated (length imgs));
                     Regen.images := imgs |}]))
  ∧ (let p1 := Legacy.beginStream p in
     Legacy.pending (Legacy.stream_state p1) = [Legacy.scheduled (Legacy.stream_state p)]
     ∧ Legacy.pending (Legacy.stream_state (Legacy.ended p1)) = []
     ∧ ∀ h, Legacy.fire_timer h (Legacy.ended p1) = Legacy.ended p1).
Proof.
  intros Hok Hct Hend Htidy started fired c. split; [|split].
  - unfold fired, started, c. cbn [api with_api].
    rewrite beginStream_state, fire_timer_state. cbn.
    rewrite list_lookup_middle by done. done.
  - assert (∃ objs e,
              SSE.readSSE_stream parse (Net.reads r) =
                (SSE.OnChunk <$> objs) ++ [SSE.OnDone e]
              ∧ (e = Some error ∨ e = None)) as (objs & e & Hr & He).
    { unfold SSE.readSSE_stream, Net.reads. rewrite Hend. apply pump_failing. }
    exists objs, e. split; [exact Hr|]. split; [exact He|].
    assert (∀ onChunk onDone s,
              readSSE parse r onChunk onDone s =
                (onDone e (foldl (λ s cb, match cb with
                                          | SSE.OnChunk obj => (onChunk (Data obj) s).1
                                          | SSE.OnDone err => onDone err s
                                          end) s (SSE.OnChunk <$> objs)), None)) as Hrun.
    { intros onChunk onDone s. unfold readSSE. rewrite Hok. cbn [negb].
      rewrite (bool_decide_eq_false_2 _ Hct), Hr. by rewrite foldl_app. }
    change (fired, acc_init) with
      (elsewhere (Session.fire_timer (length (Session.timers (api w))))
         (started, acc_init)).
    split.
    + rewrite (elsewhere_readSSE Text.onChunk Text.onDone)
        by auto using elsewhere_text_onChunk, elsewhere_text_onDone.
      cbv zeta. cbn [fst snd elsewhere chat regen with_api].
      rewrite Hrun. cbn [fst snd].
      split; [done|]. split; [done|]. split; [done|].
      set (s0 := (started, acc_init)).
      pose proof (deliver_chunks Text.onChunk Text.onDone (rest_text_onChunk) objs s0)
        as Hrest.
      destruct (text_chunks objs s0) as [[Htext Himgs] _].
      match goal with |- context [Text.onDone e ?s] => set (s1 := s) in * end.
      replace (Text.onDone e s1) with (Text.onDone e (s1.1, s1.2)) by by destruct s1.
      rewrite onDone_text_history, Htext, Himgs.
      unfold rest_of in Hrest. injection Hrest as -> _ _. done.
    + rewrite (elsewhere_readSSE Image.onChunk Image.onDone)
        by auto using elsewhere_image_onChunk, elsewhere_image_onDone.
      cbv zeta. cbn [fst snd elsewhere chat regen with_api].
      rewrite Hrun. cbn [fst snd].
      split; [done|]. split; [done|]. split; [done|].
      set (s0 := (started, acc_init)).
      pose proof (deliver_chunks Image.onChunk Image.onDone (rest_image_onChunk) objs s0)
        as Hrest.
      destruct (image_chunks objs s0) as [[Htext Himgs] _].
      match goal with |- context [Image.onDone e ?s] => set (s1 := s) in * end.
      replace (Image.onDone e s1) with (Image.onDone e (s1.1, s1.2)) by by destruct s1.
      rewrite onDone_image_history, Htext, Himgs.
      unfold rest_of in Hrest. injection Hrest as -> _ _. done.
  - cbv zeta. pose proof (tidy_beginStream p Htidy) as Ht1.
    pose proof (cleanup_pending _ Ht1) as Hp. split; [|split; [done|]].
    + pose proof (cleanup_pending _ Htidy) as Hp0.
      unfold Legacy.beginStream, Legacy.abortActive. cbn.
      unfold Legacy.cleanupStreamState in Hp0. cbn in Hp0. by rewrite Hp0.
    + intros h. unfold Legacy.fire_timer. case_bool_decide as Hin; [|done].
      cbn [Legacy.ended Legacy.stream_state] in Hin. rewrite Hp in Hin.
      by apply not_elem_of_nil in Hin.
Qed.

End RaceFacts.

Section RaceInstances.

Import App Sample Run.

(** A streamed request whose timeout fires after the frame ["Hel"]:
    the read fails with the abort, and both handlers store their
    version; the original script after a stream that has ended. *)
Lemma timeout_against_completion_witness :
  let r := {| Net.ok := true; Net.status := js "200";
              Net.content_type := js "text/event-stream";
              Net.chunks := [frame "Hel"];
              Net.ending :=
                Net.BodyFails (Thrown.error_object (js "AbortError")
                                 (js "The user aborted a request.")) |} in
  let started := with_api (Session.fetch true) (with_api Session.beginStream (page true)) in
  let fired := with_api (Session.fire_timer 0) started in
  let p1 := Legacy.beginStream {| Legacy.chat := Chat.init;
                                  Legacy.stream_state := Legacy.session_init |} in
  Session.trace (api fired) =
    [Session.New 0; Session.Fetch (Some 0%nat); Session.Abort 0]
  ∧ Regen.regenerationHistory
      (regen (readSSE echo r Text.onChunk Text.onDone (fired, acc_init)).1.1) =
      [{| Regen.content := js "Hel"; Regen.images := [] |}]
  ∧ Regen.regenerationHistory
      (regen (readSSE echo r Image.onChunk Image.onDone (fired, acc_init)).1.1) =
      [{| Regen.content := js "Generated 0 image(s):"; Regen.images := [] |}]
  ∧ Legacy.pending (Legacy.stream_state p1) = [0%nat]
  ∧ Legacy.fire_timer 0 (Legacy.ended p1) = Legacy.ended p1.
Proof.
  intros r started fired p1.
  destruct (timeout_against_completion echo (page true) r
              (Thrown.error_object (js "AbortError") (js "The user aborted a request."))
              {| Legacy.chat := Chat.init; Legacy.stream_state := Legacy.session_init |})
    as ((_ & H1 & _) & (objs & e & Hr & _ & (_ & _ & _ & Ht) & (_ & _ & _ & Hi))
        & (Hp & _ & Hl)).
  - reflexivity.
  - by vm_compute.
  - reflexivity.
  - apply tidy_init.
  - vm_compute in Hr.
    destruct objs as [|o1 [|o2 objs]]; try discriminate Hr.
    injection Hr; intros; subst.
    split; [exact H1|]. split; [exact Ht|]. split; [exact Hi|].
    split; [exact Hp|exact (Hl 0%nat)].
Defined.

(** C7 as stated fails twice.  A streamed turn of js/app.js that has
    ended normally leaves its controller current and its timeout
    pending: when the timeout comes due, [abort()] is called and the
    stream state changes.  And when the timeout fires first, the
    completion callback still stores the version and shows it. *)
Lemma timeout_after_completion_aborts_and_late_finalize_applies :
  (let w' := handleSendMessage echo (js "hi") [] (page true)
               (event_stream [frame "Hel"; frame "[DONE]"]) in
   Regen.regenerationHistory (regen w') =
     [{| Regen.content := js "Hel"; Regen.images := [] |}]
   ∧ Session.timers (api w') = [0%nat]
   ∧ Session.currentController (api w') = Some 0%nat
   ∧ Session.streamingActive (api w') = true
   ∧ Session.abort_count 0 (api w') = 0%nat
   ∧ Session.abort_count 0 (Session.fire_timer 0 (api w')) = 1%nat
   ∧ Session.currentController (Session.fire_timer 0 (api w')) = None
   ∧ Session.streamingActive (Session.fire_timer 0 (api w')) = false)
  ∧ (let r := {| Net.ok := true; Net.status := js "200";
                 Net.content_type := js "text/event-stream";
                 Net.chunks := [frame "Hel"];
                 Net.ending :=
                   Net.BodyFails (Thrown.error_object (js "AbortError")
                                    (js "The user aborted a request.")) |} in
     let fired :=
       with_api (Session.fire_timer 0)
         (with_api (Session.fetch true) (with_api Session.beginStream (page true))) in
     let out := readSSE echo r Text.onChunk Text.onDone (fired, acc_init) in
     Session.abort_count 0 (api fired) = 1%nat
     ∧ Session.streamingActive (api fired) = false
     ∧ Regen.regenerationHistory (regen fired) = []
     ∧ SSE.readSSE_stream echo (Net.reads r) =
         [SSE.OnChunk (answer (js "Hel"));
          SSE.OnDone (Some (Thrown.error_object (js "AbortError")
                              (js "The user aborted a request.")))]
     ∧ Regen.regenerationHistory (regen out.1.1) =
         [{| Regen.content := js "Hel"; Regen.images := [] |}]
     ∧ last (Chat.chatMessages (chat out.1.1)) = Some (shown (js "Hel") [])).
Proof. by vm_compute. Qed.

End RaceInstances.
